(** * Pyxl.Puppt core: kinematics, interpolation and ragdoll physics

    A shallow embedding of [src/core/interpolation.ts], [src/core/kinematics.ts]
    and [src/core/physics.ts], of the helpers and the mouse handlers of
    [src/view/Canvas.tsx], of [src/hooks/usePlayback.ts] and of the timeline
    handlers of [src/App.tsx].

    Numbers.  A JavaScript [number] is modelled as a real number: arithmetic is
    exact and there is no NaN, no infinity and no signed zero.  Comparisons
    [a < b], [a > b], [a === 0] become the decision procedures [Rlt_dec],
    [Rgt_dec], [Req_dec_T].  The functions of the [Math] object are the real
    functions of the same name ([JsMath] below).

    Keys.  The sixteen joint keys of [hierarchy] form the closed enumeration
    [JointId]; [keyName] gives the string the source uses for each of them. *)

From Stdlib Require Import Reals Lra List String Bool Arith Lia.
Import ListNotations.
Open Scope R_scope.

(** Sequencing of computations that may raise: [None] is a raised TypeError. *)
Definition bindO {A B : Type} (o : option A) (f : A -> option B) : option B :=
  match o with Some a => f a | None => None end.

Notation "'do' x <- o ; k" := (bindO o (fun x => k))
  (at level 10, x name, o at level 100, k at level 200).

(* ================================================================== *)
(** ** The [Math] object *)
(* ================================================================== *)

Module JsMath.

(** [Math.hypot(a, b)] *)
Definition hypot (a b : R) : R := sqrt (a * a + b * b).

(** [Math.atan2(y, x)]: the angle in (-PI, PI] of the vector (x, y), and 0 for
    the null vector. *)
Definition atan2 (y x : R) : R :=
  if Rlt_dec 0 x then atan (y / x)
  else if Rlt_dec x 0 then
         if Rle_dec 0 y then atan (y / x) + PI else atan (y / x) - PI
       else if Rlt_dec 0 y then PI / 2
            else if Rlt_dec y 0 then - (PI / 2) else 0.

(** [Math.max], [Math.min], [Math.abs], [Math.acos], [Math.cos], [Math.sin] are
    [Rmax], [Rmin], [Rabs], [acos], [cos], [sin]. *)

End JsMath.
Import JsMath.

(* ================================================================== *)
(** ** Types ([types.ts], as the code uses them) *)
(* ================================================================== *)

Record Point : Type := mkPoint { x : R; y : R }.

(** The angles of one side of the body, [pose.left] / [pose.right]. *)
Record SideAngles : Type := mkSide {
  shoulder : R; elbow : R; hand : R; hip : R; knee : R; foot : R
}.

Record PoseData : Type := mkPose {
  offset : Point;
  torso : R;
  waist : R;
  head : R;
  left : SideAngles;
  right : SideAngles
}.

Inductive Side : Type := SLeft | SRight.

Inductive JointId : Type :=
| Root | Torso | Waist | Head
| LShoulder | LElbow | LHand
| RShoulder | RElbow | RHand
| LHip | LKnee | LFoot
| RHip | RKnee | RFoot.

Definition keyName (j : JointId) : string :=
  match j with
  | Root => "root" | Torso => "torso" | Waist => "waist" | Head => "head"
  | LShoulder => "left.shoulder" | LElbow => "left.elbow" | LHand => "left.hand"
  | RShoulder => "right.shoulder" | RElbow => "right.elbow" | RHand => "right.hand"
  | LHip => "left.hip" | LKnee => "left.knee" | LFoot => "left.foot"
  | RHip => "right.hip" | RKnee => "right.knee" | RFoot => "right.foot"
  end%string.

Definition JointId_eqb (a b : JointId) : bool :=
  match a, b with
  | Root, Root | Torso, Torso | Waist, Waist | Head, Head
  | LShoulder, LShoulder | LElbow, LElbow | LHand, LHand
  | RShoulder, RShoulder | RElbow, RElbow | RHand, RHand
  | LHip, LHip | LKnee, LKnee | LFoot, LFoot
  | RHip, RHip | RKnee, RKnee | RFoot, RFoot => true
  | _, _ => false
  end.

Record BoneSegment : Type := mkBone {
  key : JointId;
  start : Point;
  end_ : Point;
  width : R;
  angle : R
  (* shape: always 'custom' *)
}.

(** [joints] is a JS object filled key by key: an association list in
    insertion order, every key stored once. *)
Record Skeleton : Type := mkSkeleton {
  joints : list (JointId * Point);
  bones : list BoneSegment
}.

Record PhysicsParticle : Type := mkParticle {
  id : string;
  pos : Point;
  prevPos : Point;
  mass : R
}.

Record PhysicsConstraint : Type := mkConstraint {
  particleAIndex : nat;
  particleBIndex : nat;
  restLength : R
}.

(** [particleMap] is a [Map<string, number>] that the code only ever queries
    with joint keys. *)
Record PhysicsBody : Type := mkBody {
  particles : list PhysicsParticle;
  constraints : list PhysicsConstraint;
  particleMap : JointId -> option nat
}.

(* ================================================================== *)
(** ** interpolation.ts *)
(* ================================================================== *)

Module Interpolation.

(** A JSON-like value, what [interpolateRecursive] walks over. *)
#[warnings="-register-all"]
Inductive JsVal : Type :=
| JNum (r : R)
| JObj (fields : list (string * JsVal))
| JNull.

Fixpoint lookupField (k : string) (fs : list (string * JsVal)) : option JsVal :=
  match fs with
  | [] => None
  | (k', v) :: rest => if String.eqb k k' then Some v else lookupField k rest
  end.

Definition lerp (a b t : R) : R := a * (1 - t) + b * t.

Definition lerpAngle (a b t : R) : R :=
  let delta := b - a in
  let delta :=
    if Rgt_dec delta PI then delta - 2 * PI
    else if Rlt_dec delta (- PI) then delta + 2 * PI
    else delta in
  a + delta * t.

(** [None] stands for the TypeError that [key in b] raises when [b] is a
    number.  An object is the list of its own fields, and [key in b] is the
    lookup among the fields of [b]: what [in] answers for every key but the
    names of the properties that every object inherits ([constructor],
    [toString], ...), which no pose has. *)
Fixpoint interpolateRecursive (a b : JsVal) (t : R) (path : string)
  {struct a} : option JsVal :=
  match a, b with
  | JNum va, JNum vb =>
      if String.prefix "offset." path then Some (JNum (lerp va vb t))
      else Some (JNum (lerpAngle va vb t))
  | JObj fa, JNull => Some b
  | JObj fa, _ =>
      let inB (k : string) : option (option JsVal) :=
        match b with
        | JObj fb => Some (lookupField k fb)
        | _ => None
        end in
      let fix each (fs : list (string * JsVal))
                   (result : list (string * JsVal))
        : option (list (string * JsVal)) :=
        match fs with
        | [] => Some result
        | (k, va) :: rest =>
            match inB k with
            | None => None
            | Some None => each rest result
            | Some (Some vb) =>
                match interpolateRecursive va vb t (path ++ k ++ ".") with
                | Some r => each rest (result ++ [(k, r)])
                | None => None
                end
            end
        end in
      option_map JObj (each fa [])
  | _, _ => Some b
  end.

Definition sideToJs (s : SideAngles) : JsVal :=
  JObj [("shoulder", JNum (shoulder s)); ("elbow", JNum (elbow s));
        ("hand", JNum (hand s)); ("hip", JNum (hip s));
        ("knee", JNum (knee s)); ("foot", JNum (foot s))]%string.

(** A pose as the object [getDefaultPose] builds, fields in that order. *)
Definition poseToJs (p : PoseData) : JsVal :=
  JObj [("offset", JObj [("x", JNum (x (offset p))); ("y", JNum (y (offset p)))]);
        ("torso", JNum (torso p)); ("waist", JNum (waist p));
        ("head", JNum (head p));
        ("left", sideToJs (left p)); ("right", sideToJs (right p))]%string.

Definition numField (k : string) (v : JsVal) : option R :=
  match v with
  | JObj fs => match lookupField k fs with Some (JNum r) => Some r | _ => None end
  | _ => None
  end.

Definition objField (k : string) (v : JsVal) : option JsVal :=
  match v with
  | JObj fs => lookupField k fs
  | _ => None
  end.

Definition sideOfJs (v : JsVal) : option SideAngles :=
  do a <- numField "shoulder" v; do b <- numField "elbow" v;
  do c <- numField "hand" v; do d <- numField "hip" v;
  do e <- numField "knee" v; do f <- numField "foot" v;
  Some (mkSide a b c d e f).

(** Reading the result back at the type the source casts it to. *)
Definition poseOfJs (v : JsVal) : option PoseData :=
  do o <- objField "offset" v;
  do ox <- numField "x" o; do oy <- numField "y" o;
  do t <- numField "torso" v; do w <- numField "waist" v;
  do h <- numField "head" v;
  do l <- bindO (objField "left" v) sideOfJs;
  do r <- bindO (objField "right" v) sideOfJs;
  Some (mkPose (mkPoint ox oy) t w h l r).

Definition interpolatePoses (poseA poseB : PoseData) (t : R) : option PoseData :=
  bindO (interpolateRecursive (poseToJs poseA) (poseToJs poseB) t "") poseOfJs.

End Interpolation.

(* ================================================================== *)
(** ** kinematics.ts *)
(* ================================================================== *)

Module Kinematics.

Definition W : R := 800.
Definition H : R := 800.

Definition HEAD_SIZE_UNIT : R := 105.
Definition TRUNK_HEIGHT : R := HEAD_SIZE_UNIT * 3.
Definition LIMB_LENGTH : R := HEAD_SIZE_UNIT * 2.
Definition HEAD_SIZE : R := HEAD_SIZE_UNIT * 0.8.
Definition TORSO_HEIGHT : R := 150.
Definition WAIST_HEIGHT : R := 75.
Definition NECK_LENGTH : R := 0.
Definition L_ARM : R := LIMB_LENGTH / 2.
Definition L_FOREARM : R := LIMB_LENGTH / 2.
Definition L_HAND : R := HEAD_SIZE_UNIT * 0.4.
Definition L_THIGH : R := 125.
Definition L_SHIN : R := 125.
Definition L_FOOT : R := HEAD_SIZE_UNIT * 0.4.

Record HierarchyNode : Type := mkNode {
  parent : option JointId;
  children : list JointId
}.

Definition hierarchy (k : JointId) : HierarchyNode :=
  match k with
  | Root => mkNode None [Torso; Waist]
  | Torso => mkNode (Some Root) [Head; LShoulder; RShoulder]
  | Waist => mkNode (Some Root) [LHip; RHip]
  | Head => mkNode (Some Torso) []
  | LShoulder => mkNode (Some Torso) [LElbow]
  | LElbow => mkNode (Some LShoulder) [LHand]
  | LHand => mkNode (Some LElbow) []
  | RShoulder => mkNode (Some Torso) [RElbow]
  | RElbow => mkNode (Some RShoulder) [RHand]
  | RHand => mkNode (Some RElbow) []
  | LHip => mkNode (Some Waist) [LKnee]
  | LKnee => mkNode (Some LHip) [LFoot]
  | LFoot => mkNode (Some LKnee) []
  | RHip => mkNode (Some Waist) [RKnee]
  | RKnee => mkNode (Some RHip) [RFoot]
  | RFoot => mkNode (Some RKnee) []
  end.

(** [Object.keys(hierarchy)], in the order the literal lists them. *)
Definition hierarchyKeys : list JointId :=
  [Root; Torso; Waist; Head; LShoulder; LElbow; LHand; RShoulder; RElbow; RHand;
   LHip; LKnee; LFoot; RHip; RKnee; RFoot].

(** The table [BASE_ANGLES]; it has no entry for 'root'. *)
Definition BASE_ANGLES (k : JointId) : option R :=
  match k with
  | Root => None
  | Torso => Some (- PI / 2)
  | Waist => Some (PI / 2)
  | Head => Some 0
  | LShoulder => Some (- PI / 2)
  | LElbow => Some 0
  | LHand => Some 0
  | RShoulder => Some (PI / 2)
  | RElbow => Some 0
  | RHand => Some 0
  | LHip => Some 0
  | LKnee => Some 0
  | LFoot => Some 0
  | RHip => Some 0
  | RKnee => Some 0
  | RFoot => Some 0
  end.

(** [BASE_ANGLES[k] || 0] *)
Definition baseAngle (k : JointId) : R :=
  match BASE_ANGLES k with
  | Some v => v
  | None => 0
  end.

Definition getDefaultPose : PoseData :=
  {| offset := {| x := 0; y := 0 |};
     torso := 0; waist := 0; head := 0;
     left := {| shoulder := PI / 2; elbow := 0; hand := 0;
                hip := 0; knee := 0; foot := 0 |};
     right := {| shoulder := - PI / 2; elbow := 0; hand := 0;
                 hip := 0; knee := 0; foot := 0 |} |}.

Definition getEndPoint (start : Point) (angle length : R) : Point :=
  {| x := x start + cos angle * length;
     y := y start + sin angle * length |}.

(** [pose[side]] and the keys [`${side}.shoulder`], ... *)
Definition poseSide (pose : PoseData) (side : Side) : SideAngles :=
  match side with SLeft => left pose | SRight => right pose end.

Definition shoulderKeyOf (side : Side) : JointId :=
  match side with SLeft => LShoulder | SRight => RShoulder end.
Definition elbowKeyOf (side : Side) : JointId :=
  match side with SLeft => LElbow | SRight => RElbow end.
Definition handKeyOf (side : Side) : JointId :=
  match side with SLeft => LHand | SRight => RHand end.
Definition hipKeyOf (side : Side) : JointId :=
  match side with SLeft => LHip | SRight => RHip end.
Definition kneeKeyOf (side : Side) : JointId :=
  match side with SLeft => LKnee | SRight => RKnee end.
Definition footKeyOf (side : Side) : JointId :=
  match side with SLeft => LFoot | SRight => RFoot end.

(** The three local tables of [computeSkeleton], each in insertion order;
    every key is written once. *)
Record FKState : Type := mkFK {
  jointCache : list (JointId * Point);
  boneCache : list BoneSegment;
  worldAngles : list (JointId * R)
}.

Definition storeJoint (k : JointId) (p : Point) (s : FKState) : FKState :=
  mkFK (jointCache s ++ [(k, p)]) (boneCache s) (worldAngles s).

Definition storeBone (k : JointId) (start end_ : Point) (width angle : R)
  (s : FKState) : FKState :=
  mkFK (jointCache s) (boneCache s ++ [mkBone k start end_ width angle])
       (worldAngles s).

Definition storeAngle (k : JointId) (a : R) (s : FKState) : FKState :=
  mkFK (jointCache s) (boneCache s) (worldAngles s ++ [(k, a)]).

(** Body of the first [forEach] over the sides: shoulder, elbow, hand. *)
Definition armTier (pose : PoseData) (neckPos : Point) (waTorso : R)
  (s : FKState) (side : Side) : FKState :=
  let shoulderWidth := 48 in
  let perpTorsoAngle := waTorso + PI / 2 in
  let shoulderXOffset :=
    match side with SRight => shoulderWidth | SLeft => - shoulderWidth end in
  let shoulderPos := getEndPoint neckPos perpTorsoAngle shoulderXOffset in
  let shoulderKey := shoulderKeyOf side in
  let s := storeJoint shoulderKey shoulderPos s in
  let waShoulder := waTorso + baseAngle shoulderKey + shoulder (poseSide pose side) in
  let s := storeAngle shoulderKey waShoulder s in
  let elbowPos := getEndPoint shoulderPos waShoulder L_ARM in
  let s := storeBone shoulderKey shoulderPos elbowPos 36 waShoulder s in
  let elbowKey := elbowKeyOf side in
  let s := storeJoint elbowKey elbowPos s in
  let waElbow := waShoulder + baseAngle elbowKey + elbow (poseSide pose side) in
  let s := storeAngle elbowKey waElbow s in
  let handPos := getEndPoint elbowPos waElbow L_FOREARM in
  let s := storeBone elbowKey elbowPos handPos 28 waElbow s in
  let handKey := handKeyOf side in
  let s := storeJoint handKey handPos s in
  let waHand := waElbow + baseAngle handKey + hand (poseSide pose side) in
  let s := storeAngle handKey waHand s in
  let handEnd := getEndPoint handPos waHand L_HAND in
  storeBone handKey handPos handEnd 16 waHand s.

(** Body of the second [forEach] over the sides: hip, knee, foot. *)
Definition legTier (pose : PoseData) (hipBasePos : Point) (waWaist : R)
  (s : FKState) (side : Side) : FKState :=
  let hipWidth := 29 in
  let perpWaistAngle := waWaist - PI / 2 in
  let hipXOffset :=
    match side with SRight => hipWidth | SLeft => - hipWidth end in
  let hipPos := getEndPoint hipBasePos perpWaistAngle hipXOffset in
  let hipKey := hipKeyOf side in
  let s := storeJoint hipKey hipPos s in
  let waHip := waWaist + baseAngle hipKey + hip (poseSide pose side) in
  let s := storeAngle hipKey waHip s in
  let kneePos := getEndPoint hipPos waHip L_THIGH in
  let s := storeBone hipKey hipPos kneePos 44 waHip s in
  let kneeKey := kneeKeyOf side in
  let s := storeJoint kneeKey kneePos s in
  let waKnee := waHip + baseAngle kneeKey + knee (poseSide pose side) in
  let s := storeAngle kneeKey waKnee s in
  let footPos := getEndPoint kneePos waKnee L_SHIN in
  let s := storeBone kneeKey kneePos footPos 32 waKnee s in
  let footKey := footKeyOf side in
  let s := storeJoint footKey footPos s in
  let waFoot := waKnee + baseAngle footKey + foot (poseSide pose side) in
  let s := storeAngle footKey waFoot s in
  let footEnd := getEndPoint footPos waFoot L_FOOT in
  storeBone footKey footPos footEnd 18 waFoot s.

(** [computeSkeleton] up to its [return], with the local [worldAngles] kept. *)
Definition computeSkeletonState (pose : PoseData) : FKState :=
  let s := mkFK [] [] [(Root, 0)] in
  let rootPos := {| x := W / 2 + x (offset pose); y := H / 2 + y (offset pose) |} in
  let s := storeJoint Root rootPos s in
  let waTorso := baseAngle Torso + torso pose in
  let s := storeAngle Torso waTorso s in
  let neckPos := getEndPoint rootPos waTorso TORSO_HEIGHT in
  let s := storeJoint Torso neckPos s in
  let s := storeBone Torso rootPos neckPos 100 waTorso s in
  let waWaist := baseAngle Waist + waist pose in
  let s := storeAngle Waist waWaist s in
  let hipBasePos := getEndPoint rootPos waWaist WAIST_HEIGHT in
  let s := storeJoint Waist hipBasePos s in
  let s := storeBone Waist rootPos hipBasePos 60 waWaist s in
  let headParentAngle := waTorso in
  let waHead := headParentAngle + baseAngle Head + head pose in
  let s := storeAngle Head waHead s in
  let headVisualEnd := getEndPoint neckPos waHead 1 in
  let headPhysicsCenter := getEndPoint neckPos waHead (HEAD_SIZE / 2.5) in
  let s := storeBone Head neckPos headVisualEnd HEAD_SIZE waHead s in
  let s := storeJoint Head headPhysicsCenter s in
  let s := fold_left (armTier pose neckPos waTorso) [SLeft; SRight] s in
  fold_left (legTier pose hipBasePos waWaist) [SLeft; SRight] s.

Definition computeSkeleton (pose : PoseData) : Skeleton :=
  let s := computeSkeletonState pose in
  {| joints := jointCache s; bones := boneCache s |}.

(** [skeleton.joints[k]] and [skeleton.bones.find(b => b.key === k)] *)
Fixpoint lookupJoint {A : Type} (k : JointId) (l : list (JointId * A)) : option A :=
  match l with
  | [] => None
  | (k', v) :: rest => if JointId_eqb k' k then Some v else lookupJoint k rest
  end.

Definition findBone (k : JointId) (bs : list BoneSegment) : option BoneSegment :=
  find (fun b => JointId_eqb (key b) k) bs.

Definition getParentWorldAngle (k : JointId) (pose : PoseData) : R :=
  match parent (hierarchy k) with
  | None => 0
  | Some parentKey =>
      match findBone parentKey (bones (computeSkeleton pose)) with
      | Some parentBone => angle parentBone
      | None => 0
      end
  end.

Record IKResult : Type := mkIK { angle1 : R; angle2 : R }.

Definition solveIK (rootPos targetPos : Point) (l1 l2 : R) : option IKResult :=
  let dx := x targetPos - x rootPos in
  let dy := y targetPos - y rootPos in
  let dist := hypot dx dy in
  if Rlt_dec dist 0.1 then None
  else
    let maxReach := l1 + l2 in
    if Rgt_dec dist maxReach then
      Some {| angle1 := atan2 dy dx; angle2 := 0 |}
    else
      let minReach := Rabs (l1 - l2) in
      let '(dx, dy, dist) :=
        if Rlt_dec dist minReach then
          let scale := minReach / dist in
          let targetPos := {| x := x rootPos + dx * scale;
                              y := y rootPos + dy * scale |} in
          (x targetPos - x rootPos, y targetPos - y rootPos, minReach)
        else (dx, dy, dist) in
      let distSq := dist * dist in
      let cosAngle2 := (l1 * l1 + l2 * l2 - distSq) / (2 * l1 * l2) in
      let angle2_raw := acos (Rmax (-1) (Rmin 1 cosAngle2)) in
      let cosAngle1_part := (distSq + l1 * l1 - l2 * l2) / (2 * dist * l1) in
      let angle1_part := acos (Rmax (-1) (Rmin 1 cosAngle1_part)) in
      let targetAngle := atan2 dy dx in
      let angle1 := targetAngle - angle1_part in
      let angle2 := PI - angle2_raw in
      Some {| angle1 := angle1; angle2 := angle2 |}.

(** [clampAngle]: the two [while] loops, each with a bound on its rounds;
    [None] when the bound is reached before the test fails. *)
Fixpoint lowerWhileAbove (fuel : nat) (normAngle : R) : option R :=
  if Rgt_dec normAngle PI then
    match fuel with
    | O => None
    | S fuel' => lowerWhileAbove fuel' (normAngle - 2 * PI)
    end
  else Some normAngle.

Fixpoint raiseWhileBelow (fuel : nat) (normAngle : R) : option R :=
  if Rlt_dec normAngle (- PI) then
    match fuel with
    | O => None
    | S fuel' => raiseWhileBelow fuel' (normAngle + 2 * PI)
    end
  else Some normAngle.

Definition clampAngle (fuel : nat) (angle min max : R) : option R :=
  do normAngle <- lowerWhileAbove fuel angle;
  do normAngle <- raiseWhileBelow fuel normAngle;
  Some (Rmax min (Rmin max normAngle)).

End Kinematics.

(* ================================================================== *)
(** ** physics.ts *)
(* ================================================================== *)

Module Physics.
Import Kinematics.

Definition FRICTION : R := 0.96.
Definition SOLVER_ITERATIONS : nat := 15.
Definition GRAVITY : Point := {| x := 0; y := 2500 |}.
Definition STIFFNESS : R := 0.75.

Definition shortestAngleDiff (from to : R) : R :=
  let diff := to - from in
  if Rgt_dec diff PI then diff - 2 * PI
  else if Rlt_dec diff (- PI) then diff + 2 * PI
  else diff.

(** [key.includes(sub)] *)
Fixpoint includes (sub s : string) : bool :=
  String.prefix sub s
  || match s with
     | EmptyString => false
     | String _ s' => includes sub s'
     end.

(** The mass a particle gets from its key. *)
Definition massOfKey (k : string) : R :=
  if (String.eqb k "root" || String.eqb k "torso"
      || includes "hip" k || includes "shoulder" k)%bool then 3.0
  else if (String.eqb k "waist" || String.eqb k "head"
           || String.eqb k "neck")%bool then 1.5
  else 0.5.

Definition setMap (m : JointId -> option nat) (k : JointId) (n : nat)
  : JointId -> option nat :=
  fun k' => if JointId_eqb k' k then Some n else m k'.

(** First loop of [createPhysicsBodyFromPose]: one particle per joint. *)
Definition addParticle (acc : list PhysicsParticle * (JointId -> option nat))
  (entry : JointId * Point)
  : list PhysicsParticle * (JointId -> option nat) :=
  let '(particles, particleMap) := acc in
  let '(k, point) := entry in
  let particle := {| id := keyName k; pos := point; prevPos := point;
                     mass := massOfKey (keyName k) |} in
  (particles ++ [particle], setMap particleMap k (List.length particles)).

(** Second loop: one constraint per hierarchy edge.  An index stored in
    [particleMap] was the length of [particles] just before a push, so
    [particles[index]] is always defined. *)
Definition addChildConstraint (particles : list PhysicsParticle)
  (particleMap : JointId -> option nat)
  (parentIndex : nat) (parentParticle : PhysicsParticle)
  (cs : list PhysicsConstraint) (childKey : JointId) : list PhysicsConstraint :=
  match particleMap childKey with
  | None => cs
  | Some childIndex =>
      match nth_error particles childIndex with
      | None => cs
      | Some childParticle =>
          let restLength :=
            hypot (x (pos childParticle) - x (pos parentParticle))
                  (y (pos childParticle) - y (pos parentParticle)) in
          if Rgt_dec restLength 0.1 then
            cs ++ [{| particleAIndex := parentIndex;
                      particleBIndex := childIndex;
                      restLength := restLength |}]
          else cs
      end
  end.

Definition addConstraints (particles : list PhysicsParticle)
  (particleMap : JointId -> option nat)
  (cs : list PhysicsConstraint) (parentKey : JointId) : list PhysicsConstraint :=
  match particleMap parentKey with
  | None => cs
  | Some parentIndex =>
      match nth_error particles parentIndex with
      | None => cs
      | Some parentParticle =>
          fold_left
            (addChildConstraint particles particleMap parentIndex parentParticle)
            (children (hierarchy parentKey)) cs
      end
  end.

Definition createPhysicsBodyFromPose (pose : PoseData) : PhysicsBody :=
  let skeleton := computeSkeleton pose in
  let '(particles, particleMap) :=
    fold_left addParticle (joints skeleton) ([], fun _ => None) in
  let constraints :=
    fold_left (addConstraints particles particleMap) hierarchyKeys [] in
  {| particles := particles; constraints := constraints;
     particleMap := particleMap |}.

(** *** updatePhysicsBody *)

(** Phase 1, one particle. *)
Definition integrate (dtSq : R) (p : PhysicsParticle) : PhysicsParticle :=
  if Req_dec_T (mass p) 0 then p
  else
    let velocity := {| x := (x (pos p) - x (prevPos p)) * FRICTION;
                       y := (y (pos p) - y (prevPos p)) * FRICTION |} in
    let accel := {| x := x GRAVITY; y := y GRAVITY |} in
    {| id := id p;
       pos := {| x := x (pos p) + (x velocity + x accel * dtSq);
                 y := y (pos p) + (y velocity + y accel * dtSq) |};
       prevPos := pos p;
       mass := mass p |}.

(** In-place change of [particles[i]]. *)
Fixpoint modifyAt (i : nat) (f : PhysicsParticle -> PhysicsParticle)
  (ps : list PhysicsParticle) : list PhysicsParticle :=
  match ps, i with
  | [], _ => []
  | p :: rest, O => f p :: rest
  | p :: rest, S i' => p :: modifyAt i' f rest
  end.

Definition movePos (dx dy : R) (p : PhysicsParticle) : PhysicsParticle :=
  {| id := id p;
     pos := {| x := x (pos p) + dx; y := y (pos p) + dy |};
     prevPos := prevPos p;
     mass := mass p |}.

(** Phase 2, one constraint.  [None]: [particles[index]] is undefined and
    reading its [pos] raises. *)
Definition solveConstraint (ps : list PhysicsParticle) (c : PhysicsConstraint)
  : option (list PhysicsParticle) :=
  do pA <- nth_error ps (particleAIndex c);
  do pB <- nth_error ps (particleBIndex c);
  let delta := {| x := x (pos pB) - x (pos pA); y := y (pos pB) - y (pos pA) |} in
  let dist := hypot (x delta) (y delta) in
  if Rlt_dec dist 0.001 then Some ps
  else
    let diff := (dist - restLength c) / dist in
    let totalMass := mass pA + mass pB in
    if Req_dec_T totalMass 0 then Some ps
    else
      let pAShare := if Rgt_dec (mass pA) 0 then mass pA / totalMass else 1 in
      let pBShare := if Rgt_dec (mass pB) 0 then mass pB / totalMass else 1 in
      let correctionX := x delta * diff * STIFFNESS in
      let correctionY := y delta * diff * STIFFNESS in
      let ps := modifyAt (particleAIndex c)
                  (movePos (correctionX * pBShare) (correctionY * pBShare)) ps in
      let ps := modifyAt (particleBIndex c)
                  (movePos (- (correctionX * pAShare)) (- (correctionY * pAShare))) ps in
      Some ps.

(** [body.constraints.forEach(...)] *)
Fixpoint solveConstraints (cs : list PhysicsConstraint) (ps : list PhysicsParticle)
  : option (list PhysicsParticle) :=
  match cs with
  | [] => Some ps
  | c :: rest => do ps' <- solveConstraint ps c; solveConstraints rest ps'
  end.

(** [for (let i = 0; i < n; i++) body.constraints.forEach(...)] *)
Fixpoint solverLoop (n : nat) (cs : list PhysicsConstraint) (ps : list PhysicsParticle)
  : option (list PhysicsParticle) :=
  match n with
  | O => Some ps
  | S n' => do ps' <- solveConstraints cs ps; solverLoop n' cs ps'
  end.

Definition PARTICLE_RADIUS : R := 5.

Record Bounds : Type := mkBounds { top : R; bottom : R; left_ : R; right_ : R }.

Definition bounds : Bounds :=
  {| top := PARTICLE_RADIUS;
     bottom := H - PARTICLE_RADIUS;
     left_ := PARTICLE_RADIUS;
     right_ := W - PARTICLE_RADIUS |}.

Definition impactFalloutFactor : R := 0.15.

(** The four [if] statements of phase 3, one after the other. *)
Definition collideFloor (vy : R) (p : PhysicsParticle) : PhysicsParticle :=
  if Rgt_dec (y (pos p)) (bottom bounds) then
    {| id := id p;
       pos := {| x := x (pos p); y := bottom bounds |};
       prevPos := {| x := x (prevPos p) - vy * impactFalloutFactor;
                     y := bottom bounds |};
       mass := mass p |}
  else p.

Definition collideCeiling (p : PhysicsParticle) : PhysicsParticle :=
  if Rlt_dec (y (pos p)) (top bounds) then
    {| id := id p;
       pos := {| x := x (pos p); y := top bounds |};
       prevPos := {| x := x (prevPos p); y := top bounds |};
       mass := mass p |}
  else p.

Definition collideRight (p : PhysicsParticle) : PhysicsParticle :=
  if Rgt_dec (x (pos p)) (right_ bounds) then
    {| id := id p;
       pos := {| x := right_ bounds; y := y (pos p) |};
       prevPos := {| x := right_ bounds; y := y (prevPos p) |};
       mass := mass p |}
  else p.

Definition collideLeft (p : PhysicsParticle) : PhysicsParticle :=
  if Rlt_dec (x (pos p)) (left_ bounds) then
    {| id := id p;
       pos := {| x := left_ bounds; y := y (pos p) |};
       prevPos := {| x := left_ bounds; y := y (prevPos p) |};
       mass := mass p |}
  else p.

(** Phase 3, one particle. *)
Definition collide (p : PhysicsParticle) : PhysicsParticle :=
  let vy := y (pos p) - y (prevPos p) in
  collideLeft (collideRight (collideCeiling (collideFloor vy p))).

(** The particles as phases 1 and 2 leave them, before the boundary pass. *)
Definition beforeCollision (body : PhysicsBody) (dt : R)
  : option (list PhysicsParticle) :=
  let dtSq := dt * dt in
  solverLoop SOLVER_ITERATIONS (constraints body)
             (map (integrate dtSq) (particles body)).

(** The body after the call; [None] when the call raises. *)
Definition updatePhysicsBody (body : PhysicsBody) (dt : R) : option PhysicsBody :=
  do ps <- beforeCollision body dt;
  Some {| particles := map collide ps;
          constraints := constraints body;
          particleMap := particleMap body |}.

(** *** extractPoseFromPhysicsBody *)

(** [getParticlePos(key)]: [Some None] is [undefined] (no entry in the map);
    [None] is the TypeError of reading [pos] of a missing particle. *)
Definition getParticlePos (body : PhysicsBody) (k : JointId)
  : option (option Point) :=
  match particleMap body k with
  | None => Some None
  | Some index =>
      match nth_error (particles body) index with
      | Some p => Some (Some (pos p))
      | None => None
      end
  end.

(** [getPrevPoseAngle(key)]: the field of the pose the key names; a pose has
    no field 'root', which reads as [undefined ?? 0]. *)
Definition getPoseAngle (pose : PoseData) (k : JointId) : R :=
  match k with
  | Root => 0
  | Torso => torso pose
  | Waist => waist pose
  | Head => head pose
  | LShoulder => shoulder (left pose)
  | LElbow => elbow (left pose)
  | LHand => hand (left pose)
  | LHip => hip (left pose)
  | LKnee => knee (left pose)
  | LFoot => foot (left pose)
  | RShoulder => shoulder (right pose)
  | RElbow => elbow (right pose)
  | RHand => hand (right pose)
  | RHip => hip (right pose)
  | RKnee => knee (right pose)
  | RFoot => foot (right pose)
  end.

Definition setSideAngle (part : JointId) (v : R) (s : SideAngles) : SideAngles :=
  match part with
  | LShoulder | RShoulder => mkSide v (elbow s) (hand s) (hip s) (knee s) (foot s)
  | LElbow | RElbow => mkSide (shoulder s) v (hand s) (hip s) (knee s) (foot s)
  | LHand | RHand => mkSide (shoulder s) (elbow s) v (hip s) (knee s) (foot s)
  | LHip | RHip => mkSide (shoulder s) (elbow s) (hand s) v (knee s) (foot s)
  | LKnee | RKnee => mkSide (shoulder s) (elbow s) (hand s) (hip s) v (foot s)
  | LFoot | RFoot => mkSide (shoulder s) (elbow s) (hand s) (hip s) (knee s) v
  | _ => s
  end.

(** The assignment [newPose[parts[0]][parts[1]] = v] or [newPose[key] = v].
    The key 'root' is never written (it is no one's child). *)
Definition setPoseAngle (k : JointId) (v : R) (pose : PoseData) : PoseData :=
  match k with
  | Root => pose
  | Torso => mkPose (offset pose) v (waist pose) (head pose) (left pose) (right pose)
  | Waist => mkPose (offset pose) (torso pose) v (head pose) (left pose) (right pose)
  | Head => mkPose (offset pose) (torso pose) (waist pose) v (left pose) (right pose)
  | LShoulder | LElbow | LHand | LHip | LKnee | LFoot =>
      mkPose (offset pose) (torso pose) (waist pose) (head pose)
             (setSideAngle k v (left pose)) (right pose)
  | RShoulder | RElbow | RHand | RHip | RKnee | RFoot =>
      mkPose (offset pose) (torso pose) (waist pose) (head pose)
             (left pose) (setSideAngle k v (right pose))
  end.

Definition setOffset (o : Point) (pose : PoseData) : PoseData :=
  mkPose o (torso pose) (waist pose) (head pose) (left pose) (right pose).

(** The recursive closure [calculateAngles]; the local table [worldAngles] is
    written and never read, and is left out.  The recursion follows the
    hierarchy, which is four levels deep below 'torso' and 'waist'; [fuel]
    bounds the depth and [None] is returned when it runs out or when
    [getParticlePos] raises. *)
Fixpoint calculateAngles (fuel : nat) (body : PhysicsBody) (previousPose : PoseData)
  (parentKey : JointId) (parentWorldAngle : R) (newPose : PoseData)
  {struct fuel} : option PoseData :=
  match fuel with
  | O => None
  | S fuel' =>
      let fix forEach (cs : list JointId) (newPose : PoseData) : option PoseData :=
        match cs with
        | [] => Some newPose
        | childKey :: rest =>
            do parentPos <- getParticlePos body parentKey;
            do childPos <- getParticlePos body childKey;
            match parentPos, childPos with
            | Some parentPos, Some childPos =>
                let dx := x childPos - x parentPos in
                let dy := y childPos - y parentPos in
                let childWorldAngle := atan2 dy dx in
                let rawLocalAngle :=
                  childWorldAngle - parentWorldAngle - baseAngle childKey in
                let previousLocalAngle := getPoseAngle previousPose childKey in
                let finalLocalAngle :=
                  previousLocalAngle
                  + shortestAngleDiff previousLocalAngle rawLocalAngle in
                let finalChildWorldAngle :=
                  parentWorldAngle + baseAngle childKey + finalLocalAngle in
                let newPose := setPoseAngle childKey finalLocalAngle newPose in
                do newPose <- calculateAngles fuel' body previousPose childKey
                                finalChildWorldAngle newPose;
                forEach rest newPose
            | _, _ => forEach rest newPose
            end
        end in
      forEach (children (hierarchy parentKey)) newPose
  end.

Definition extractPoseFromPhysicsBody (body : PhysicsBody) (previousPose : PoseData)
  : option PoseData :=
  let newPose := previousPose in
  do rootPos <- getParticlePos body Root;
  do torsoPos <- getParticlePos body Torso;
  do waistPos <- getParticlePos body Waist;
  match rootPos, torsoPos, waistPos with
  | Some rootPos, Some torsoPos, Some waistPos =>
      let torsoWorldAngle :=
        atan2 (y torsoPos - y rootPos) (x torsoPos - x rootPos) in
      let waistWorldAngle :=
        atan2 (y waistPos - y rootPos) (x waistPos - x rootPos) in
      let rawTorsoAngle := torsoWorldAngle - baseAngle Torso in
      let newPose :=
        setPoseAngle Torso
          (torso previousPose + shortestAngleDiff (torso previousPose) rawTorsoAngle)
          newPose in
      let rawWaistAngle := waistWorldAngle - baseAngle Waist in
      let newPose :=
        setPoseAngle Waist
          (waist previousPose + shortestAngleDiff (waist previousPose) rawWaistAngle)
          newPose in
      let newPose :=
        setOffset {| x := x rootPos - W / 2; y := y rootPos - H / 2 |} newPose in
      let finalTorsoWorldAngle := baseAngle Torso + torso newPose in
      let finalWaistWorldAngle := baseAngle Waist + waist newPose in
      do newPose <- calculateAngles 16 body previousPose Torso
                      finalTorsoWorldAngle newPose;
      calculateAngles 16 body previousPose Waist finalWaistWorldAngle newPose
  | _, _, _ => Some newPose
  end.

End Physics.

(* ================================================================== *)
(** ** Numbers and arrays of the view code *)
(* ================================================================== *)

Module JsNumber.

(** [Math.floor] *)
Definition floor (r : R) : Z := Int_part r.

(** Rounding towards zero, the integer quotient of the remainder operator. *)
Definition trunc (r : R) : Z :=
  if Rle_dec 0 r then Int_part r else (- Int_part (- r))%Z.

(** [a % m] for a divisor that is not zero: the remainder takes the sign of
    the dividend. *)
Definition jsRem (a m : R) : R := a - m * IZR (trunc (a / m)).

(** [arr[i]] for an integer [i]: [None] is [undefined]. *)
Definition arrayGet {A : Type} (arr : list A) (i : Z) : option A :=
  if (i <? 0)%Z then None else nth_error arr (Z.to_nat i).

End JsNumber.

(* ================================================================== *)
(** ** view/Canvas.tsx: the helpers and the drag handlers *)
(* ================================================================== *)

Module Canvas.
Import Kinematics Physics JsNumber.

(** The values of [dragModeRef.current] other than [null]. *)
Inductive DragMode : Type :=
| ModePan | ModeRotate | ModeIk | ModeAim | ModeFullBodyIk | ModeGroundedIk.

(** [{ [key: string]: Point }], read at joint keys. *)
Definition Pins : Type := JointId -> option Point.

(** [distToSegment(p, v, w)]; [a ** 2] is [a * a]. *)
Definition distToSegment (p v w : Point) : R :=
  let l2 := (x v - x w) * (x v - x w) + (y v - y w) * (y v - y w) in
  if Req_dec_T l2 0 then hypot (x p - x v) (y p - y v)
  else
    let t := ((x p - x v) * (x w - x v) + (y p - y v) * (y w - y v)) / l2 in
    let t := Rmax 0 (Rmin 1 t) in
    let proj := {| x := x v + t * (x w - x v); y := y v + t * (y w - y v) |} in
    hypot (x p - x proj) (y p - y proj).

(** The closure [calculateCorrection] of the two IK handlers, on the pair it
    updates: ([totalCorrection], [correctionCount]). *)
Definition calculateCorrection (rootPos pinPos : option Point) (maxReach : R)
  (acc : Point * nat) : Point * nat :=
  match rootPos, pinPos with
  | Some rootPos, Some pinPos =>
      let dx := x pinPos - x rootPos in
      let dy := y pinPos - y rootPos in
      let dist := hypot dx dy in
      if Rgt_dec dist maxReach then
        let overshoot := dist - maxReach in
        ({| x := x (fst acc) + dx / dist * overshoot;
            y := y (fst acc) + dy / dist * overshoot |}, S (snd acc))
      else acc
  | _, _ => acc
  end.

(** The tension pass of [handleGroundedIk] for one side. *)
Definition groundedTension (proposedSkeleton : Skeleton) (pinnedPoints : Pins)
  (acc : Point * nat) (side : Side) : Point * nat :=
  let acc :=
    match pinnedPoints (handKeyOf side) with
    | Some _ =>
        calculateCorrection (lookupJoint (shoulderKeyOf side) (joints proposedSkeleton))
                            (pinnedPoints (handKeyOf side)) (L_ARM + L_FOREARM) acc
    | None => acc
    end in
  match pinnedPoints (footKeyOf side) with
  | Some _ =>
      calculateCorrection (lookupJoint (hipKeyOf side) (joints proposedSkeleton))
                          (pinnedPoints (footKeyOf side)) (L_THIGH + L_SHIN) acc
  | None => acc
  end.

(** The tension pass of [handleFullBodyIk] for one side. *)
Definition fullBodyTension (proposedSkeleton : Skeleton) (pinnedPoints : Pins)
  (acc : Point * nat) (side : Side) : Point * nat :=
  let acc :=
    calculateCorrection (lookupJoint (shoulderKeyOf side) (joints proposedSkeleton))
                        (pinnedPoints (handKeyOf side)) (L_ARM + L_FOREARM) acc in
  calculateCorrection (lookupJoint (hipKeyOf side) (joints proposedSkeleton))
                      (pinnedPoints (footKeyOf side)) (L_THIGH + L_SHIN) acc.

(** [proposedPose.offset.x += totalCorrection.x / correctionCount], and the
    same for y, when a correction was counted. *)
Definition applyCorrection (acc : Point * nat) (proposedPose : PoseData) : PoseData :=
  match snd acc with
  | O => proposedPose
  | S _ =>
      setOffset {| x := x (offset proposedPose) + x (fst acc) / INR (snd acc);
                   y := y (offset proposedPose) + y (fst acc) / INR (snd acc) |}
                proposedPose
  end.

(** [finalSkeleton.bones.find(b => b.key === k)?.angle ?? 0] *)
Definition boneAngleOr0 (k : JointId) (skeleton : Skeleton) : R :=
  match findBone k (bones skeleton) with
  | Some b => angle b
  | None => 0
  end.

(** The final IK solve for one side, the same in both handlers: the arm,
    then the leg. *)
Definition solveLimbs (finalSkeleton : Skeleton) (pinnedPoints : Pins)
  (newPose : PoseData) (side : Side) : PoseData :=
  let newPose :=
    match lookupJoint (shoulderKeyOf side) (joints finalSkeleton),
          pinnedPoints (handKeyOf side) with
    | Some shoulderPos, Some handPinPos =>
        match solveIK shoulderPos handPinPos L_ARM L_FOREARM with
        | Some armResult =>
            let torsoAngle := boneAngleOr0 Torso finalSkeleton in
            setPoseAngle (elbowKeyOf side) (angle2 armResult)
              (setPoseAngle (shoulderKeyOf side) (angle1 armResult - torsoAngle)
                 newPose)
        | None => newPose
        end
    | _, _ => newPose
    end in
  match lookupJoint (hipKeyOf side) (joints finalSkeleton),
        pinnedPoints (footKeyOf side) with
  | Some hipPos, Some footPinPos =>
      match solveIK hipPos footPinPos L_THIGH L_SHIN with
      | Some legResult =>
          let waistAngle := boneAngleOr0 Waist finalSkeleton in
          setPoseAngle (kneeKeyOf side) (angle2 legResult)
            (setPoseAngle (hipKeyOf side) (angle1 legResult - waistAngle) newPose)
      | None => newPose
      end
  | _, _ => newPose
  end.

(** The copy of the initial pose moved by the mouse:
    [proposedPose.offset.x += mouseDelta.x], and the same for y. *)
Definition dragged (initialPose : PoseData) (initialMouse pos : Point) : PoseData :=
  let mouseDelta := {| x := x pos - x initialMouse; y := y pos - y initialMouse |} in
  setOffset {| x := x (offset initialPose) + x mouseDelta;
               y := y (offset initialPose) + y mouseDelta |} initialPose.

(** [handleGroundedIk]: the pose handed to [setLocalPose]; [None] is the
    early return.  [initialMousePosRef.current] is always a point. *)
Definition handleGroundedIk (pinnedPoints : option Pins) (initialPose : option PoseData)
  (initialMouse : Point) (pos : Point) : option PoseData :=
  match pinnedPoints, initialPose with
  | Some pinnedPoints, Some initialPose =>
      let proposedPose := dragged initialPose initialMouse pos in
      let proposedSkeleton := computeSkeleton proposedPose in
      let acc :=
        fold_left (groundedTension proposedSkeleton pinnedPoints) [SLeft; SRight]
                  ({| x := 0; y := 0 |}, O) in
      let newPose := applyCorrection acc proposedPose in
      let finalSkeleton := computeSkeleton newPose in
      Some (fold_left (solveLimbs finalSkeleton pinnedPoints) [SLeft; SRight] newPose)
  | _, _ => None
  end.

(** [handleFullBodyIk] *)
Definition handleFullBodyIk (driverKey : option JointId) (pinnedPoints : option Pins)
  (initialPose : option PoseData) (initialMouse : Point) (pos : Point)
  : option PoseData :=
  match driverKey, pinnedPoints, initialPose with
  | Some driverKey, Some pinnedPoints, Some initialPose =>
      let proposedPose := dragged initialPose initialMouse pos in
      let proposedSkeleton := computeSkeleton proposedPose in
      let acc :=
        fold_left (fullBodyTension proposedSkeleton pinnedPoints) [SLeft; SRight]
                  ({| x := 0; y := 0 |}, O) in
      let newPose := applyCorrection acc proposedPose in
      let finalSkeleton := computeSkeleton newPose in
      let newPose :=
        fold_left (solveLimbs finalSkeleton pinnedPoints) [SLeft; SRight] newPose in
      Some
        (match JointId_eqb driverKey Head, pinnedPoints Head with
         | false, Some headPinPos =>
             match lookupJoint Root (joints finalSkeleton) with
             | Some rootPos =>
                 let torsoWorldAngle :=
                   atan2 (y headPinPos - y rootPos) (x headPinPos - x rootPos)
                   + PI / 2 in
                 setPoseAngle Torso torsoWorldAngle newPose
             | None => newPose
             end
         | _, _ => newPose
         end)
  | _, _, _ => None
  end.

(** [handleAim]: the new local pose; the updater handed to [setLocalPose] is
    applied to the local pose the handler read.  The x difference is taken
    against [activePivot.y], as the source has it. *)
Definition handleAim (controlledJoint : option JointId) (activePivot : option Point)
  (localPose : PoseData) (pos : Point) : PoseData :=
  match controlledJoint, activePivot with
  | Some controlledJoint, Some activePivot =>
      let targetGridAngle :=
        atan2 (y pos - y activePivot) (x pos - y activePivot) in
      let parentGlobalRotation := getParentWorldAngle controlledJoint localPose in
      let finalLocalAngle := targetGridAngle - parentGlobalRotation in
      setPoseAngle controlledJoint finalLocalAngle localPose
  | _, _ => localPose
  end.

(** [normalizeAngle], the closure of [handleMouseUp]. *)
Definition normalizeAngle (angle : R) : R :=
  let newAngle := jsRem angle (2 * PI) in
  if Rgt_dec newAngle PI then newAngle - 2 * PI
  else if Rlt_dec newAngle (- PI) then newAngle + 2 * PI
  else newAngle.

(** [handleMouseUp]: the pose handed to [onPoseCommit], [None] when there is
    no drag to end.  A pose has no field 'root', so that key is left as it
    is. *)
Definition handleMouseUp (dragMode : option DragMode)
  (controlledJoint : option JointId) (localPose : PoseData) : option PoseData :=
  match dragMode with
  | None => None
  | Some mode =>
      match mode, controlledJoint with
      | ModeRotate, Some jointToNormalize =>
          let currentAngle := getPoseAngle localPose jointToNormalize in
          Some (setPoseAngle jointToNormalize (normalizeAngle currentAngle) localPose)
      | _, _ => Some localPose
      end
  end.

(** [lerp], [recursiveLerp] and [isClose], with the damping of the displayed
    pose.  [recursiveLerp] and [isClose] are written at the type of their one
    call site, two poses: every key of the one is a key of the other and the
    leaves are numbers, so [recursiveLerp] goes through every key and
    [isClose] is the conjunction over all of them. *)
Definition DAMPING_FACTOR : R := 0.4.

Definition lerp (a b t : R) : R := a * (1 - t) + b * t.

Definition recursiveLerpPoint (a b : Point) (t : R) : Point :=
  {| x := lerp (x a) (x b) t; y := lerp (y a) (y b) t |}.

Definition recursiveLerpSide (a b : SideAngles) (t : R) : SideAngles :=
  mkSide (lerp (shoulder a) (shoulder b) t) (lerp (elbow a) (elbow b) t)
         (lerp (hand a) (hand b) t) (lerp (hip a) (hip b) t)
         (lerp (knee a) (knee b) t) (lerp (foot a) (foot b) t).

Definition recursiveLerp (a b : PoseData) (t : R) : PoseData :=
  mkPose (recursiveLerpPoint (offset a) (offset b) t)
         (lerp (torso a) (torso b) t) (lerp (waist a) (waist b) t)
         (lerp (head a) (head b) t)
         (recursiveLerpSide (left a) (left b) t)
         (recursiveLerpSide (right a) (right b) t).

Definition isCloseNumber (a b threshold : R) : bool :=
  if Rlt_dec (Rabs (a - b)) threshold then true else false.

Definition isClosePoint (a b : Point) (threshold : R) : bool :=
  isCloseNumber (x a) (x b) threshold && isCloseNumber (y a) (y b) threshold.

Definition isCloseSide (a b : SideAngles) (threshold : R) : bool :=
  isCloseNumber (shoulder a) (shoulder b) threshold
  && isCloseNumber (elbow a) (elbow b) threshold
  && isCloseNumber (hand a) (hand b) threshold
  && isCloseNumber (hip a) (hip b) threshold
  && isCloseNumber (knee a) (knee b) threshold
  && isCloseNumber (foot a) (foot b) threshold.

Definition isClose (a b : PoseData) (threshold : R) : bool :=
  isClosePoint (offset a) (offset b) threshold
  && isCloseNumber (torso a) (torso b) threshold
  && isCloseNumber (waist a) (waist b) threshold
  && isCloseNumber (head a) (head b) threshold
  && isCloseSide (left a) (left b) threshold
  && isCloseSide (right a) (right b) threshold.

(** The updater [animate] hands to [setDisplayedPose] on every animation
    frame: [current] is the displayed pose, [localPose] the one it chases;
    [isClose] is called with its default threshold, 0.001. *)
Definition animate (localPose current : PoseData) : PoseData :=
  if isClose current localPose 0.001 then localPose
  else recursiveLerp current localPose DAMPING_FACTOR.

(** The search for the clicked bone at the start of [handleMouseDown]: the
    [forEach] over [skeleton.bones], on the pair ([finalClickedKey],
    [minDistance]) it updates.  [minDistance] starts as [Infinity], here
    [None], which every distance is below. *)
Definition clickedBoneStep (pos : Point) (acc : option JointId * option R)
  (bone : BoneSegment) : option JointId * option R :=
  let dist := distToSegment pos (start bone) (end_ bone) in
  let belowMin :=
    match snd acc with
    | None => true
    | Some minDistance => if Rlt_dec dist minDistance then true else false
    end in
  if (if Rlt_dec dist (width bone / 2 + 16) then true else false) && belowMin
  then (Some (key bone), Some dist)
  else acc.

Definition clickedBone (pos : Point) (bones : list BoneSegment)
  : option JointId * option R :=
  fold_left (clickedBoneStep pos) bones (None, None).

End Canvas.

(* ================================================================== *)
(** ** hooks/usePlayback.ts *)
(* ================================================================== *)

Module Playback.
Import Interpolation JsNumber.

Record Frame : Type := mkFrame { fromIndex : Z; toIndex : Z; t : R }.

(** The body of [animate] up to the choice of the two keyframes:
    [elapsedTime] is [(time - startTimeRef.current) / 1000]; [None] is the
    early return on [numSegments <= 0]. *)
Definition currentFrame (numKeyframes : Z) (fps : R) (startFrame : Z)
  (elapsedTime : R) : option Frame :=
  let frameDuration := 1 / fps in
  let numSegments := (2 * (numKeyframes - 1))%Z in
  if (numSegments <=? 0)%Z then None
  else
    let totalDuration := IZR numSegments * frameDuration in
    let startTimeOffset := IZR startFrame * frameDuration in
    let timelineTime := jsRem (elapsedTime + startTimeOffset) totalDuration in
    let currentSegmentFloat := timelineTime / frameDuration in
    let segmentIndex := floor currentSegmentFloat in
    let t := currentSegmentFloat - IZR segmentIndex in
    if (segmentIndex <? numKeyframes - 1)%Z then
      Some {| fromIndex := segmentIndex; toIndex := segmentIndex + 1; t := t |}
    else
      let fromIndex := (numSegments - segmentIndex)%Z in
      Some {| fromIndex := fromIndex; toIndex := fromIndex - 1; t := t |}.

(** One call of [animate]: the pose handed to [setInterpolatedPose], if any.
    ([interpolatePoses] does not raise on two poses.) *)
Definition animate (keyframes : list PoseData) (fps : R) (startFrame : Z)
  (elapsedTime : R) : option PoseData :=
  do f <- currentFrame (Z.of_nat (List.length keyframes)) fps startFrame elapsedTime;
  match arrayGet keyframes (fromIndex f), arrayGet keyframes (toIndex f) with
  | Some fromPose, Some toPose => interpolatePoses fromPose toPose (t f)
  | _, _ => None
  end.

End Playback.

(* ================================================================== *)
(** ** App.tsx: the timeline and the two switches *)
(* ================================================================== *)

Module App.
Import Kinematics.

(** [TimelineState].  An entry [None] of [keyframes] is a hole of the array,
    which reads [undefined]; [currentFrame] is an index, a natural number:
    the handlers are called with, and compute, nothing else. *)
Record TimelineState : Type := mkTimeline {
  keyframes : list (option PoseData);
  currentFrame : nat
}.

(** The state of [App] that the handlers below read and set: the present
    state of [useHistory] and the two switches. *)
Record AppState : Type := mkApp {
  timelineState : TimelineState;
  isPlaying : bool;
  isPhysicsEnabled : bool
}.

Definition initialState : AppState :=
  mkApp (mkTimeline [Some getDefaultPose] 0) false false.

(** [arr[i]] *)
Definition arrayRead {A : Type} (arr : list (option A)) (i : nat) : option A :=
  match nth_error arr i with
  | Some v => v
  | None => None
  end.

(** [copy[i] = v]: past the end the array grows, leaving holes. *)
Definition arrayWrite {A : Type} (arr : list (option A)) (i : nat) (v : A)
  : list (option A) :=
  if (i <? List.length arr)%nat then firstn i arr ++ Some v :: skipn (S i) arr
  else arr ++ repeat None (i - List.length arr) ++ [Some v].

(** [copy.splice(start, 0, item)] and [copy.splice(start, 1)]; a start past
    the end is the end. *)
Definition spliceInsert {A : Type} (arr : list A) (start : nat) (item : A) : list A :=
  firstn start arr ++ item :: skipn start arr.

Definition spliceDelete {A : Type} (arr : list A) (start : nat) : list A :=
  firstn start arr ++ skipn (S start) arr.

Definition currentPose (s : AppState) : option PoseData :=
  arrayRead (keyframes (timelineState s)) (currentFrame (timelineState s)).

Definition handlePoseCommit (newPose : PoseData) (s : AppState) : AppState :=
  let newKeyframes :=
    arrayWrite (keyframes (timelineState s)) (currentFrame (timelineState s)) newPose in
  mkApp (mkTimeline newKeyframes (currentFrame (timelineState s)))
        (isPlaying s) (isPhysicsEnabled s).

Definition handleReset (s : AppState) : AppState :=
  handlePoseCommit getDefaultPose (mkApp (timelineState s) (isPlaying s) false).

Definition handleTogglePhysics (s : AppState) : AppState :=
  if negb (isPhysicsEnabled s) then mkApp (timelineState s) false true
  else mkApp (timelineState s) (isPlaying s) false.

Definition handleSelectFrame (index : nat) (s : AppState) : AppState :=
  mkApp (mkTimeline (keyframes (timelineState s)) index) false false.

Definition handleAddFrame (s : AppState) : AppState :=
  let t := timelineState s in
  let newKeyframes :=
    spliceInsert (keyframes t) (currentFrame t + 1)
                 (arrayRead (keyframes t) (currentFrame t)) in
  mkApp (mkTimeline newKeyframes (currentFrame t + 1)) false false.

Definition handleDeleteFrame (s : AppState) : AppState :=
  let t := timelineState s in
  if (List.length (keyframes t) <=? 1)%nat then s
  else
    let newKeyframes := spliceDelete (keyframes t) (currentFrame t) in
    let newCurrentFrame := Nat.min (currentFrame t) (List.length newKeyframes - 1) in
    mkApp (mkTimeline newKeyframes newCurrentFrame) false false.

Definition handleTogglePlay (s : AppState) : AppState :=
  let physics := if isPhysicsEnabled s then false else isPhysicsEnabled s in
  if (1 <? List.length (keyframes (timelineState s)))%nat
  then mkApp (timelineState s) (negb (isPlaying s)) physics
  else mkApp (timelineState s) (isPlaying s) physics.

End App.

Import Interpolation Kinematics Physics.

(* ================================================================== *)
(** ** Vocabulary of the statements *)
(* ================================================================== *)

(** [computeSkeleton(pose).joints[k]] *)
Definition jointPos (pose : PoseData) (k : JointId) : option Point :=
  lookupJoint k (joints (computeSkeleton pose)).

(** The entry of the local table [worldAngles] when [computeSkeleton] returns. *)
Definition worldAngle (pose : PoseData) (k : JointId) : option R :=
  lookupJoint k (worldAngles (computeSkeletonState pose)).

(** Both tables have an entry for each of the sixteen keys
    ([worldAngle_defined], [jointPos_defined]); these read it. *)
Definition waOf (pose : PoseData) (k : JointId) : R :=
  match worldAngle pose k with Some a => a | None => 0 end.

Definition posOf (pose : PoseData) (k : JointId) : Point :=
  match jointPos pose k with Some p => p | None => mkPoint 0 0 end.

(** The signed half-width used for the shoulders (48) and the hips (29). *)
Definition sideOffset (side : Side) (w : R) : R :=
  match side with SRight => w | SLeft => - w end.

(** The direction from joint [a] to joint [b] of the skeleton of [pose], as
    [Math.atan2] reports it. *)
Definition bearing (pose : PoseData) (a b : JointId) : R :=
  atan2 (y (posOf pose b) - y (posOf pose a)) (x (posOf pose b) - x (posOf pose a)).

(** The target pushed out to the minimum reach, as the too-close branch of
    [solveIK] rebuilds it. *)
Definition rescaledTarget (rootPos targetPos : Point) (l1 l2 : R) : Point :=
  let dx := x targetPos - x rootPos in
  let dy := y targetPos - y rootPos in
  let scale := Rabs (l1 - l2) / hypot dx dy in
  {| x := x rootPos + dx * scale; y := y rootPos + dy * scale |}.

(** Where the second segment ends when the first leaves the root at [angle1]
    and the second turns by [angle2] from the first. *)
Definition endEffector (rootPos : Point) (l1 l2 : R) (r : IKResult) : Point :=
  getEndPoint (getEndPoint rootPos (angle1 r) l1) (angle1 r + angle2 r) l2.

(** The particle as the floor branch of the boundary pass leaves it. *)
Definition landed (p : PhysicsParticle) : PhysicsParticle :=
  {| id := id p;
     pos := {| x := x (pos p); y := bottom bounds |};
     prevPos := {| x := x (prevPos p)
                        - (y (pos p) - y (prevPos p)) * impactFalloutFactor;
                   y := bottom bounds |};
     mass := mass p |}.

(** Every index a constraint names is an index of [particles]. *)
Definition wellFormedBody (body : PhysicsBody) : Prop :=
  forall c, In c (constraints body) ->
    (particleAIndex c < List.length (particles body))%nat /\
    (particleBIndex c < List.length (particles body))%nat.

(** Every index [particleMap] holds is an index of [particles]. *)
Definition wellFormedMap (body : PhysicsBody) : Prop :=
  forall k i, particleMap body k = Some i -> (i < List.length (particles body))%nat.

Definition insideStage (p : PhysicsParticle) : Prop :=
  PARTICLE_RADIUS <= x (pos p) <= W - PARTICLE_RADIUS /\
  PARTICLE_RADIUS <= y (pos p) <= H - PARTICLE_RADIUS.

(** Every angle of [np] is the one of [prev], or that one moved by what
    [shortestAngleDiff] returns for some raw angle. *)
Definition reconciled (prev np : PoseData) : Prop :=
  forall k, k <> Root ->
    getPoseAngle np k = getPoseAngle prev k \/
    exists raw,
      getPoseAngle np k
      = getPoseAngle prev k + shortestAngleDiff (getPoseAngle prev k) raw.

(** The number of hierarchy levels below a joint. *)
Definition height (k : JointId) : nat :=
  match k with
  | Root => 4
  | Torso | Waist => 3
  | LShoulder | RShoulder | LHip | RHip => 2
  | LElbow | RElbow | LKnee | RKnee => 1
  | Head | LHand | RHand | LFoot | RFoot => 0
  end.

(** A lone particle flying into the bottom right corner. *)
Definition cornerBody : PhysicsBody :=
  {| particles := [ {| id := "root";
                       pos := {| x := 790; y := 790 |};
                       prevPos := {| x := 780; y := 780 |};
                       mass := 1 |} ];
     constraints := [];
     particleMap := fun k => match k with Root => Some 0%nat | _ => None end |}.

(** Two particles held ten units apart. *)
Definition pairBody : PhysicsBody :=
  {| particles := [ {| id := "root";
                       pos := {| x := 400; y := 400 |};
                       prevPos := {| x := 400; y := 400 |};
                       mass := 3 |};
                    {| id := "head";
                       pos := {| x := 400; y := 390 |};
                       prevPos := {| x := 400; y := 390 |};
                       mass := 1.5 |} ];
     constraints := [ {| particleAIndex := 0; particleBIndex := 1;
                         restLength := 10 |} ];
     particleMap := fun k => match k with
                             | Root => Some 0%nat
                             | Head => Some 1%nat
                             | _ => None
                             end |}.

(** The distance [computeSkeleton] puts between a joint and its parent joint:
    the length argument of the [getEndPoint] call that places it, unsigned. *)
Definition edgeLength (k : JointId) : R :=
  match k with
  | Root => 0
  | Torso => TORSO_HEIGHT
  | Waist => WAIST_HEIGHT
  | Head => HEAD_SIZE / 2.5
  | LShoulder | RShoulder => 48
  | LElbow | RElbow => L_ARM
  | LHand | RHand => L_FOREARM
  | LHip | RHip => 29
  | LKnee | RKnee => L_THIGH
  | LFoot | RFoot => L_SHIN
  end.

Definition translate (d : Point) (p : Point) : Point :=
  {| x := x p + x d; y := y p + y d |}.

(** The place of a key in the order in which [computeSkeleton] stores the
    joints, which is the order of [Object.entries(skeleton.joints)]. *)
Definition jointIndex (k : JointId) : nat :=
  match k with
  | Root => 0 | Torso => 1 | Waist => 2 | Head => 3
  | LShoulder => 4 | LElbow => 5 | LHand => 6
  | RShoulder => 7 | RElbow => 8 | RHand => 9
  | LHip => 10 | LKnee => 11 | LFoot => 12
  | RHip => 13 | RKnee => 14 | RFoot => 15
  end.

(** The edges of [hierarchy], parent first, in the order the two nested
    [forEach] of [createPhysicsBodyFromPose] visit them. *)
Definition hierarchyEdges : list (JointId * JointId) :=
  flat_map (fun p => map (fun c => (p, c)) (children (hierarchy p))) hierarchyKeys.

(** The particle and the constraint one expects for a joint and for an edge
    of the hierarchy. *)
Definition particleOf (P : PoseData) (k : JointId) : PhysicsParticle :=
  {| id := keyName k; pos := posOf P k; prevPos := posOf P k;
     mass := massOfKey (keyName k) |}.

Definition edgeConstraint (p c : JointId) : PhysicsConstraint :=
  {| particleAIndex := jointIndex p; particleBIndex := jointIndex c;
     restLength := edgeLength c |}.

(** The three masses, by joint. *)
Definition massTier (k : JointId) : R :=
  match k with
  | Root | Torso | LShoulder | RShoulder | LHip | RHip => 3
  | Waist | Head => 1.5
  | _ => 0.5
  end.

(** Every angle whose joint, or whose parent joint, has no particle is the
    one of [prev]. *)
Definition untouchedWhereMissing (body : PhysicsBody) (prev np : PoseData) : Prop :=
  forall k p, parent (hierarchy k) = Some p ->
    particleMap body k = None \/ particleMap body p = None ->
    getPoseAngle np k = getPoseAngle prev k.

(** [key in b] for an object [b]. *)
Definition hasField (fb : list (string * JsVal)) (k : string) : bool :=
  match lookupField k fb with Some _ => true | None => false end.

(** The point of the segment from [v] to [w] at parameter [s]. *)
Definition alongSegment (v w : Point) (s : R) : Point :=
  {| x := x v + s * (x w - x v); y := y v + s * (y w - y v) |}.

(** Same offset, and every angle the same up to whole turns. *)
Definition sameUpToTurns (P Q : PoseData) : Prop :=
  offset Q = offset P /\
  forall k, exists n : Z, getPoseAngle Q k = getPoseAngle P k + 2 * PI * IZR n.

(** The side a limb key belongs to. *)
Definition sideOfKey (k : JointId) : option Side :=
  match k with
  | LShoulder | LElbow | LHand | LHip | LKnee | LFoot => Some SLeft
  | RShoulder | RElbow | RHand | RHip | RKnee | RFoot => Some SRight
  | _ => None
  end.

(** A point turned about a centre by a quarter turn: by the base angle of the
    left shoulder for [SLeft], of the right shoulder for [SRight]. *)
Definition quarterTurned (side : Side) (centre p : Point) : Point :=
  match side with
  | SLeft => {| x := x centre + (y p - y centre); y := y centre - (x p - x centre) |}
  | SRight => {| x := x centre - (y p - y centre); y := y centre + (x p - x centre) |}
  end.

(** One foot pinned at a point, and nothing else. *)
Definition footPin (side : Side) (pin : Point) : Canvas.Pins :=
  fun k => if JointId_eqb k (footKeyOf side) then Some pin else None.

(** The place of a key when the hierarchy is walked from the root, each
    parent before its children, and the place of the last key below it. *)
Definition preIndex (k : JointId) : nat :=
  match k with
  | Root => 0 | Torso => 1 | Head => 2
  | LShoulder => 3 | LElbow => 4 | LHand => 5
  | RShoulder => 6 | RElbow => 7 | RHand => 8
  | Waist => 9
  | LHip => 10 | LKnee => 11 | LFoot => 12
  | RHip => 13 | RKnee => 14 | RFoot => 15
  end.

Definition lastIndex (k : JointId) : nat :=
  match k with
  | Root => 15 | Torso => 8 | Head => 2
  | LShoulder | LElbow | LHand => 5
  | RShoulder | RElbow | RHand => 8
  | Waist => 15
  | LHip | LKnee | LFoot => 12
  | RHip | RKnee | RFoot => 15
  end.

(** [j] is [k] or lies below [k] in the hierarchy. *)
Definition inSubtree (k j : JointId) : Prop :=
  (preIndex k <= preIndex j <= lastIndex k)%nat.

(** The number of edges between a key and the root. *)
Definition depth (k : JointId) : nat :=
  match k with
  | Root => 0
  | Torso | Waist => 1
  | Head | LShoulder | RShoulder | LHip | RHip => 2
  | LElbow | RElbow | LKnee | RKnee => 3
  | LHand | RHand | LFoot | RFoot => 4
  end.

(** The direction from the particle of [p] to the particle of [c]. *)
Definition particleBearing (pp : JointId -> Point) (p c : JointId) : R :=
  atan2 (y (pp c) - y (pp p)) (x (pp c) - x (pp p)).

(** The local angle of [j] in [P] is the previous one moved by what
    [shortestAngleDiff] returns for the angle read off the particles. *)
Definition tracksParticles (pp : JointId -> Point) (prev P : PoseData) (j : JointId)
  : Prop :=
  forall pj, parent (hierarchy j) = Some pj ->
    getPoseAngle P j
    = getPoseAngle prev j
      + shortestAngleDiff (getPoseAngle prev j)
          (particleBearing pp pj j - waOf P pj - baseAngle j).

(** The numbers of a pose, and the largest distance between a number of one
    pose and the same number of another. *)
Definition poseNumbers (P : PoseData) : list R :=
  [ x (offset P); y (offset P); torso P; waist P; head P;
    shoulder (left P); elbow (left P); hand (left P);
    hip (left P); knee (left P); foot (left P);
    shoulder (right P); elbow (right P); hand (right P);
    hip (right P); knee (right P); foot (right P) ].

Definition largestGap (l : list (R * R)) : R :=
  fold_right Rmax 0 (map (fun ab => Rabs (fst ab - snd ab)) l).

Definition poseGap (P Q : PoseData) : R :=
  largestGap (combine (poseNumbers P) (poseNumbers Q)).

(** What the user can do to the timeline and the switches, the handler each
    of these runs, and the states that can be reached from the first one.
    A frame can only be selected among those the timeline shows. *)
Inductive Action : Type :=
  | OnPoseCommit (newPose : PoseData)
  | OnReset
  | OnTogglePhysics
  | OnSelectFrame (index : nat)
  | OnAddFrame
  | OnDeleteFrame
  | OnTogglePlay.

Definition handle (a : Action) (s : App.AppState) : App.AppState :=
  match a with
  | OnPoseCommit newPose => App.handlePoseCommit newPose s
  | OnReset => App.handleReset s
  | OnTogglePhysics => App.handleTogglePhysics s
  | OnSelectFrame index => App.handleSelectFrame index s
  | OnAddFrame => App.handleAddFrame s
  | OnDeleteFrame => App.handleDeleteFrame s
  | OnTogglePlay => App.handleTogglePlay s
  end.

Definition offered (a : Action) (s : App.AppState) : Prop :=
  match a with
  | OnSelectFrame index =>
      (index < List.length (App.keyframes (App.timelineState s)))%nat
  | _ => True
  end.

Inductive reachable : App.AppState -> Prop :=
  | reachable_initial : reachable App.initialState
  | reachable_handle (a : Action) (s : App.AppState) :
      reachable s -> offered a s -> reachable (handle a s).

(** What every handler of the timeline keeps true. *)
Definition soundState (s : App.AppState) : Prop :=
  let t := App.timelineState s in
  (App.currentFrame t < List.length (App.keyframes t))%nat /\
  Forall (fun k => k <> None) (App.keyframes t) /\
  (App.isPlaying s = true -> App.isPhysicsEnabled s = false) /\
  (App.isPlaying s = true -> (1 < List.length (App.keyframes t))%nat).

(** The distance from a point to a bone, and whether the bone is near enough
    to be clicked there. *)
Definition boneDistance (pos : Point) (b : BoneSegment) : R :=
  Canvas.distToSegment pos (start b) (end_ b).

Definition withinReach (pos : Point) (b : BoneSegment) : Prop :=
  boneDistance pos b < width b / 2 + 16.

(** The bone at place [i] of the list is within reach, no bone within reach
    is nearer, and those before it are farther. *)
Definition firstNearest (pos : Point) (bs : list BoneSegment) (i : nat)
  (b : BoneSegment) : Prop :=
  nth_error bs i = Some b /\ withinReach pos b /\
  (forall b', In b' bs -> withinReach pos b' ->
     boneDistance pos b <= boneDistance pos b') /\
  (forall j b', (j < i)%nat -> nth_error bs j = Some b' -> withinReach pos b' ->
     boneDistance pos b < boneDistance pos b').

(** The point [p] moved by [len] times (cos, sin) of the angle [a]. *)
Definition polarStep (p : Point) (len a : R) : Point :=
  {| x := x p + len * cos a; y := y p + len * sin a |}.

(** A lone particle falling onto the floor, half way between the walls. *)
Definition floorBody : PhysicsBody :=
  {| particles := [ {| id := "root";
                       pos := {| x := 400; y := 790 |};
                       prevPos := {| x := 400; y := 780 |};
                       mass := 1 |} ];
     constraints := [];
     particleMap := fun k => match k with Root => Some 0%nat | _ => None end |}.

(** The names of the properties that every object inherits, for which
    [key in b] holds whatever the fields of [b]; and the values none of
    whose objects, at any depth, has a field of such a name. *)
Definition inheritedKey (k : string) : bool :=
  existsb (String.eqb k)
    [ "constructor"; "hasOwnProperty"; "isPrototypeOf"; "propertyIsEnumerable";
      "toLocaleString"; "toString"; "valueOf"; "__proto__";
      "__defineGetter__"; "__defineSetter__"; "__lookupGetter__";
      "__lookupSetter__" ]%string.

Fixpoint plainKeys (v : JsVal) : bool :=
  match v with
  | JObj fs =>
      (fix all (fs : list (string * JsVal)) : bool :=
         match fs with
         | [] => true
         | (k, v') :: rest => negb (inheritedKey k) && plainKeys v' && all rest
         end) fs
  | _ => true
  end.

(* ================================================================== *)
(** ** Tactics *)
(* ================================================================== *)

(** Succeeds on an operand that holds no further test. *)
Ltac plain_operand a :=
  lazymatch a with
  | context [Rgt_dec] => fail
  | context [Rlt_dec] => fail
  | _ => idtac
  end.

(** Case analysis on the four tests of [collide], innermost first. *)
Ltac case_collide :=
  unfold collide, collideLeft, collideRight, collideCeiling, collideFloor;
  repeat match goal with
    | |- context [Rgt_dec ?a ?b] =>
        plain_operand a; destruct (Rgt_dec a b); cbn [pos prevPos x y id mass]
    | |- context [Rlt_dec ?a ?b] =>
        plain_operand a; destruct (Rlt_dec a b); cbn [pos prevPos x y id mass]
    end.

(** Unfolds the skeleton of the default pose down to its coordinates. *)
Ltac eval_default_skeleton :=
  cbv [bearing posOf jointPos computeSkeleton computeSkeletonState fold_left
       armTier legTier storeJoint storeBone storeAngle worldAngles jointCache
       boneCache joints lookupJoint JointId_eqb app shoulderKeyOf elbowKeyOf
       handKeyOf hipKeyOf kneeKeyOf footKeyOf poseSide getEndPoint x y
       getDefaultPose offset torso waist head left right shoulder elbow hand
       hip knee foot baseAngle BASE_ANGLES
       W H TORSO_HEIGHT WAIST_HEIGHT HEAD_SIZE HEAD_SIZE_UNIT].

(** Closes [b = a + 2 * PI * IZR n] for a sum [n] of whole numbers of turns. *)
Ltac turns_close :=
  rewrite ?plus_IZR; ring.

(* ================================================================== *)
(** ** Real-number facts *)
(* ================================================================== *)

Lemma PI_gt_3 : 3 < PI.
Proof. pose proof PI2_3_2. lra. Qed.

Lemma hypot_axis_x (a : R) : hypot a 0 = Rabs a.
Proof.
  unfold hypot. replace (a * a + 0 * 0) with (Rsqr a) by (unfold Rsqr; ring).
  apply sqrt_Rsqr_abs.
Qed.

Lemma hypot_scale (a b s : R) : 0 <= s -> hypot (a * s) (b * s) = s * hypot a b.
Proof.
  intros Hs. unfold hypot.
  replace (a * s * (a * s) + b * s * (b * s)) with ((s * s) * (a * a + b * b)) by ring.
  rewrite sqrt_mult; [| nra | nra].
  rewrite sqrt_square by exact Hs. reflexivity.
Qed.

Lemma hypot_unit_scaled (m a : R) : hypot (m * cos a) (m * sin a) = Rabs m.
Proof.
  unfold hypot.
  replace (m * cos a * (m * cos a) + m * sin a * (m * sin a))
    with (Rsqr m * (Rsqr (sin a) + Rsqr (cos a))) by (unfold Rsqr; ring).
  rewrite sin2_cos2, Rmult_1_r. apply sqrt_Rsqr_abs.
Qed.

Lemma Rabs_sqr_diff (l1 l2 : R) :
  Rabs (l1 - l2) * Rabs (l1 - l2) = (l1 - l2) * (l1 - l2).
Proof. unfold Rabs. destruct (Rcase_abs (l1 - l2)); ring. Qed.

Lemma atan2_pos_x_axis (a : R) : 0 < a -> atan2 0 a = 0.
Proof.
  intros Ha. unfold atan2. destruct (Rlt_dec 0 a) as [_ | Hn]; [| contradiction].
  unfold Rdiv. rewrite Rmult_0_l. apply atan_0.
Qed.

Lemma atan2_neg_x_axis (a : R) : a < 0 -> atan2 0 a = PI.
Proof.
  intros Ha. unfold atan2.
  destruct (Rlt_dec 0 a) as [Hp | _]; [lra |].
  destruct (Rlt_dec a 0) as [_ | Hn]; [| contradiction].
  destruct (Rle_dec 0 0) as [_ | Hn]; [| lra].
  unfold Rdiv. rewrite Rmult_0_l, atan_0. ring.
Qed.

Lemma atan2_neg_y_axis (b : R) : b < 0 -> atan2 b 0 = - (PI / 2).
Proof.
  intros Hb. unfold atan2.
  destruct (Rlt_dec 0 0) as [H0 | _]; [lra |].
  destruct (Rlt_dec 0 b) as [Hp | _]; [lra |].
  destruct (Rlt_dec b 0) as [_ | Hn]; [reflexivity | contradiction].
Qed.

Lemma acos_m1 : acos (-1) = PI.
Proof.
  replace (-1) with (Ropp 1) by lra.
  rewrite acos_opp, acos_1. ring.
Qed.

Lemma cos_neg_PI2 : cos (- (PI / 2)) = 0.
Proof. rewrite cos_neg. apply cos_PI2. Qed.

Lemma sin_neg_PI2 : sin (- (PI / 2)) = -1.
Proof. rewrite sin_neg, sin_PI2. lra. Qed.

(* ================================================================== *)
(** ** Pose interpolation *)
(* ================================================================== *)

(** Walking two poses: the two fields under 'offset.' go through [lerp], the
    fifteen others through [lerpAngle]. *)
Lemma interpolatePoses_eval (A B : PoseData) (t : R) :
  interpolatePoses A B t =
  Some {| offset := {| x := lerp (x (offset A)) (x (offset B)) t;
                       y := lerp (y (offset A)) (y (offset B)) t |};
          torso := lerpAngle (torso A) (torso B) t;
          waist := lerpAngle (waist A) (waist B) t;
          head := lerpAngle (head A) (head B) t;
          left := mkSide (lerpAngle (shoulder (left A)) (shoulder (left B)) t)
                         (lerpAngle (elbow (left A)) (elbow (left B)) t)
                         (lerpAngle (hand (left A)) (hand (left B)) t)
                         (lerpAngle (hip (left A)) (hip (left B)) t)
                         (lerpAngle (knee (left A)) (knee (left B)) t)
                         (lerpAngle (foot (left A)) (foot (left B)) t);
          right := mkSide (lerpAngle (shoulder (right A)) (shoulder (right B)) t)
                          (lerpAngle (elbow (right A)) (elbow (right B)) t)
                          (lerpAngle (hand (right A)) (hand (right B)) t)
                          (lerpAngle (hip (right A)) (hip (right B)) t)
                          (lerpAngle (knee (right A)) (knee (right B)) t)
                          (lerpAngle (foot (right A)) (foot (right B)) t) |}.
Proof. reflexivity. Qed.

Lemma lerp_linear (a b t : R) : lerp a b t = a + (b - a) * t.
Proof. unfold lerp; ring. Qed.

(** The delta [lerpAngle] uses is [b - a] moved by one full turn at most; it
    is a shortest arc as long as [b - a] is within a turn and a half. *)
Lemma lerpAngle_short_arc (a b t : R) :
  - (3 * PI) <= b - a <= 3 * PI ->
  exists delta,
    - PI <= delta <= PI /\
    (delta = b - a \/ delta = b - a - 2 * PI \/ delta = b - a + 2 * PI) /\
    (- PI <= b - a <= PI -> delta = b - a) /\
    lerpAngle a b t = a + delta * t.
Proof.
  intros Hr. pose proof PI_RGT_0 as Hpi.
  unfold lerpAngle.
  destruct (Rgt_dec (b - a) PI) as [Hgt | Hgt].
  - exists (b - a - 2 * PI). repeat split; lra.
  - destruct (Rlt_dec (b - a) (- PI)) as [Hlt | Hlt].
    + exists (b - a + 2 * PI). repeat split; lra.
    + exists (b - a). repeat split; lra.
Qed.

Lemma lerpAngle_wrap_example : lerpAngle (-3) 3 0.5 = - PI.
Proof.
  pose proof PI_4 as H4. pose proof PI_gt_3 as H3.
  unfold lerpAngle.
  destruct (Rgt_dec (3 - -3) PI) as [Hgt | Hgt]; [lra | lra].
Qed.

Lemma getPoseAngle_interpolated (A B : PoseData) (t : R) (P : PoseData) (k : JointId) :
  interpolatePoses A B t = Some P ->
  k <> Root ->
  getPoseAngle P k = lerpAngle (getPoseAngle A k) (getPoseAngle B k) t.
Proof.
  rewrite interpolatePoses_eval. intros [= <-] Hk.
  destruct k; try reflexivity. contradiction.
Qed.

(** C4, as amended.  For every two poses A and B and every t,
    [interpolatePoses] returns a pose whose offset.x and offset.y are
    a + (b - a) * t, and whose every other field k, when b - a lies within
    a turn and a half (|b - a| <= 3 PI), is a + delta * t where delta is
    b - a itself, or b - a less one full turn, or b - a plus one full turn,
    and lies in the closed range [-PI, PI] (delta = b - a when that is already
    in the range).  An angle field going from -3 to 3 at t = 0.5 yields -PI,
    and offset.x going from 0 to 100 at t = 0.5 yields 50. *)
Theorem interpolatePoses_linear_and_angular (A B : PoseData) (t : R) :
  exists P,
    interpolatePoses A B t = Some P /\
    x (offset P) = x (offset A) + (x (offset B) - x (offset A)) * t /\
    y (offset P) = y (offset A) + (y (offset B) - y (offset A)) * t /\
    (forall k, k <> Root ->
       - (3 * PI) <= getPoseAngle B k - getPoseAngle A k <= 3 * PI ->
       exists delta,
         - PI <= delta <= PI /\
         (delta = getPoseAngle B k - getPoseAngle A k \/
          delta = getPoseAngle B k - getPoseAngle A k - 2 * PI \/
          delta = getPoseAngle B k - getPoseAngle A k + 2 * PI) /\
         (- PI <= getPoseAngle B k - getPoseAngle A k <= PI ->
          delta = getPoseAngle B k - getPoseAngle A k) /\
         getPoseAngle P k = getPoseAngle A k + delta * t) /\
    (forall k, k <> Root ->
       getPoseAngle A k = -3 -> getPoseAngle B k = 3 -> t = 0.5 ->
       getPoseAngle P k = - PI) /\
    (x (offset A) = 0 -> x (offset B) = 100 -> t = 0.5 -> x (offset P) = 50).
Proof.
  eexists. split; [apply interpolatePoses_eval |].
  split; [cbn [offset x]; apply lerp_linear |].
  split; [cbn [offset y]; apply lerp_linear |].
  split; [| split].
  - intros k Hk Hr.
    rewrite (getPoseAngle_interpolated A B t _ k (interpolatePoses_eval A B t) Hk).
    apply lerpAngle_short_arc. exact Hr.
  - intros k Hk Ha Hb Ht.
    rewrite (getPoseAngle_interpolated A B t _ k (interpolatePoses_eval A B t) Hk).
    rewrite Ha, Hb, Ht. apply lerpAngle_wrap_example.
  - intros Ha Hb Ht. cbn [offset x]. rewrite lerp_linear, Ha, Hb, Ht. lra.
Qed.

(** The amended C4 at the default pose and the default pose with its torso
    turned by one radian, half way. *)
Lemma interpolatePoses_linear_and_angular_witness :
  exists P,
    interpolatePoses getDefaultPose
      (setPoseAngle Torso 1 getDefaultPose) 0.5 = Some P /\
    getPoseAngle P Torso = 0.5.
Proof.
  destruct (interpolatePoses_linear_and_angular getDefaultPose
              (setPoseAngle Torso 1 getDefaultPose) 0.5)
    as (P & HP & _ & _ & Hang & _).
  exists P. split; [exact HP |].
  pose proof PI_gt_3 as Hpi.
  unfold getDefaultPose in *. cbn [getPoseAngle setPoseAngle torso] in *.
  destruct (Hang Torso ltac:(discriminate)) as (delta & _ & _ & Hmid & Heq).
  - cbn [getPoseAngle torso]. lra.
  - cbn [getPoseAngle torso] in *. rewrite Heq, Hmid; lra.
Defined.

(** C4 as stated fails: the delta is not always in (-PI, PI].  From torso PI
    to torso 0 the difference is exactly -PI and is kept, so the value half
    way is PI / 2, which no delta of the half-open range gives; from torso 0
    to torso 4 PI the difference less one turn is 2 PI, and the value half way
    is PI. *)
Lemma interpolatePoses_delta_not_half_open :
  (exists P,
     interpolatePoses (setPoseAngle Torso PI getDefaultPose) getDefaultPose 0.5
     = Some P /\
     ~ (exists delta, - PI < delta <= PI /\ torso P = PI + delta * 0.5)) /\
  (exists P,
     interpolatePoses getDefaultPose
       (setPoseAngle Torso (4 * PI) getDefaultPose) 0.5 = Some P /\
     ~ (exists delta, - PI < delta <= PI /\ torso P = 0 + delta * 0.5)).
Proof.
  pose proof PI_RGT_0 as Hpi. split.
  - eexists. split; [apply interpolatePoses_eval |].
    unfold getDefaultPose. cbn [torso setPoseAngle].
    intros (delta & Hr & Heq). unfold lerpAngle in Heq.
    destruct (Rgt_dec (0 - PI) PI) as [Hgt | _]; [lra |].
    destruct (Rlt_dec (0 - PI) (- PI)) as [Hlt | _]; lra.
  - eexists. split; [apply interpolatePoses_eval |].
    unfold getDefaultPose. cbn [torso setPoseAngle].
    intros (delta & Hr & Heq). unfold lerpAngle in Heq.
    destruct (Rgt_dec (4 * PI - 0) PI) as [_ | Hn]; lra.
Qed.

(* ================================================================== *)
(** ** Forward kinematics *)
(* ================================================================== *)

Lemma worldAngle_defined (pose : PoseData) (k : JointId) :
  worldAngle pose k = Some (waOf pose k).
Proof. destruct k; reflexivity. Qed.

Lemma jointPos_defined (pose : PoseData) (k : JointId) :
  jointPos pose k = Some (posOf pose k).
Proof. destruct k; reflexivity. Qed.

Lemma worldAngle_recurrence (pose : PoseData) (j p : JointId) :
  parent (hierarchy j) = Some p ->
  waOf pose j = waOf pose p + baseAngle j + getPoseAngle pose j.
Proof.
  destruct j; cbn [hierarchy parent]; intros [= <-];
    cbv [waOf worldAngle computeSkeletonState fold_left armTier legTier
         storeJoint storeBone storeAngle worldAngles jointCache boneCache
         lookupJoint JointId_eqb app shoulderKeyOf elbowKeyOf handKeyOf
         hipKeyOf kneeKeyOf footKeyOf poseSide getPoseAngle];
    try reflexivity; unfold baseAngle; cbn [BASE_ANGLES]; ring.
Qed.

(** The world angle of a joint is the angle of the bone stored under its key;
    the bones of torso and waist start at the root, the head bone at the torso
    joint, and every limb bone at the joint of its own key. *)
Lemma bone_carries_worldAngle (pose : PoseData) (j : JointId) :
  j <> Root ->
  exists b, findBone j (bones (computeSkeleton pose)) = Some b /\
            angle b = waOf pose j /\
            start b = (match j with
                       | Torso | Waist => posOf pose Root
                       | Head => posOf pose Torso
                       | _ => posOf pose j
                       end).
Proof.
  intros Hj. destruct j; try contradiction; eexists; (split; [reflexivity |]);
    split; reflexivity.
Qed.

Lemma getEndPoint_polarStep (s : Point) (a len : R) :
  getEndPoint s a len = polarStep s len a.
Proof. unfold getEndPoint, polarStep. f_equal; ring. Qed.

(** C3, as amended.  For every pose, [computeSkeleton] gives the root the
    world angle 0 and each other joint the world angle of its parent plus its
    base angle plus its local angle, which is the angle of the bone stored for
    it.  The root is at the stage centre plus the offset.  Torso, waist and
    head are at their parent's position plus a length (150, 75, HEAD_SIZE/2.5)
    times (cos, sin) of their own world angle.  A shoulder is at the torso
    joint moved by -48 (left) or 48 (right) times (cos, sin) of the torso
    world angle plus a quarter turn, a hip at the waist joint moved by -29 or
    29 times (cos, sin) of the waist world angle less a quarter turn.  An
    elbow, hand, knee or foot is at its parent joint's position plus the
    parent's limb length (L_ARM, L_FOREARM, L_THIGH, L_SHIN) times (cos, sin)
    of the parent's world angle.  Every position is written out in
    coordinates: [polarStep p len a] is (p.x + len cos a, p.y + len sin a). *)
Theorem computeSkeleton_angles_and_positions (pose : PoseData) :
  exists (wa : JointId -> R) (at_ : JointId -> Point),
    (forall j, worldAngle pose j = Some (wa j)) /\
    (forall j, jointPos pose j = Some (at_ j)) /\
    wa Root = 0 /\
    (forall j p, parent (hierarchy j) = Some p ->
       wa j = wa p + baseAngle j + getPoseAngle pose j) /\
    (forall j, j <> Root ->
       exists b, findBone j (bones (computeSkeleton pose)) = Some b /\
                 angle b = wa j) /\
    at_ Root = {| x := W / 2 + x (offset pose); y := H / 2 + y (offset pose) |} /\
    at_ Torso = polarStep (at_ Root) 150 (wa Torso) /\
    at_ Waist = polarStep (at_ Root) 75 (wa Waist) /\
    at_ Head = polarStep (at_ Torso) (HEAD_SIZE / 2.5) (wa Head) /\
    (forall side,
       at_ (shoulderKeyOf side)
       = polarStep (at_ Torso) (sideOffset side 48) (wa Torso + PI / 2) /\
       at_ (elbowKeyOf side)
       = polarStep (at_ (shoulderKeyOf side)) L_ARM (wa (shoulderKeyOf side)) /\
       at_ (handKeyOf side)
       = polarStep (at_ (elbowKeyOf side)) L_FOREARM (wa (elbowKeyOf side)) /\
       at_ (hipKeyOf side)
       = polarStep (at_ Waist) (sideOffset side 29) (wa Waist - PI / 2) /\
       at_ (kneeKeyOf side)
       = polarStep (at_ (hipKeyOf side)) L_THIGH (wa (hipKeyOf side)) /\
       at_ (footKeyOf side)
       = polarStep (at_ (kneeKeyOf side)) L_SHIN (wa (kneeKeyOf side))).
Proof.
  exists (waOf pose), (posOf pose).
  split; [apply worldAngle_defined |]. split; [apply jointPos_defined |].
  split; [reflexivity |]. split; [apply worldAngle_recurrence |].
  split.
  { intros j Hj. destruct (bone_carries_worldAngle pose j Hj) as (b & Hb & Ha & _).
    eauto. }
  split; [reflexivity |].
  repeat (split; [rewrite <- getEndPoint_polarStep; reflexivity |]).
  intros [|]; repeat split; rewrite <- getEndPoint_polarStep; reflexivity.
Qed.

(** The amended C3 at the default pose, for the left elbow: its world angle
    and where it is. *)
Lemma computeSkeleton_angles_and_positions_witness :
  exists (wa : JointId -> R) (at_ : JointId -> Point),
    worldAngle getDefaultPose LElbow = Some (wa LElbow) /\
    wa LElbow = wa LShoulder + baseAngle LElbow + getPoseAngle getDefaultPose LElbow /\
    jointPos getDefaultPose LElbow = Some (at_ LElbow) /\
    at_ LElbow = polarStep (at_ LShoulder) L_ARM (wa LShoulder).
Proof.
  destruct (computeSkeleton_angles_and_positions getDefaultPose)
    as (wa & at_ & Hwa & Hat & _ & Hrec & _ & _ & _ & _ & _ & Hside).
  exists wa, at_. split; [apply Hwa |]. split; [apply Hrec; reflexivity |].
  split; [apply Hat |]. exact (proj1 (proj2 (Hside SLeft))).
Defined.

(** C3 as stated fails: in the default pose the left shoulder joint is 48
    units to the side of the torso joint, while its world angle points
    straight up; no length puts it at the torso joint's position plus that
    length times (cos, sin) of its world angle. *)
Lemma computeSkeleton_shoulder_off_its_world_angle :
  exists pShoulder pTorso waShoulder,
    jointPos getDefaultPose LShoulder = Some pShoulder /\
    jointPos getDefaultPose Torso = Some pTorso /\
    worldAngle getDefaultPose LShoulder = Some waShoulder /\
    forall len : R,
      pShoulder <> {| x := x pTorso + len * cos waShoulder;
                      y := y pTorso + len * sin waShoulder |}.
Proof.
  do 3 eexists. split; [reflexivity |]. split; [reflexivity |].
  split; [reflexivity |].
  intros len Heq. apply (f_equal x) in Heq.
  unfold getDefaultPose, getEndPoint, baseAngle in Heq.
  cbn [x y BASE_ANGLES shoulderKeyOf poseSide left shoulder torso offset] in Heq.
  replace (- PI / 2 + 0 + PI / 2) with 0 in Heq by lra.
  replace (- PI / 2 + 0 + - PI / 2 + PI / 2) with (- (PI / 2)) in Heq by lra.
  rewrite cos_0, cos_neg, cos_PI2 in Heq. lra.
Qed.

(* ================================================================== *)
(** ** Two-bone inverse kinematics *)
(* ================================================================== *)

(** C5.  [solveIK] returns none exactly when the distance from root to target
    is below 0.1; for every other input it returns an angle pair.  (Being a
    function of its four arguments, it is deterministic and has no effect.) *)
Theorem solveIK_none_iff_coincident (rootPos targetPos : Point) (l1 l2 : R) :
  let dist := hypot (x targetPos - x rootPos) (y targetPos - y rootPos) in
  (solveIK rootPos targetPos l1 l2 = None <-> dist < 0.1) /\
  (~ dist < 0.1 ->
   exists a1 a2,
     solveIK rootPos targetPos l1 l2 = Some {| angle1 := a1; angle2 := a2 |}).
Proof.
  intros dist. unfold solveIK. fold dist.
  destruct (Rlt_dec dist 0.1) as [Hlt | Hge].
  - split; [split; auto | intros Hn; contradiction].
  - destruct (Rgt_dec dist (l1 + l2)) as [Hfar | Hnear].
    + split; [split; [discriminate | intros; contradiction] |].
      intros _. eauto.
    + destruct (Rlt_dec dist (Rabs (l1 - l2))) as [Hclose | Hok].
      * split; [split; [discriminate | intros; contradiction] |].
        intros _. eauto.
      * split; [split; [discriminate | intros; contradiction] |].
        intros _. eauto.
Qed.

(** C5 at a target on the root. *)
Lemma solveIK_none_iff_coincident_witness :
  solveIK {| x := 400; y := 400 |} {| x := 400; y := 400 |} 105 105 = None.
Proof.
  apply (proj1 (solveIK_none_iff_coincident
                  {| x := 400; y := 400 |} {| x := 400; y := 400 |} 105 105)).
  cbn [x y]. replace (400 - 400) with 0 by ring.
  rewrite hypot_axis_x, Rabs_R0. lra.
Defined.

(** C6 as stated fails: with two segments of 0.01 and a target 0.05 away, the
    distance exceeds l1 + l2 and the result is none, not an extended limb:
    the test against 0.1 comes first. *)
Lemma solveIK_far_but_coincident :
  let rootPos := {| x := 0; y := 0 |} in
  let targetPos := {| x := 0.05; y := 0 |} in
  hypot (x targetPos - x rootPos) (y targetPos - y rootPos) > 0.01 + 0.01 /\
  solveIK rootPos targetPos 0.01 0.01 = None.
Proof.
  cbn zeta. unfold solveIK. cbn [x y].
  replace (0 - 0) with 0 by ring. replace (0.05 - 0) with 0.05 by ring.
  rewrite hypot_axis_x, Rabs_right by lra. split; [lra |].
  destruct (Rlt_dec 0.05 0.1) as [_ | Hn]; [reflexivity | lra].
Qed.

(** C6, as amended.  For every input to [solveIK] whose root-to-target
    distance is at least 0.1 and greater than l1 + l2, the result is angle1 =
    atan2 of the target relative to the root and angle2 = 0; and for l1 = l2 =
    100 and a target 200 units along +x from any root, the result is (0, 0). *)
Theorem solveIK_out_of_reach_extends (rootPos targetPos : Point) (l1 l2 : R) :
  let dx := x targetPos - x rootPos in
  let dy := y targetPos - y rootPos in
  (0.1 <= hypot dx dy -> hypot dx dy > l1 + l2 ->
   solveIK rootPos targetPos l1 l2
   = Some {| angle1 := atan2 dy dx; angle2 := 0 |}) /\
  solveIK rootPos {| x := x rootPos + 200; y := y rootPos |} 100 100
  = Some {| angle1 := 0; angle2 := 0 |}.
Proof.
  intros dx dy. split.
  - intros Hmin Hfar. unfold solveIK. fold dx dy.
    destruct (Rlt_dec (hypot dx dy) 0.1) as [Hlt | _]; [lra |].
    destruct (Rgt_dec (hypot dx dy) (l1 + l2)) as [_ | Hn];
      [reflexivity | contradiction].
  - unfold solveIK. cbn [x y].
    replace (x rootPos + 200 - x rootPos) with 200 by ring.
    replace (y rootPos - y rootPos) with 0 by ring.
    rewrite hypot_axis_x, (Rabs_right 200) by lra.
    destruct (Rlt_dec 200 0.1) as [Hlt | _]; [lra |].
    destruct (Rgt_dec 200 (100 + 100)) as [Hgt | _]; [lra |].
    replace (100 - 100) with 0 by ring. rewrite Rabs_R0.
    destruct (Rlt_dec 200 0) as [Hlt | _]; [lra |].
    replace ((100 * 100 + 100 * 100 - 200 * 200) / (2 * 100 * 100)) with (-1) by lra.
    replace ((200 * 200 + 100 * 100 - 100 * 100) / (2 * 200 * 100)) with 1 by lra.
    rewrite (Rmin_right 1 (-1)) by lra. rewrite (Rmax_left (-1) (-1)) by lra.
    rewrite (Rmin_left 1 1) by lra. rewrite (Rmax_right (-1) 1) by lra.
    rewrite acos_m1, acos_1, atan2_pos_x_axis by lra.
    f_equal. f_equal; ring.
Qed.

(** The amended C6 for two segments of 100 and a target 300 away. *)
Lemma solveIK_out_of_reach_extends_witness :
  solveIK {| x := 0; y := 0 |} {| x := 300; y := 0 |} 100 100
  = Some {| angle1 := atan2 (0 - 0) (300 - 0); angle2 := 0 |}.
Proof.
  apply (proj1 (solveIK_out_of_reach_extends
                  {| x := 0; y := 0 |} {| x := 300; y := 0 |} 100 100));
    cbn [x y]; replace (0 - 0) with 0 by ring;
    rewrite hypot_axis_x, Rabs_right by lra; lra.
Defined.

Lemma rescaledTarget_dist (rootPos targetPos : Point) (l1 l2 : R) :
  let dx := x targetPos - x rootPos in
  let dy := y targetPos - y rootPos in
  0 < hypot dx dy ->
  hypot (x (rescaledTarget rootPos targetPos l1 l2) - x rootPos)
        (y (rescaledTarget rootPos targetPos l1 l2) - y rootPos)
  = Rabs (l1 - l2).
Proof.
  intros dx dy Hpos. unfold rescaledTarget. fold dx dy. cbn [x y].
  replace (x rootPos + dx * (Rabs (l1 - l2) / hypot dx dy) - x rootPos)
    with (dx * (Rabs (l1 - l2) / hypot dx dy)) by ring.
  replace (y rootPos + dy * (Rabs (l1 - l2) / hypot dx dy) - y rootPos)
    with (dy * (Rabs (l1 - l2) / hypot dx dy)) by ring.
  rewrite hypot_scale.
  - field. lra.
  - apply Rmult_le_pos; [apply Rabs_pos | left; apply Rinv_0_lt_compat; exact Hpos].
Qed.

(* ================================================================== *)
(** ** The simulation step *)
(* ================================================================== *)

(** What one constraint does to a pair whose first particle has no mass and
    whose second has some: both shares are 1, and both particles move by the
    whole correction. *)
Lemma solveConstraint_massless_first (pA pB : PhysicsParticle) (len : R) :
  let dx := x (pos pB) - x (pos pA) in
  let dy := y (pos pB) - y (pos pA) in
  let dist := hypot dx dy in
  let cx := dx * ((dist - len) / dist) * STIFFNESS in
  let cy := dy * ((dist - len) / dist) * STIFFNESS in
  mass pA = 0 -> 0 < mass pB -> 0.001 <= dist ->
  solveConstraint [pA; pB] (mkConstraint 0 1 len)
  = Some [movePos (cx * 1) (cy * 1) pA; movePos (- (cx * 1)) (- (cy * 1)) pB].
Proof.
  intros dx dy dist cx cy HA HB Hd.
  unfold solveConstraint.
  cbn [nth_error particleAIndex particleBIndex restLength bindO x y].
  fold dx dy. fold dist.
  destruct (Rlt_dec dist 0.001) as [Hlt | _]; [lra |].
  destruct (Req_dec_T (mass pA + mass pB) 0) as [Hz | _]; [lra |].
  destruct (Rgt_dec (mass pA) 0) as [Hgt | _]; [lra |].
  destruct (Rgt_dec (mass pB) 0) as [_ | Hn]; [| lra].
  replace (mass pB / (mass pA + mass pB)) with 1 by (rewrite HA; field; lra).
  reflexivity.
Qed.

(** C2, the code at a failing input.  A particle of mass 0 at (100, 100) and a
    particle of mass 1 at (110, 100), held by a constraint of rest length 5:
    the pair has positive total mass and separation 10, and one pass of the
    constraint moves the massless particle to x = 103.75 (and the other to
    x = 106.25), where C2 says that it does not move. *)
Theorem solveConstraint_moves_massless_particle :
  let pA := {| id := "a"; pos := {| x := 100; y := 100 |};
               prevPos := {| x := 100; y := 100 |}; mass := 0 |} in
  let pB := {| id := "b"; pos := {| x := 110; y := 100 |};
               prevPos := {| x := 110; y := 100 |}; mass := 1 |} in
  exists pA' pB',
    solveConstraint [pA; pB] (mkConstraint 0 1 5) = Some [pA'; pB'] /\
    mass pA' = 0 /\
    x (pos pA') = 103.75 /\ y (pos pA') = 100 /\
    x (pos pB') = 106.25 /\ y (pos pB') = 100.
Proof.
  intros pA pB.
  assert (Hd : hypot (x (pos pB) - x (pos pA)) (y (pos pB) - y (pos pA)) = 10).
  { cbn [pA pB x y pos]. replace (110 - 100) with 10 by ring.
    replace (100 - 100) with 0 by ring. rewrite hypot_axis_x.
    apply Rabs_right. lra. }
  do 2 eexists. split.
  - apply solveConstraint_massless_first.
    + reflexivity.
    + cbn [pB mass]. lra.
    + rewrite Hd. lra.
  - rewrite Hd. cbn [movePos pA pB x y pos mass]. unfold STIFFNESS.
    repeat split; lra.
Qed.

Lemma bounds_values :
  top bounds = 5 /\ bottom bounds = 795 /\ left_ bounds = 5 /\ right_ bounds = 795.
Proof. unfold bounds, PARTICLE_RADIUS, H, W; cbn [top bottom left_ right_]. lra. Qed.

Lemma collide_floor (p : PhysicsParticle) :
  y (pos p) > bottom bounds ->
  collide p = collideLeft (collideRight (landed p)) /\
  y (pos (collide p)) = bottom bounds /\
  y (prevPos (collide p)) = y (pos (collide p)) /\
  (left_ bounds <= x (pos p) <= right_ bounds ->
   x (pos (collide p)) = x (pos p) /\
   x (prevPos (collide p))
   = x (prevPos p) - (y (pos p) - y (prevPos p)) * impactFalloutFactor).
Proof.
  intros Hcross. destruct bounds_values as (Htop & Hbot & Hleft & Hright).
  split; [| split; [| split]]; [ | | | intros Hin ];
    unfold landed; case_collide; try reflexivity; try lra;
    split; try reflexivity; lra.
Qed.

Lemma collide_ceiling (p : PhysicsParticle) :
  y (pos p) < top bounds ->
  y (pos (collide p)) = top bounds /\
  y (prevPos (collide p)) = y (pos (collide p)) /\
  (left_ bounds <= x (pos p) <= right_ bounds ->
   x (pos (collide p)) = x (pos p) /\ x (prevPos (collide p)) = x (prevPos p)).
Proof.
  intros Hcross. destruct bounds_values as (Htop & Hbot & Hleft & Hright).
  split; [| split]; [ | | intros Hin ];
    case_collide; try reflexivity; try lra; split; try reflexivity; lra.
Qed.

Lemma collide_right (p : PhysicsParticle) :
  x (pos p) > right_ bounds ->
  x (pos (collide p)) = right_ bounds /\
  x (prevPos (collide p)) = x (pos (collide p)) /\
  (top bounds <= y (pos p) <= bottom bounds ->
   y (pos (collide p)) = y (pos p) /\ y (prevPos (collide p)) = y (prevPos p)).
Proof.
  intros Hcross. destruct bounds_values as (Htop & Hbot & Hleft & Hright).
  split; [| split]; [ | | intros Hin ];
    case_collide; try reflexivity; try lra; split; try reflexivity; lra.
Qed.

Lemma collide_left (p : PhysicsParticle) :
  x (pos p) < left_ bounds ->
  x (pos (collide p)) = left_ bounds /\
  x (prevPos (collide p)) = x (pos (collide p)) /\
  (top bounds <= y (pos p) <= bottom bounds ->
   y (pos (collide p)) = y (pos p) /\ y (prevPos (collide p)) = y (prevPos p)).
Proof.
  intros Hcross. destruct bounds_values as (Htop & Hbot & Hleft & Hright).
  split; [| split]; [ | | intros Hin ];
    case_collide; try reflexivity; try lra; split; try reflexivity; lra.
Qed.

Lemma updatePhysicsBody_phases (body body' : PhysicsBody) (dt : R) :
  updatePhysicsBody body dt = Some body' ->
  exists ps, beforeCollision body dt = Some ps /\ particles body' = map collide ps.
Proof.
  unfold updatePhysicsBody.
  destruct (beforeCollision body dt) as [ps |]; cbn [bindO]; [| discriminate].
  intros [= <-]. exists ps. split; reflexivity.
Qed.

(** What integration makes of a particle that has a mass. *)
Lemma integrate_moving (dtSq : R) (p : PhysicsParticle) :
  mass p <> 0 ->
  integrate dtSq p
  = {| id := id p;
       pos := {| x := x (pos p) + ((x (pos p) - x (prevPos p)) * 0.96 + 0 * dtSq);
                 y := y (pos p) + ((y (pos p) - y (prevPos p)) * 0.96 + 2500 * dtSq) |};
       prevPos := pos p;
       mass := mass p |}.
Proof.
  intros Hm. unfold integrate.
  destruct (Req_dec_T (mass p) 0) as [Hz | _]; [contradiction | reflexivity].
Qed.

(** C8 as stated fails: the lone particle of [cornerBody] reaches the
    boundary pass beyond the floor, with vertical velocity 9.6, and beyond
    the right wall.  It ends on the floor with prevPos.y = pos.y, but with
    prevPos.x = pos.x = 795 as well: the wall test, which comes after the
    floor test, has overwritten the 0.15 * 9.6 that the floor test took off
    prevPos.x, and both components of the velocity are zeroed. *)
Lemma updatePhysicsBody_corner_loses_the_slide :
  exists body' p q,
    beforeCollision cornerBody 0 = Some [p] /\
    updatePhysicsBody cornerBody 0 = Some body' /\
    particles body' = [q] /\
    y (pos p) > 800 - 5 /\ y (pos p) - y (prevPos p) = 9.6 /\
    x (pos p) > 800 - 5 /\
    x (pos q) = 795 /\ x (prevPos q) = 795 /\
    y (pos q) = 795 /\ y (prevPos q) = 795.
Proof.
  do 3 eexists. split; [reflexivity |]. split; [reflexivity |].
  split; [reflexivity |].
  rewrite integrate_moving by (cbn [mass]; lra).
  cbn [pos prevPos x y mass id].
  destruct bounds_values as (Htop & Hbot & Hleft & Hright).
  split; [lra |]. split; [lra |]. split; [lra |].
  case_collide; cbn [pos prevPos x y] in *; repeat split; lra.
Qed.

(** C8, as amended.  In every step, the particles of the body afterwards are
    those that integration and the constraint passes produced, each put
    through the boundary pass, and for each such particle p with q what the
    pass makes of it: if p is beyond the floor, q is the particle set on the
    floor with prevPos.y = pos.y and prevPos.x moved back by 0.15 times the
    vertical velocity p had, then put through the two wall tests, so q.pos.y
    is the floor bound, q.prevPos.y = q.pos.y, and when p is between the walls
    q.pos.x is unchanged and q.prevPos.x = p.prevPos.x - 0.15 vy; if p is
    beyond the ceiling or a side wall, q is on that bound with prevPos equal
    to pos on that axis, and the other axis is unchanged when p is within the
    bounds of that axis.  A particle beyond two bounds gets both rules. *)
Theorem updatePhysicsBody_boundary_rules (body body' : PhysicsBody) (dt : R) :
  updatePhysicsBody body dt = Some body' ->
  exists ps,
    beforeCollision body dt = Some ps /\
    particles body' = map collide ps /\
    forall p, In p ps ->
      let q := collide p in
      let vy := y (pos p) - y (prevPos p) in
      (y (pos p) > bottom bounds ->
         q = collideLeft (collideRight (landed p)) /\
         y (pos q) = bottom bounds /\ y (prevPos q) = y (pos q) /\
         (left_ bounds <= x (pos p) <= right_ bounds ->
            x (pos q) = x (pos p) /\
            x (prevPos q) = x (prevPos p) - vy * 0.15)) /\
      (y (pos p) < top bounds ->
         y (pos q) = top bounds /\ y (prevPos q) = y (pos q) /\
         (left_ bounds <= x (pos p) <= right_ bounds ->
            x (pos q) = x (pos p) /\ x (prevPos q) = x (prevPos p))) /\
      (x (pos p) > right_ bounds ->
         x (pos q) = right_ bounds /\ x (prevPos q) = x (pos q) /\
         (top bounds <= y (pos p) <= bottom bounds ->
            y (pos q) = y (pos p) /\ y (prevPos q) = y (prevPos p))) /\
      (x (pos p) < left_ bounds ->
         x (pos q) = left_ bounds /\ x (prevPos q) = x (pos q) /\
         (top bounds <= y (pos p) <= bottom bounds ->
            y (pos q) = y (pos p) /\ y (prevPos q) = y (prevPos p))).
Proof.
  intros Hup. destruct (updatePhysicsBody_phases _ _ _ Hup) as (ps & Hps & Hmap).
  exists ps. split; [exact Hps |]. split; [exact Hmap |].
  intros p _ q vy. subst q vy.
  split; [apply collide_floor |]. split; [apply collide_ceiling |].
  split; [apply collide_right | apply collide_left].
Qed.

(** The amended C8 for the lone particle of [floorBody] and a step of no
    duration: it reaches the boundary pass at (400, 799.6) coming from
    (400, 790), and ends at (400, 795) with prevPos (400 - 0.15 * 9.6, 795). *)
Lemma updatePhysicsBody_boundary_rules_witness :
  exists body' q,
    updatePhysicsBody floorBody 0 = Some body' /\
    particles body' = [q] /\
    x (pos q) = 400 /\ y (pos q) = 795 /\
    x (prevPos q) = 400 - 9.6 * 0.15 /\ y (prevPos q) = 795.
Proof.
  destruct (updatePhysicsBody_boundary_rules floorBody _ 0 eq_refl)
    as (ps & Hps & Hmap & Hrules).
  injection Hps as <-.
  eexists. eexists. split; [reflexivity |]. split; [reflexivity |].
  destruct bounds_values as (Htop & Hbot & Hleft & Hright).
  match type of Hrules with
  | forall p, In p [?p0] -> _ =>
      assert (Hp0 : p0 = {| id := "root"%string;
                            pos := {| x := 400 + ((400 - 400) * 0.96 + 0 * (0 * 0));
                                      y := 790 + ((790 - 780) * 0.96 + 2500 * (0 * 0)) |};
                            prevPos := {| x := 400; y := 790 |};
                            mass := 1 |})
        by (apply integrate_moving; cbn [mass]; lra);
      destruct (Hrules p0 (or_introl eq_refl)) as ((_ & Hy & Hpy & Hx) & _)
  end.
  - rewrite Hp0. cbn [pos y]. lra.
  - rewrite Hp0 in Hx, Hy, Hpy |- *. cbn [pos prevPos x y] in Hx.
    destruct Hx as [Hx Hpx]; [lra |].
    rewrite Hx, Hpx, Hpy, Hy, Hbot. repeat split; lra.
Defined.

Lemma collide_inside (p : PhysicsParticle) : insideStage (collide p).
Proof.
  unfold insideStage. destruct bounds_values as (Htop & Hbot & Hleft & Hright).
  unfold PARTICLE_RADIUS, W, H.
  case_collide; lra.
Qed.

Lemma modifyAt_length (i : nat) (f : PhysicsParticle -> PhysicsParticle)
  (ps : list PhysicsParticle) :
  List.length (modifyAt i f ps) = List.length ps.
Proof.
  revert i. induction ps as [| p rest IH]; intros [| i]; cbn; auto.
Qed.

Lemma nth_error_in_range {A : Type} (l : list A) (i : nat) :
  (i < List.length l)%nat -> exists a, nth_error l i = Some a.
Proof.
  intros Hi. destruct (nth_error l i) as [a |] eqn:E; [eauto |].
  apply nth_error_None in E. lia.
Qed.

Lemma solveConstraint_defined (ps : list PhysicsParticle) (c : PhysicsConstraint) :
  (particleAIndex c < List.length ps)%nat ->
  (particleBIndex c < List.length ps)%nat ->
  exists ps', solveConstraint ps c = Some ps' /\ List.length ps' = List.length ps.
Proof.
  intros HA HB. unfold solveConstraint.
  destruct (nth_error_in_range ps _ HA) as (pA & ->).
  destruct (nth_error_in_range ps _ HB) as (pB & ->).
  cbn [bindO].
  destruct (Rlt_dec _ _); [eauto |].
  destruct (Req_dec_T _ _); [eauto |].
  eexists. split; [reflexivity |]. now rewrite !modifyAt_length.
Qed.

Lemma solveConstraints_defined (cs : list PhysicsConstraint) (n : nat) :
  (forall c, In c cs -> (particleAIndex c < n)%nat /\ (particleBIndex c < n)%nat) ->
  forall ps, List.length ps = n ->
  exists ps', solveConstraints cs ps = Some ps' /\ List.length ps' = n.
Proof.
  induction cs as [| c rest IH]; intros Hwf ps Hlen.
  - exists ps. split; [reflexivity | exact Hlen].
  - destruct (Hwf c (or_introl eq_refl)) as [HA HB].
    destruct (solveConstraint_defined ps c) as (ps1 & H1 & Hl1); try lia.
    cbn [solveConstraints]. rewrite H1. cbn [bindO].
    apply IH; [| lia]. intros c' Hc'. apply Hwf. now right.
Qed.

Lemma solverLoop_defined (k : nat) (cs : list PhysicsConstraint) (n : nat) :
  (forall c, In c cs -> (particleAIndex c < n)%nat /\ (particleBIndex c < n)%nat) ->
  forall ps, List.length ps = n ->
  exists ps', solverLoop k cs ps = Some ps' /\ List.length ps' = n.
Proof.
  intros Hwf. induction k as [| k IH]; intros ps Hlen.
  - exists ps. split; [reflexivity | exact Hlen].
  - destruct (solveConstraints_defined cs n Hwf ps Hlen) as (ps1 & H1 & Hl1).
    cbn [solverLoop]. rewrite H1. cbn [bindO]. apply IH. exact Hl1.
Qed.

Lemma updatePhysicsBody_defined (body : PhysicsBody) (dt : R) :
  wellFormedBody body -> exists body', updatePhysicsBody body dt = Some body'.
Proof.
  intros Hwf. unfold updatePhysicsBody, beforeCollision.
  destruct (solverLoop_defined SOLVER_ITERATIONS (constraints body)
              (List.length (particles body)) Hwf
              (map (integrate (dt * dt)) (particles body)))
    as (ps & Hps & _); [apply length_map |].
  rewrite Hps. cbn [bindO]. eauto.
Qed.

(* ================================================================== *)
(** ** From a pose to a body and back *)
(* ================================================================== *)

Lemma getParticlePos_defined (body : PhysicsBody) (k : JointId) :
  wellFormedMap body -> exists o, getParticlePos body k = Some o.
Proof.
  intros Hwf. unfold getParticlePos.
  destruct (particleMap body k) as [i |] eqn:Ek; [| eauto].
  destruct (nth_error (particles body) i) as [p |] eqn:En; [eauto |].
  apply nth_error_None in En. specialize (Hwf k i Ek). lia.
Qed.

(** The fuel is never what stops [calculateAngles]: one unit per level of the
    hierarchy below the key is enough. *)
Lemma calculateAngles_defined (body : PhysicsBody) (prev : PoseData) :
  wellFormedMap body ->
  forall fuel k a np, (height k < fuel)%nat ->
    exists P, calculateAngles fuel body prev k a np = Some P.
Proof.
  intros Hwf. induction fuel as [| fuel IH]; intros k a np Hh; [lia |].
  destruct k; cbn [calculateAngles hierarchy children];
    repeat match goal with
      | |- context [getParticlePos body ?j] =>
          let o := fresh "o" in
          destruct (getParticlePos_defined body j Hwf) as (o & ->);
          cbn [bindO]; destruct o
      | |- context [calculateAngles fuel body prev ?c ?b ?q] =>
          let P := fresh "P" in
          destruct (IH c b q ltac:(cbn [height] in *; lia)) as (P & ->);
          cbn [bindO]
      end; eauto.
Qed.

(** On a body whose map points into its particles the extraction returns. *)
Lemma extractPoseFromPhysicsBody_defined (body : PhysicsBody) (prev : PoseData) :
  wellFormedMap body -> exists P, extractPoseFromPhysicsBody body prev = Some P.
Proof.
  intros Hwf. unfold extractPoseFromPhysicsBody.
  destruct (getParticlePos_defined body Root Hwf) as (r & ->).
  destruct (getParticlePos_defined body Torso Hwf) as (t & ->).
  destruct (getParticlePos_defined body Waist Hwf) as (w & ->).
  cbn [bindO]. destruct r, t, w; eauto.
  match goal with
  | |- context [calculateAngles 16 body prev Torso ?a ?np] =>
      destruct (calculateAngles_defined body prev Hwf 16 Torso a np
                  ltac:(cbn [height]; lia)) as (P1 & ->)
  end.
  cbn [bindO]. apply calculateAngles_defined; [exact Hwf | cbn [height]; lia].
Qed.

(** The body built from a pose has sixteen particles, one under each key. *)
Lemma createPhysicsBodyFromPose_map (P : PoseData) :
  wellFormedMap (createPhysicsBodyFromPose P) /\
  List.length (particles (createPhysicsBodyFromPose P)) = 16%nat /\
  forall k, exists i, particleMap (createPhysicsBodyFromPose P) k = Some i.
Proof.
  split; [| split].
  - intros k i. destruct k; intros [= <-]; cbn; lia.
  - reflexivity.
  - intros k. destruct k; eexists; reflexivity.
Qed.

Lemma getPoseAngle_set_same (k : JointId) (v : R) (p : PoseData) :
  k <> Root -> getPoseAngle (setPoseAngle k v p) k = v.
Proof. destruct k; intros Hk; try reflexivity. contradiction. Qed.

Lemma getPoseAngle_set_other (k j : JointId) (v : R) (p : PoseData) :
  j <> k -> getPoseAngle (setPoseAngle k v p) j = getPoseAngle p j.
Proof. destruct k, j; intros Hk; try reflexivity; contradiction. Qed.

Lemma JointId_eq_dec (a b : JointId) : {a = b} + {a <> b}.
Proof. decide equality. Defined.

Lemma reconciled_set (prev np : PoseData) (k : JointId) (raw : R) :
  reconciled prev np ->
  reconciled prev
    (setPoseAngle k (getPoseAngle prev k
                     + shortestAngleDiff (getPoseAngle prev k) raw) np).
Proof.
  intros Hinv j Hj. destruct (JointId_eq_dec j k) as [-> | Hne].
  - right. exists raw. apply getPoseAngle_set_same. exact Hj.
  - rewrite getPoseAngle_set_other by exact Hne. apply Hinv. exact Hj.
Qed.

Lemma calculateAngles_reconciled (body : PhysicsBody) (prev : PoseData) :
  forall fuel k a np P,
    reconciled prev np ->
    calculateAngles fuel body prev k a np = Some P ->
    reconciled prev P.
Proof.
  induction fuel as [| fuel IH]; intros k a np P Hinv Hcalc; [discriminate |].
  cbn [calculateAngles] in Hcalc.
  revert np P Hinv Hcalc.
  generalize (children (hierarchy k)) as cs.
  induction cs as [| c rest IHcs]; intros np P Hinv Hcalc.
  - injection Hcalc as <-. exact Hinv.
  - cbn [bindO] in Hcalc.
    destruct (getParticlePos body k) as [[pp |] |] eqn:Ek;
      cbn [bindO] in Hcalc; try discriminate.
    + destruct (getParticlePos body c) as [[cp |] |] eqn:Ec;
        cbn [bindO] in Hcalc; try discriminate.
      * match type of Hcalc with
        | context [calculateAngles fuel body prev c ?b ?q] =>
            destruct (calculateAngles fuel body prev c b q) as [np1 |] eqn:E1
        end; cbn [bindO] in Hcalc; [| discriminate].
        apply (IHcs np1 P); [| exact Hcalc].
        apply (IH _ _ _ _ (reconciled_set prev np c _ Hinv) E1).
      * apply (IHcs np P Hinv Hcalc).
    + destruct (getParticlePos body c) as [[cp |] |] eqn:Ec;
        cbn [bindO] in Hcalc; try discriminate;
        apply (IHcs np P Hinv Hcalc).
Qed.

Lemma reconciled_setOffset (prev np : PoseData) (o : Point) :
  reconciled prev np -> reconciled prev (setOffset o np).
Proof. intros Hinv k Hk. destruct k; try contradiction; apply (Hinv _ Hk). Qed.

Lemma reconciled_refl (prev : PoseData) : reconciled prev prev.
Proof. intros k _. left. reflexivity. Qed.

(** Whatever the body, every angle of the extracted pose is the previous one,
    kept or moved by a value of [shortestAngleDiff]. *)
Lemma extractPoseFromPhysicsBody_reconciles (body : PhysicsBody) (prev P : PoseData) :
  extractPoseFromPhysicsBody body prev = Some P -> reconciled prev P.
Proof.
  unfold extractPoseFromPhysicsBody.
  destruct (getParticlePos body Root) as [r |]; cbn [bindO]; [| discriminate].
  destruct (getParticlePos body Torso) as [t |]; cbn [bindO]; [| discriminate].
  destruct (getParticlePos body Waist) as [w |]; cbn [bindO]; [| discriminate].
  destruct r as [r |], t as [t |], w as [w |];
    try (intros [= <-]; apply reconciled_refl).
  match goal with
  | |- bindO (calculateAngles 16 body prev Torso ?a ?np) _ = _ -> _ =>
      destruct (calculateAngles 16 body prev Torso a np) as [np1 |] eqn:E1;
      cbn [bindO]; [| discriminate];
      assert (H1 : reconciled prev np)
  end.
  { apply reconciled_setOffset.
    apply (reconciled_set prev _ Waist).
    apply (reconciled_set prev _ Torso).
    apply reconciled_refl. }
  intros E2.
  apply (calculateAngles_reconciled body prev _ _ _ _ _
           (calculateAngles_reconciled body prev _ _ _ _ _ H1 E1) E2).
Qed.

(** The extraction from the body built for [P], evaluated: the angles written
    first, for any previous pose. *)
Lemma extract_from_created_eval (P prev : PoseData) :
  exists P',
    extractPoseFromPhysicsBody (createPhysicsBodyFromPose P) prev = Some P' /\
    torso P' = torso prev
               + shortestAngleDiff (torso prev)
                   (bearing P Root Torso - baseAngle Torso) /\
    head P' = head prev
              + shortestAngleDiff (head prev)
                  (bearing P Torso Head - (baseAngle Torso + torso P')
                   - baseAngle Head) /\
    shoulder (left P')
    = shoulder (left prev)
      + shortestAngleDiff (shoulder (left prev))
          (bearing P Torso LShoulder - (baseAngle Torso + torso P')
           - baseAngle LShoulder).
Proof.
  eexists. split; [reflexivity |]. repeat split; reflexivity.
Qed.

Lemma default_bearing_torso : bearing getDefaultPose Root Torso = - (PI / 2).
Proof.
  eval_default_skeleton.
  replace (- PI / 2 + 0) with (- (PI / 2)) by lra.
  rewrite cos_neg_PI2, sin_neg_PI2.
  replace (800 / 2 + 0 + 0 * 150 - (800 / 2 + 0)) with 0 by lra.
  apply atan2_neg_y_axis. lra.
Qed.

Lemma default_bearing_head : bearing getDefaultPose Torso Head = - (PI / 2).
Proof.
  eval_default_skeleton.
  replace (- PI / 2 + 0 + 0 + 0) with (- (PI / 2)) by lra.
  replace (- PI / 2 + 0) with (- (PI / 2)) by lra.
  rewrite cos_neg_PI2, sin_neg_PI2.
  match goal with |- atan2 _ ?dx = _ => replace dx with 0 by lra end.
  apply atan2_neg_y_axis. lra.
Qed.

Lemma default_bearing_left_shoulder : bearing getDefaultPose Torso LShoulder = PI.
Proof.
  eval_default_skeleton.
  replace (- PI / 2 + 0 + PI / 2) with 0 by lra.
  rewrite cos_0, sin_0.
  match goal with |- atan2 ?dy _ = _ => replace dy with 0 by lra end.
  apply atan2_neg_x_axis. lra.
Qed.

Lemma shortestAngleDiff_same (a : R) : shortestAngleDiff a a = 0.
Proof.
  pose proof PI_RGT_0. unfold shortestAngleDiff.
  destruct (Rgt_dec (a - a) PI); [lra |].
  destruct (Rlt_dec (a - a) (- PI)); lra.
Qed.

(** Within a turn and a half the difference returned is a shortest one. *)
Lemma shortestAngleDiff_bound (from to : R) :
  - (3 * PI) <= to - from <= 3 * PI ->
  - PI <= shortestAngleDiff from to <= PI.
Proof.
  intros Hr. pose proof PI_RGT_0 as Hpi. unfold shortestAngleDiff.
  destruct (Rgt_dec (to - from) PI); [lra |].
  destruct (Rlt_dec (to - from) (- PI)); lra.
Qed.

(** C1, the code at a failing input.  The body built from the default pose,
    turned back into a pose at once with the default pose as the previous one:
    torso and head come back as they were, but the left shoulder, PI / 2 in
    the default pose, comes back as 0.  The particle of a shoulder sits where
    the upper arm starts, 48 units beside the torso joint, so the direction
    from the torso particle to it says nothing of the shoulder angle. *)
Theorem round_trip_loses_default_shoulder :
  exists P',
    extractPoseFromPhysicsBody (createPhysicsBodyFromPose getDefaultPose)
                               getDefaultPose = Some P' /\
    torso P' = torso getDefaultPose /\
    head P' = head getDefaultPose /\
    shoulder (left getDefaultPose) = PI / 2 /\
    shoulder (left P') = 0.
Proof.
  destruct (extract_from_created_eval getDefaultPose getDefaultPose)
    as (P' & HP & Ht & Hh & Hs).
  exists P'. split; [exact HP |].
  rewrite default_bearing_torso in Ht.
  assert (Ht' : torso P' = 0).
  { rewrite Ht. unfold baseAngle; cbn [BASE_ANGLES getDefaultPose torso].
    replace (- (PI / 2) - - PI / 2) with 0 by lra.
    rewrite shortestAngleDiff_same. lra. }
  split; [exact Ht' |]. split.
  - rewrite Hh, default_bearing_head, Ht'.
    unfold baseAngle; cbn [BASE_ANGLES getDefaultPose head].
    replace (- (PI / 2) - (- PI / 2 + 0) - 0) with 0 by lra.
    rewrite shortestAngleDiff_same. lra.
  - split; [reflexivity |].
    rewrite Hs, default_bearing_left_shoulder, Ht'.
    unfold baseAngle; cbn [BASE_ANGLES getDefaultPose left shoulder].
    pose proof PI_RGT_0 as Hpi.
    unfold shortestAngleDiff.
    destruct (Rgt_dec (PI - (- PI / 2 + 0) - - PI / 2 - PI / 2) PI) as [_ | Hn]; lra.
Qed.

(** C9, the code at a failing input.  The body built from the default pose,
    and as previous pose the default pose with a torso angle of 4 PI (the same
    posture, two turns on): the torso angle written is 2 PI, a full turn away
    from the previous one, where C9 bounds the difference by PI.
    [shortestAngleDiff] brings its result back by one turn only. *)
Theorem extract_torso_jumps_a_full_turn :
  let prev := setPoseAngle Torso (4 * PI) getDefaultPose in
  exists P',
    extractPoseFromPhysicsBody (createPhysicsBodyFromPose getDefaultPose) prev
    = Some P' /\
    torso prev = 4 * PI /\
    torso P' = 2 * PI /\
    Rabs (torso P' - torso prev) > PI.
Proof.
  intros prev.
  destruct (extract_from_created_eval getDefaultPose prev) as (P' & HP & Ht & _).
  exists P'. split; [exact HP |]. split; [reflexivity |].
  pose proof PI_RGT_0 as Hpi.
  assert (Ht' : torso P' = 2 * PI).
  { rewrite Ht, default_bearing_torso.
    unfold baseAngle; cbn [BASE_ANGLES prev setPoseAngle torso].
    unfold shortestAngleDiff.
    destruct (Rgt_dec (- (PI / 2) - - PI / 2 - 4 * PI) PI) as [Hgt | _]; [lra |].
    destruct (Rlt_dec (- (PI / 2) - - PI / 2 - 4 * PI) (- PI)) as [_ | Hn]; lra. }
  split; [exact Ht' |].
  rewrite Ht'. cbn [prev setPoseAngle torso].
  replace (2 * PI - 4 * PI) with (- (2 * PI)) by ring.
  rewrite Rabs_Ropp, Rabs_right; lra.
Qed.

(* ================================================================== *)
(** ** Further real-number facts *)
(* ================================================================== *)

Lemma point_eq (p q : Point) : x p = x q -> y p = y q -> p = q.
Proof. destruct p, q; cbn; intros -> ->; reflexivity. Qed.

Lemma hypot_axis_y (b : R) : hypot 0 b = Rabs b.
Proof.
  unfold hypot. replace (0 * 0 + b * b) with (Rsqr b) by (unfold Rsqr; ring).
  apply sqrt_Rsqr_abs.
Qed.

Lemma hypot_le (a b c d : R) :
  a * a + b * b <= c * c + d * d -> hypot a b <= hypot c d.
Proof. intros Hle. unfold hypot. apply sqrt_le_1_alt. exact Hle. Qed.

Lemma sqrt_1_plus_ratio (a b : R) :
  a <> 0 -> sqrt (1 + (b / a)²) = hypot a b / Rabs a.
Proof.
  intros Ha. unfold hypot.
  replace (1 + (b / a)²) with ((a * a + b * b) / (Rabs a * Rabs a)).
  - rewrite sqrt_div; [| nra |].
    + rewrite sqrt_square by apply Rabs_pos. reflexivity.
    + assert (Hp : 0 < Rabs a) by (apply Rabs_pos_lt; exact Ha). nra.
  - assert (Hsq : Rabs a * Rabs a = a * a)
      by (unfold Rabs; destruct (Rcase_abs a); ring).
    rewrite Hsq. unfold Rsqr. field. exact Ha.
Qed.

(** [Math.atan2(y, x)] is the angle of the vector (x, y). *)
Lemma cos_sin_atan2 (a b : R) :
  0 < hypot a b ->
  cos (atan2 b a) = a / hypot a b /\ sin (atan2 b a) = b / hypot a b.
Proof.
  intros Hh. unfold atan2.
  destruct (Rlt_dec 0 a) as [Hpos | Hnpos].
  - rewrite cos_atan, sin_atan, sqrt_1_plus_ratio by lra.
    rewrite Rabs_right by lra. split; field; lra.
  - destruct (Rlt_dec a 0) as [Hneg | Hnneg].
    + assert (Ha : Rabs a = - a) by (apply Rabs_left; exact Hneg).
      destruct (Rle_dec 0 b) as [Hb | Hb].
      * rewrite neg_cos, neg_sin, cos_atan, sin_atan, sqrt_1_plus_ratio by lra.
        rewrite Ha. split; field; lra.
      * replace (atan (b / a) - PI) with (- (PI - atan (b / a))) by ring.
        rewrite cos_neg, sin_neg.
        replace (PI - atan (b / a)) with (- atan (b / a) + PI) by ring.
        rewrite neg_cos, neg_sin, cos_neg, sin_neg, cos_atan, sin_atan,
          sqrt_1_plus_ratio by lra.
        rewrite Ha. split; field; lra.
    + assert (Ha : a = 0) by lra. subst a.
      rewrite hypot_axis_y in *.
      destruct (Rlt_dec 0 b) as [Hbp | Hbnp].
      * rewrite cos_PI2, sin_PI2, Rabs_right by lra. split; field; lra.
      * destruct (Rlt_dec b 0) as [Hbn | Hbnn].
        -- rewrite cos_neg, sin_neg, cos_PI2, sin_PI2, Rabs_left by lra.
           split; field; lra.
        -- assert (Hz : b = 0) by lra. subst b. rewrite Rabs_R0 in Hh. lra.
Qed.

Lemma clamp_unit (c : R) : -1 <= c <= 1 -> Rmax (-1) (Rmin 1 c) = c.
Proof.
  intros [Hlo Hhi]. rewrite Rmin_right by exact Hhi. apply Rmax_right. exact Hlo.
Qed.

Lemma ratio_within_unit (p q : R) : 0 < q -> - q <= p <= q -> -1 <= p / q <= 1.
Proof.
  intros Hq [Hlo Hhi].
  assert (Hi : 0 < / q) by (apply Rinv_0_lt_compat; exact Hq).
  assert (Hone : q * / q = 1) by (field; lra).
  unfold Rdiv. split; nra.
Qed.

Lemma sq_eq_nonneg (a b : R) : 0 <= a -> 0 <= b -> a * a = b * b -> a = b.
Proof. intros Ha Hb Hab. nra. Qed.

(** The law of cosines, as [solveIK] applies it: the two segments, laid out
    from the bearing [theta] with the angles it computes, span exactly [d]
    along [theta]. *)
Lemma two_bone_closure (l1 l2 d theta : R) :
  0 < l1 -> 0 < l2 -> 0 < d -> Rabs (l1 - l2) <= d <= l1 + l2 ->
  let cosAngle2 := (l1 * l1 + l2 * l2 - d * d) / (2 * l1 * l2) in
  let cosAngle1_part := (d * d + l1 * l1 - l2 * l2) / (2 * d * l1) in
  let a1 := theta - acos (Rmax (-1) (Rmin 1 cosAngle1_part)) in
  let a2 := PI - acos (Rmax (-1) (Rmin 1 cosAngle2)) in
  cos a1 * l1 + cos (a1 + a2) * l2 = d * cos theta /\
  sin a1 * l1 + sin (a1 + a2) * l2 = d * sin theta.
Proof.
  intros Hl1 Hl2 Hd [Hlo Hhi] c2 c1 a1 a2.
  assert (Hlo' : - d <= l1 - l2 <= d).
  { unfold Rabs in Hlo. destruct (Rcase_abs (l1 - l2)); lra. }
  assert (Hc2 : -1 <= c2 <= 1) by (apply ratio_within_unit; nra).
  assert (Hc1 : -1 <= c1 <= 1) by (apply ratio_within_unit; nra).
  unfold a1, a2. rewrite !clamp_unit by assumption.
  set (al := acos c1). set (ga := acos c2).
  assert (Hca : cos al = c1) by (apply cos_acos; exact Hc1).
  assert (Hcg : cos ga = c2) by (apply cos_acos; exact Hc2).
  assert (Hsa : 0 <= sin al /\ sin al * sin al = 1 - c1 * c1).
  { unfold al. rewrite sin_acos by exact Hc1. split; [apply sqrt_pos |].
    apply sqrt_sqrt. unfold Rsqr. nra. }
  assert (Hsg : 0 <= sin ga /\ sin ga * sin ga = 1 - c2 * c2).
  { unfold ga. rewrite sin_acos by exact Hc2. split; [apply sqrt_pos |].
    apply sqrt_sqrt. unfold Rsqr. nra. }
  destruct Hsa as [Hsa0 Hsa2]. destruct Hsg as [Hsg0 Hsg2].
  assert (Hproj : l1 - l2 * c2 = d * c1) by (unfold c1, c2; field; lra).
  assert (Hsines : d * sin al = l2 * sin ga).
  { apply sq_eq_nonneg; [nra | nra |].
    replace (d * sin al * (d * sin al)) with (d * d * (sin al * sin al)) by ring.
    replace (l2 * sin ga * (l2 * sin ga)) with (l2 * l2 * (sin ga * sin ga)) by ring.
    rewrite Hsa2, Hsg2. unfold c1, c2. field. lra. }
  replace (theta - al + (PI - ga)) with (theta - (al + ga) + PI) by ring.
  rewrite neg_cos, neg_sin, !cos_minus, !sin_minus, cos_plus, sin_plus, Hca, Hcg.
  split.
  - replace (_ + _) with
      (cos theta * (c1 * (l1 - l2 * c2) + sin al * (l2 * sin ga))
       + sin theta * (sin al * (l1 - l2 * c2) - c1 * (l2 * sin ga))) by ring.
    rewrite Hproj, <- Hsines.
    replace (c1 * (d * c1) + sin al * (d * sin al))
      with (d * (c1 * c1 + sin al * sin al)) by ring.
    rewrite Hsa2. ring.
  - replace (_ + _) with
      (sin theta * (c1 * (l1 - l2 * c2) + sin al * (l2 * sin ga))
       - cos theta * (sin al * (l1 - l2 * c2) - c1 * (l2 * sin ga))) by ring.
    rewrite Hproj, <- Hsines.
    replace (c1 * (d * c1) + sin al * (d * sin al))
      with (d * (c1 * c1 + sin al * sin al)) by ring.
    rewrite Hsa2. ring.
Qed.

Lemma atan_tan_shift (w s : R) :
  - (PI / 2) < w + s < PI / 2 -> sin (w + s) = - sin w -> cos (w + s) = - cos w ->
  cos w <> 0 -> atan (sin w / cos w) = w + s.
Proof.
  intros Hr Hs Hc Hnz.
  rewrite <- (atan_tan (w + s)) by exact Hr.
  f_equal. unfold tan. rewrite Hs, Hc. field. exact Hnz.
Qed.

(** [Math.atan2] gives back the angle of a point laid out by [getEndPoint],
    when that angle is in (-PI, PI]. *)
Lemma atan2_polar (w len : R) :
  0 < len -> - PI < w <= PI -> atan2 (sin w * len) (cos w * len) = w.
Proof.
  intros Hlen [Hlo Hhi]. pose proof PI_RGT_0 as Hpi.
  destruct (Rlt_dec w (- (PI / 2))) as [H1 | H1].
  - assert (Hc : cos w < 0).
    { rewrite <- cos_neg. apply cos_lt_0; lra. }
    assert (Hs : sin w < 0).
    { rewrite <- (Ropp_involutive w), sin_neg.
      assert (0 < sin (- w)) by (apply sin_gt_0; lra). lra. }
    unfold atan2.
    destruct (Rlt_dec 0 (cos w * len)) as [Hp | _]; [nra |].
    destruct (Rlt_dec (cos w * len) 0) as [_ | Hn]; [| nra].
    destruct (Rle_dec 0 (sin w * len)) as [Hp | _]; [nra |].
    replace (sin w * len / (cos w * len)) with (sin w / cos w) by (field; lra).
    rewrite (atan_tan_shift w PI); [ring | lra | apply neg_sin | apply neg_cos | lra].
  - destruct (Req_dec_T w (- (PI / 2))) as [-> | H2].
    + rewrite cos_neg, cos_PI2, sin_neg, sin_PI2. unfold atan2.
      replace (0 * len) with 0 by ring.
      replace (Ropp 1 * len) with (- len) by ring.
      destruct (Rlt_dec 0 0) as [Hp | _]; [lra |].
      destruct (Rlt_dec 0 (- len)) as [Hp | _]; [lra |].
      destruct (Rlt_dec (- len) 0) as [_ | Hn]; [reflexivity | lra].
    + destruct (Rlt_dec w (PI / 2)) as [H3 | H3].
      * assert (Hc : 0 < cos w) by (apply cos_gt_0; lra).
        unfold atan2.
        destruct (Rlt_dec 0 (cos w * len)) as [_ | Hn]; [| nra].
        replace (sin w * len / (cos w * len)) with (tan w) by (unfold tan; field; lra).
        apply atan_tan. lra.
      * destruct (Req_dec_T w (PI / 2)) as [-> | H4].
        -- rewrite cos_PI2, sin_PI2. unfold atan2.
           replace (0 * len) with 0 by ring.
           destruct (Rlt_dec 0 0) as [Hp | _]; [lra |].
           destruct (Rlt_dec 0 (1 * len)) as [_ | Hn]; [reflexivity | nra].
        -- assert (Hc : cos w < 0) by (apply cos_lt_0; lra).
           assert (Hs : 0 <= sin w) by (apply sin_ge_0; lra).
           unfold atan2.
           destruct (Rlt_dec 0 (cos w * len)) as [Hp | _]; [nra |].
           destruct (Rlt_dec (cos w * len) 0) as [_ | Hn]; [| nra].
           destruct (Rle_dec 0 (sin w * len)) as [_ | Hn]; [| nra].
           replace (sin w * len / (cos w * len)) with (sin w / cos w) by (field; lra).
           rewrite (atan_tan_shift w (- PI)); [ring | lra | | | lra].
           ++ replace (w + - PI) with (- (- w + PI)) by ring.
              rewrite sin_neg, neg_sin, sin_neg. ring.
           ++ replace (w + - PI) with (- (- w + PI)) by ring.
              rewrite cos_neg, neg_cos, cos_neg. ring.
Qed.

(** The same for an angle up to a turn and a half from 0: the result is the
    angle brought back by one full turn. *)
Lemma atan2_polar_wrapped (w len : R) :
  0 < len -> - (3 * PI) < w <= 3 * PI ->
  exists k : R, (k = 0 \/ k = 1 \/ k = -1) /\
    atan2 (sin w * len) (cos w * len) = w + 2 * PI * k.
Proof.
  intros Hlen [Hlo Hhi]. pose proof PI_RGT_0 as Hpi.
  destruct (Rle_dec w (- PI)) as [H1 | H1].
  - exists 1. split; [lra |].
    replace (sin w) with (sin (w + 2 * PI * 1))
      by (replace (w + 2 * PI * 1) with (w + 2 * PI) by ring;
          rewrite sin_plus, sin_2PI, cos_2PI; ring).
    replace (cos w) with (cos (w + 2 * PI * 1))
      by (replace (w + 2 * PI * 1) with (w + 2 * PI) by ring;
          rewrite cos_plus, sin_2PI, cos_2PI; ring).
    apply atan2_polar; [exact Hlen | lra].
  - destruct (Rle_dec w PI) as [H2 | H2].
    + exists 0. split; [lra |]. rewrite Rmult_0_r, Rplus_0_r.
      apply atan2_polar; [exact Hlen | lra].
    + exists (-1). split; [lra |].
      replace (sin w) with (sin (w + 2 * PI * -1)).
      2:{ replace (w + 2 * PI * -1) with (w - 2 * PI) by ring.
          rewrite sin_minus, sin_2PI, cos_2PI. ring. }
      replace (cos w) with (cos (w + 2 * PI * -1)).
      2:{ replace (w + 2 * PI * -1) with (w - 2 * PI) by ring.
          rewrite cos_minus, sin_2PI, cos_2PI. ring. }
      apply atan2_polar; [exact Hlen | lra].
Qed.

(* ================================================================== *)
(** ** Inverse kinematics: where the limb ends *)
(* ================================================================== *)

(** The angle pair of the law-of-cosines branch carries the end effector to
    the point the branch solved for. *)
Lemma endEffector_of_solution (rootPos : Point) (l1 l2 dx dy d : R) :
  0 < l1 -> 0 < l2 -> 0 < d -> hypot dx dy = d ->
  Rabs (l1 - l2) <= d <= l1 + l2 ->
  endEffector rootPos l1 l2
    {| angle1 := atan2 dy dx
                 - acos (Rmax (-1) (Rmin 1 ((d * d + l1 * l1 - l2 * l2) / (2 * d * l1))));
       angle2 := PI
                 - acos (Rmax (-1) (Rmin 1 ((l1 * l1 + l2 * l2 - d * d) / (2 * l1 * l2)))) |}
  = {| x := x rootPos + dx; y := y rootPos + dy |}.
Proof.
  intros Hl1 Hl2 Hd Hh Hr.
  assert (Hpos : 0 < hypot dx dy) by (rewrite Hh; exact Hd).
  destruct (cos_sin_atan2 _ _ Hpos) as [Hc Hs]. rewrite Hh in Hc, Hs.
  destruct (two_bone_closure l1 l2 d (atan2 dy dx) Hl1 Hl2 Hd Hr) as [Hx Hy].
  cbv zeta in Hx, Hy.
  apply point_eq; unfold endEffector, getEndPoint; cbn [x y angle1 angle2].
  - rewrite Rplus_assoc, Hx, Hc. field. lra.
  - rewrite Rplus_assoc, Hy, Hs. field. lra.
Qed.

(** X1.  A target within reach is reached: for two segments of positive
    length and a target whose distance from the root is at least 0.1 and
    between |l1 - l2| and l1 + l2 (both included), [solveIK] returns an angle
    pair, and a first segment leaving the root at angle1 followed by a second
    one turned by angle2 from it ends exactly on the target. *)
Theorem solveIK_reaches_target (rootPos targetPos : Point) (l1 l2 : R) :
  let dist := hypot (x targetPos - x rootPos) (y targetPos - y rootPos) in
  0 < l1 -> 0 < l2 -> 0.1 <= dist -> Rabs (l1 - l2) <= dist <= l1 + l2 ->
  exists r,
    solveIK rootPos targetPos l1 l2 = Some r /\
    endEffector rootPos l1 l2 r = targetPos.
Proof.
  intros dist Hl1 Hl2 Hmin [Hlo Hhi].
  unfold solveIK. fold dist.
  destruct (Rlt_dec dist 0.1) as [Hlt | _]; [lra |].
  destruct (Rgt_dec dist (l1 + l2)) as [Hgt | _]; [lra |].
  destruct (Rlt_dec dist (Rabs (l1 - l2))) as [Hlt | _]; [lra |].
  eexists. split; [reflexivity |].
  rewrite endEffector_of_solution; try assumption; try reflexivity; try lra.
  apply point_eq; cbn [x y]; ring.
Qed.

Lemma solveIK_reaches_target_witness :
  exists r,
    solveIK {| x := 0; y := 0 |} {| x := 150; y := 0 |} 100 100 = Some r /\
    endEffector {| x := 0; y := 0 |} 100 100 r = {| x := 150; y := 0 |}.
Proof.
  apply (solveIK_reaches_target {| x := 0; y := 0 |} {| x := 150; y := 0 |} 100 100);
    cbn [x y]; replace (150 - 0) with 150 by ring; replace (0 - 0) with 0 by ring;
    rewrite ?hypot_axis_x, ?(Rabs_right 150) by lra;
    replace (100 - 100) with 0 by ring; rewrite ?Rabs_R0; lra.
Defined.

(** X2.  A target out of reach is pointed at: when the distance from the root
    is at least 0.1 and greater than l1 + l2, [solveIK] returns an angle pair
    that lays the two segments out in a straight line towards the target, so
    that the limb ends on the segment from the root to the target, at the
    distance l1 + l2 from the root. *)
Theorem solveIK_too_far_points_at_target (rootPos targetPos : Point) (l1 l2 : R) :
  let dx := x targetPos - x rootPos in
  let dy := y targetPos - y rootPos in
  let dist := hypot dx dy in
  0.1 <= dist -> dist > l1 + l2 ->
  exists r,
    solveIK rootPos targetPos l1 l2 = Some r /\
    endEffector rootPos l1 l2 r
    = {| x := x rootPos + (l1 + l2) / dist * dx;
         y := y rootPos + (l1 + l2) / dist * dy |}.
Proof.
  intros dx dy dist Hmin Hfar.
  unfold solveIK. fold dx dy dist.
  destruct (Rlt_dec dist 0.1) as [Hlt | _]; [lra |].
  destruct (Rgt_dec dist (l1 + l2)) as [_ | Hn]; [| contradiction].
  eexists. split; [reflexivity |].
  assert (Hd : 0 < dist) by lra.
  destruct (cos_sin_atan2 _ _ Hd) as [Hc Hs]. fold dx dy dist in Hc, Hs.
  apply point_eq; unfold endEffector, getEndPoint; cbn [x y angle1 angle2];
    rewrite Rplus_0_r, ?Hc, ?Hs; field; lra.
Qed.

Lemma solveIK_too_far_points_at_target_witness :
  exists r,
    solveIK {| x := 0; y := 0 |} {| x := 300; y := 0 |} 100 100 = Some r /\
    endEffector {| x := 0; y := 0 |} 100 100 r
    = {| x := 0 + (100 + 100) / hypot (300 - 0) (0 - 0) * (300 - 0);
         y := 0 + (100 + 100) / hypot (300 - 0) (0 - 0) * (0 - 0) |}.
Proof.
  apply (solveIK_too_far_points_at_target
           {| x := 0; y := 0 |} {| x := 300; y := 0 |} 100 100);
    cbn [x y]; replace (300 - 0) with 300 by ring; replace (0 - 0) with 0 by ring;
    rewrite hypot_axis_x, (Rabs_right 300) by lra; lra.
Defined.

(** X3.  A target too close is pushed out: for two segments of positive
    length and a target at a distance of at least 0.1 and less than
    |l1 - l2|, the limb laid out with the angles [solveIK] returns ends
    exactly on the target moved away from the root, along the same ray, to
    the distance |l1 - l2|. *)
Theorem solveIK_too_close_lands_on_pushed_target
  (rootPos targetPos : Point) (l1 l2 : R) :
  let dist := hypot (x targetPos - x rootPos) (y targetPos - y rootPos) in
  0 < l1 -> 0 < l2 -> 0.1 <= dist -> dist < Rabs (l1 - l2) ->
  exists r,
    solveIK rootPos targetPos l1 l2 = Some r /\
    endEffector rootPos l1 l2 r = rescaledTarget rootPos targetPos l1 l2.
Proof.
  intros dist Hl1 Hl2 Hmin Hclose.
  assert (Hd : 0 < dist) by lra.
  pose proof (rescaledTarget_dist rootPos targetPos l1 l2 Hd) as Hpush.
  assert (Hreach : Rabs (l1 - l2) <= l1 + l2).
  { unfold Rabs. destruct (Rcase_abs (l1 - l2)); lra. }
  unfold solveIK. fold dist.
  destruct (Rlt_dec dist 0.1) as [Hlt | _]; [lra |].
  destruct (Rgt_dec dist (l1 + l2)) as [Hgt | _]; [lra |].
  destruct (Rlt_dec dist (Rabs (l1 - l2))) as [_ | Hn]; [| contradiction].
  eexists. split; [reflexivity |].
  rewrite endEffector_of_solution; try assumption; try lra.
  apply point_eq; unfold rescaledTarget; fold dist; cbn [x y]; ring.
Qed.

Lemma solveIK_too_close_lands_on_pushed_target_witness :
  exists r,
    solveIK {| x := 0; y := 0 |} {| x := 10; y := 0 |} 100 50 = Some r /\
    endEffector {| x := 0; y := 0 |} 100 50 r
    = rescaledTarget {| x := 0; y := 0 |} {| x := 10; y := 0 |} 100 50.
Proof.
  apply (solveIK_too_close_lands_on_pushed_target
           {| x := 0; y := 0 |} {| x := 10; y := 0 |} 100 50);
    cbn [x y]; replace (10 - 0) with 10 by ring; replace (0 - 0) with 0 by ring;
    rewrite ?hypot_axis_x, ?(Rabs_right 10) by lra;
    replace (100 - 50) with 50 by ring; rewrite ?(Rabs_right 50) by lra; lra.
Defined.

(* ================================================================== *)
(** ** Two-bone inverse kinematics: a target too close *)
(* ================================================================== *)

(** C7 as stated fails: with segments 5 and -50 and a target 10 units away
    the distance is at least 0.1 and below |l1 - l2| = 55, but it exceeds
    l1 + l2 = -45 and that test comes first: the result is the stretched limb
    (angle1 the direction of the target, angle2 = 0), whose two segments end
    at (-45, 0), while the target pushed out to distance 55 is (55, 0). *)
Lemma solveIK_too_close_but_out_of_reach :
  let rootPos := {| x := 0; y := 0 |} in
  let targetPos := {| x := 10; y := 0 |} in
  let dist := hypot (x targetPos - x rootPos) (y targetPos - y rootPos) in
  0.1 <= dist /\ dist < Rabs (5 - - 50) /\
  solveIK rootPos targetPos 5 (- 50) = Some {| angle1 := 0; angle2 := 0 |} /\
  x rootPos + 5 * cos 0 + - 50 * cos (0 + 0) = - 45 /\
  y rootPos + 5 * sin 0 + - 50 * sin (0 + 0) = 0 /\
  x rootPos + (x targetPos - x rootPos) * (Rabs (5 - - 50) / dist) = 55.
Proof.
  cbn zeta. cbn [x y].
  replace (10 - 0) with 10 by ring. replace (0 - 0) with 0 by ring.
  replace (5 - - 50) with 55 by ring. replace (0 + 0) with 0 by ring.
  rewrite hypot_axis_x, (Rabs_right 10), (Rabs_right 55), cos_0, sin_0 by lra.
  split; [lra |]. split; [lra |]. split; [| split; [lra | split; [lra | field]]].
  unfold solveIK. cbn [x y].
  replace (10 - 0) with 10 by ring. replace (0 - 0) with 0 by ring.
  rewrite hypot_axis_x, (Rabs_right 10) by lra.
  destruct (Rlt_dec 10 0.1) as [Hlt | _]; [lra |].
  destruct (Rgt_dec 10 (5 + - 50)) as [_ | Hn]; [| lra].
  rewrite atan2_pos_x_axis by lra. reflexivity.
Qed.

(** C7, as amended.  For two segments of positive length and a target whose
    distance from the root is at least 0.1 and less than |l1 - l2|, [solveIK]
    solves for the target pushed out along the same direction (the
    root-to-target vector times |l1 - l2| / dist, a factor above 1) to
    distance |l1 - l2|: it returns what it returns for that pushed target,
    which is an angle pair, and a first segment leaving the root at angle1
    followed by a second one turned by angle2 from it ends exactly on the
    pushed target, at distance |l1 - l2| from the root.  With l1 = 100,
    l2 = 50 and a target at distance 10 that is an angle pair whose end
    effector is at distance 50. *)
Theorem solveIK_too_close_rescales (rootPos targetPos : Point) (l1 l2 : R) :
  let dx := x targetPos - x rootPos in
  let dy := y targetPos - y rootPos in
  let minReach := Rabs (l1 - l2) in
  let scale := minReach / hypot dx dy in
  let pushed := {| x := x rootPos + dx * scale; y := y rootPos + dy * scale |} in
  0 < l1 -> 0 < l2 ->
  0.1 <= hypot dx dy -> hypot dx dy < minReach ->
  1 < scale /\
  hypot (x pushed - x rootPos) (y pushed - y rootPos) = minReach /\
  solveIK rootPos targetPos l1 l2 = solveIK rootPos pushed l1 l2 /\
  exists r,
    solveIK rootPos targetPos l1 l2 = Some r /\
    x rootPos + l1 * cos (angle1 r) + l2 * cos (angle1 r + angle2 r) = x pushed /\
    y rootPos + l1 * sin (angle1 r) + l2 * sin (angle1 r + angle2 r) = y pushed /\
    hypot (l1 * cos (angle1 r) + l2 * cos (angle1 r + angle2 r))
          (l1 * sin (angle1 r) + l2 * sin (angle1 r + angle2 r)) = minReach.
Proof.
  intros dx dy minReach scale pushed Hl1 Hl2 Hmin Hclose.
  assert (Hdist : 0 < hypot dx dy) by lra.
  assert (Hpush : hypot (x pushed - x rootPos) (y pushed - y rootPos) = minReach)
    by (apply (rescaledTarget_dist rootPos targetPos l1 l2); exact Hdist).
  assert (Hreach : minReach <= l1 + l2).
  { unfold minReach, Rabs. destruct (Rcase_abs (l1 - l2)); lra. }
  assert (Hland : exists r,
             solveIK rootPos targetPos l1 l2 = Some r /\
             endEffector rootPos l1 l2 r = pushed).
  { unfold solveIK. fold dx dy minReach.
    destruct (Rlt_dec (hypot dx dy) 0.1) as [Hlt | _]; [lra |].
    destruct (Rgt_dec (hypot dx dy) (l1 + l2)) as [Hgt | _]; [lra |].
    destruct (Rlt_dec (hypot dx dy) minReach) as [_ | Hn]; [| contradiction].
    eexists. split; [reflexivity |].
    rewrite endEffector_of_solution;
      [ | exact Hl1 | exact Hl2 | lra | exact Hpush
        | split; [apply Rle_refl | exact Hreach] ].
    apply point_eq; unfold pushed, scale; cbn [x y]; ring. }
  split; [| split; [exact Hpush | split]].
  - unfold scale. apply (Rmult_lt_reg_r (hypot dx dy)); [exact Hdist |].
    unfold Rdiv. rewrite Rmult_assoc, Rinv_l, Rmult_1_r, Rmult_1_l by lra.
    exact Hclose.
  - unfold solveIK at 2. rewrite Hpush.
    destruct (Rlt_dec minReach 0.1) as [Hlt | _]; [lra |].
    destruct (Rgt_dec minReach (l1 + l2)) as [Hgt | _]; [lra |].
    fold minReach.
    destruct (Rlt_dec minReach minReach) as [Hlt | _]; [lra |].
    unfold solveIK. fold dx dy minReach.
    destruct (Rlt_dec (hypot dx dy) 0.1) as [Hlt | _]; [lra |].
    destruct (Rgt_dec (hypot dx dy) (l1 + l2)) as [Hgt | _]; [lra |].
    destruct (Rlt_dec (hypot dx dy) minReach) as [_ | Hn]; [| contradiction].
    reflexivity.
  - destruct Hland as (r & Hr & He). exists r. split; [exact Hr |].
    pose proof (f_equal x He) as Hx. pose proof (f_equal y He) as Hy.
    unfold endEffector, getEndPoint in Hx, Hy. cbn [x y] in Hx, Hy.
    assert (Ex : x rootPos + l1 * cos (angle1 r) + l2 * cos (angle1 r + angle2 r)
                 = x pushed) by (rewrite <- Hx; ring).
    assert (Ey : y rootPos + l1 * sin (angle1 r) + l2 * sin (angle1 r + angle2 r)
                 = y pushed) by (rewrite <- Hy; ring).
    split; [exact Ex |]. split; [exact Ey |].
    rewrite <- Hpush. f_equal; [rewrite <- Ex | rewrite <- Ey]; ring.
Qed.

(** The amended C7 at l1 = 100, l2 = 50 and the target (10, 0) from the
    root (0, 0): the two segments end on (50, 0). *)
Lemma solveIK_too_close_rescales_witness :
  exists r,
    solveIK {| x := 0; y := 0 |} {| x := 10; y := 0 |} 100 50 = Some r /\
    0 + 100 * cos (angle1 r) + 50 * cos (angle1 r + angle2 r) = 50 /\
    0 + 100 * sin (angle1 r) + 50 * sin (angle1 r + angle2 r) = 0 /\
    hypot (100 * cos (angle1 r) + 50 * cos (angle1 r + angle2 r))
          (100 * sin (angle1 r) + 50 * sin (angle1 r + angle2 r)) = 50.
Proof.
  assert (Hd : hypot (10 - 0) (0 - 0) = 10).
  { replace (10 - 0) with 10 by ring. replace (0 - 0) with 0 by ring.
    rewrite hypot_axis_x. apply Rabs_right. lra. }
  assert (Hm : Rabs (100 - 50) = 50) by (rewrite Rabs_right; lra).
  destruct (solveIK_too_close_rescales
              {| x := 0; y := 0 |} {| x := 10; y := 0 |} 100 50)
    as (_ & _ & _ & r & Hr & Hx & Hy & Hh);
    cbn [x y]; try rewrite Hd; try rewrite Hm; try lra.
  cbn [x y] in Hx, Hy, Hh. rewrite Hd, Hm in Hx, Hy. rewrite Hm in Hh.
  exists r. split; [exact Hr |]. split; [rewrite Hx; field |].
  split; [rewrite Hy; field | exact Hh].
Defined.

(* ================================================================== *)
(** ** Forward kinematics: a rigid, translatable skeleton *)
(* ================================================================== *)

Lemma hypot_getEndPoint (s : Point) (a len : R) :
  hypot (x (getEndPoint s a len) - x s) (y (getEndPoint s a len) - y s) = Rabs len.
Proof.
  unfold getEndPoint. cbn [x y].
  replace (x s + cos a * len - x s) with (len * cos a) by ring.
  replace (y s + sin a * len - y s) with (len * sin a) by ring.
  apply hypot_unit_scaled.
Qed.

(** Every joint but the root is laid out from its parent joint by one call of
    [getEndPoint]. *)
Lemma posOf_placement (pose : PoseData) (j p : JointId) :
  parent (hierarchy j) = Some p ->
  exists a len, posOf pose j = getEndPoint (posOf pose p) a len /\
                Rabs len = edgeLength j.
Proof.
  destruct j; cbn [hierarchy parent]; intros [= <-];
    do 2 eexists; (split; [reflexivity |]); cbn [edgeLength];
    cbv delta [TORSO_HEIGHT WAIST_HEIGHT HEAD_SIZE HEAD_SIZE_UNIT L_ARM L_FOREARM
               LIMB_LENGTH L_THIGH L_SHIN];
    first [ rewrite Rabs_right by lra; reflexivity
          | rewrite Rabs_left by lra; lra ].
Qed.

Lemma edgeLength_large (j p : JointId) :
  parent (hierarchy j) = Some p -> edgeLength j > 0.1.
Proof.
  destruct j; cbn [hierarchy parent edgeLength]; intros [= <-];
    cbv delta [TORSO_HEIGHT WAIST_HEIGHT HEAD_SIZE HEAD_SIZE_UNIT L_ARM L_FOREARM
               LIMB_LENGTH L_THIGH L_SHIN]; lra.
Qed.

Lemma joint_distance (pose : PoseData) (j p : JointId) :
  parent (hierarchy j) = Some p ->
  hypot (x (posOf pose j) - x (posOf pose p)) (y (posOf pose j) - y (posOf pose p))
  = edgeLength j.
Proof.
  intros Hp. destruct (posOf_placement pose j p Hp) as (a & len & -> & <-).
  apply hypot_getEndPoint.
Qed.

Lemma children_parent (p c : JointId) :
  In c (children (hierarchy p)) -> parent (hierarchy c) = Some p.
Proof.
  destruct p; cbn [hierarchy children In]; intros Hin;
    repeat (destruct Hin as [<- | Hin]; [reflexivity |]); contradiction.
Qed.

(** Moving the offset moves every joint by as much. *)
Lemma posOf_translated (pose : PoseData) (d : Point) (k : JointId) :
  posOf (setOffset (translate d (offset pose)) pose) k = translate d (posOf pose k).
Proof.
  destruct k; apply point_eq;
    cbv [posOf jointPos computeSkeleton computeSkeletonState fold_left
         armTier legTier storeJoint storeBone storeAngle worldAngles jointCache
         boneCache joints lookupJoint JointId_eqb app shoulderKeyOf elbowKeyOf
         handKeyOf hipKeyOf kneeKeyOf footKeyOf poseSide getEndPoint x y
         setOffset translate offset torso waist head left right];
    ring.
Qed.

(** X4.  The skeleton is rigid: whatever the pose, the joint of every key
    that has a parent in [hierarchy] lies at a fixed distance from its
    parent's joint (150 for the torso, 75 for the waist, HEAD_SIZE / 2.5 for
    the head, 48 for a shoulder, 29 for a hip, L_ARM, L_FOREARM, L_THIGH and
    L_SHIN for elbow, hand, knee and foot), and each of these distances
    exceeds the 0.1 below which [createPhysicsBodyFromPose] makes no
    constraint. *)
Theorem computeSkeleton_keeps_joint_distances (pose : PoseData) (j p : JointId) :
  parent (hierarchy j) = Some p ->
  exists pj pp,
    jointPos pose j = Some pj /\ jointPos pose p = Some pp /\
    hypot (x pj - x pp) (y pj - y pp) = edgeLength j /\
    0.1 < edgeLength j.
Proof.
  intros Hp. exists (posOf pose j), (posOf pose p).
  split; [apply jointPos_defined |]. split; [apply jointPos_defined |].
  split; [apply joint_distance; exact Hp |].
  apply Rgt_lt. apply (edgeLength_large j p Hp).
Qed.

Lemma computeSkeleton_keeps_joint_distances_witness :
  exists pj pp,
    jointPos getDefaultPose LElbow = Some pj /\
    jointPos getDefaultPose LShoulder = Some pp /\
    hypot (x pj - x pp) (y pj - y pp) = edgeLength LElbow /\
    0.1 < edgeLength LElbow.
Proof.
  apply (computeSkeleton_keeps_joint_distances getDefaultPose LElbow LShoulder).
  reflexivity.
Defined.

(** X5.  The offset only translates: adding a vector d to [pose.offset] moves
    every joint of the skeleton by d and leaves every world angle as it
    was. *)
Theorem computeSkeleton_offset_translates (pose : PoseData) (d : Point) (k : JointId) :
  exists p p',
    jointPos pose k = Some p /\
    jointPos (setOffset (translate d (offset pose)) pose) k = Some p' /\
    p' = translate d p /\
    worldAngle (setOffset (translate d (offset pose)) pose) k = worldAngle pose k.
Proof.
  do 2 eexists. split; [apply jointPos_defined |]. split; [apply jointPos_defined |].
  split; [apply posOf_translated |].
  destruct k; reflexivity.
Qed.

(** X6.  [getParentWorldAngle(key, pose)] is 0 for the root and, for every
    other key, the world angle [computeSkeleton] gives the key's parent; the
    world angle of the key itself is that value plus the key's base angle
    plus its local angle in the pose. *)
Theorem getParentWorldAngle_is_parent_worldAngle (pose : PoseData) (k : JointId) :
  (k = Root -> getParentWorldAngle k pose = 0) /\
  (forall p, parent (hierarchy k) = Some p ->
     worldAngle pose p = Some (getParentWorldAngle k pose) /\
     worldAngle pose k
     = Some (getParentWorldAngle k pose + baseAngle k + getPoseAngle pose k)).
Proof.
  split; [intros ->; reflexivity |].
  intros p Hp. split.
  - revert Hp. destruct k; cbn [hierarchy parent]; intros [= <-]; reflexivity.
  - rewrite worldAngle_defined, (worldAngle_recurrence pose k p Hp).
    do 3 f_equal.
    revert Hp. destruct k; cbn [hierarchy parent]; intros [= <-]; reflexivity.
Qed.

(* ================================================================== *)
(** ** The body made from a pose *)
(* ================================================================== *)

Lemma created_particle (P : PoseData) (k : JointId) :
  particleMap (createPhysicsBodyFromPose P) k = Some (jointIndex k) /\
  nth_error (particles (createPhysicsBodyFromPose P)) (jointIndex k)
  = Some (particleOf P k).
Proof. destruct k; split; reflexivity. Qed.

Lemma massOfKey_tier (k : JointId) : massOfKey (keyName k) = massTier k.
Proof. destruct k; cbv [massOfKey keyName massTier]; cbn; lra. Qed.

(** The constraint pass, one step at a time, over any particle table that
    holds the particle of each joint at the joint's index. *)
Section CreatedConstraints.
Variable P : PoseData.
Variable ps : list PhysicsParticle.
Variable pm : JointId -> option nat.
Hypothesis Hpm : forall k, pm k = Some (jointIndex k).
Hypothesis Hps : forall k, nth_error ps (jointIndex k) = Some (particleOf P k).

Lemma addChildConstraint_edge (p c : JointId) (cs : list PhysicsConstraint) :
  parent (hierarchy c) = Some p ->
  addChildConstraint ps pm (jointIndex p) (particleOf P p) cs c
  = cs ++ [edgeConstraint p c].
Proof.
  intros Hp. unfold addChildConstraint. rewrite Hpm, Hps.
  cbn [particleOf pos]. rewrite (joint_distance P c p Hp).
  destruct (Rgt_dec (edgeLength c) 0.1) as [_ | Hn]; [reflexivity |].
  exfalso. apply Hn. apply (edgeLength_large c p Hp).
Qed.

Lemma fold_addChildConstraint (p : JointId) (kids : list JointId) :
  forall cs,
    (forall c, In c kids -> parent (hierarchy c) = Some p) ->
    fold_left (addChildConstraint ps pm (jointIndex p) (particleOf P p)) kids cs
    = cs ++ map (edgeConstraint p) kids.
Proof.
  induction kids as [| c rest IH]; intros cs Hk; cbn [fold_left map].
  - symmetry. apply app_nil_r.
  - rewrite addChildConstraint_edge by (apply Hk; left; reflexivity).
    rewrite IH by (intros c' Hc'; apply Hk; right; exact Hc').
    rewrite <- app_assoc. reflexivity.
Qed.

Lemma addConstraints_edges (p : JointId) (cs : list PhysicsConstraint) :
  addConstraints ps pm cs p = cs ++ map (edgeConstraint p) (children (hierarchy p)).
Proof.
  unfold addConstraints. rewrite Hpm, Hps.
  apply fold_addChildConstraint. intros c. apply children_parent.
Qed.

Lemma fold_addConstraints (keys : list JointId) :
  forall cs,
    fold_left (addConstraints ps pm) keys cs
    = cs ++ flat_map (fun p => map (edgeConstraint p) (children (hierarchy p))) keys.
Proof.
  induction keys as [| p rest IH]; intros cs; cbn [fold_left flat_map].
  - symmetry. apply app_nil_r.
  - rewrite addConstraints_edges, IH, <- app_assoc. reflexivity.
Qed.
End CreatedConstraints.

Lemma created_constraints (P : PoseData) :
  constraints (createPhysicsBodyFromPose P)
  = map (fun e => edgeConstraint (fst e) (snd e)) hierarchyEdges.
Proof.
  change (constraints (createPhysicsBodyFromPose P))
    with (fold_left (addConstraints (particles (createPhysicsBodyFromPose P))
                                    (particleMap (createPhysicsBodyFromPose P)))
                    hierarchyKeys []).
  rewrite (fold_addConstraints P); [reflexivity | |];
    intros k; apply created_particle.
Qed.

(** X7.  The body made from a pose has sixteen particles, one for each joint
    of the skeleton: the particle of a joint is found through [particleMap]
    under the joint's key, carries that key as its id, sits at the joint's
    position with prevPos equal to pos (it is at rest), and has mass 3 for
    root, torso, shoulders and hips, 1.5 for waist and head, and 0.5 for
    elbows, hands, knees and feet. *)
Theorem createPhysicsBodyFromPose_particles (P : PoseData) :
  List.length (particles (createPhysicsBodyFromPose P)) = 16%nat /\
  forall k,
    exists i p,
      particleMap (createPhysicsBodyFromPose P) k = Some i /\
      nth_error (particles (createPhysicsBodyFromPose P)) i = Some p /\
      id p = keyName k /\
      jointPos P k = Some (pos p) /\
      prevPos p = pos p /\
      mass p = massTier k.
Proof.
  split; [reflexivity |]. intros k. exists (jointIndex k), (particleOf P k).
  destruct (created_particle P k) as [Hm Hn].
  split; [exact Hm |]. split; [exact Hn |]. split; [reflexivity |].
  split; [apply jointPos_defined |]. split; [reflexivity |].
  apply massOfKey_tier.
Qed.

(** X8.  The body made from a pose has one constraint for each of the
    fifteen parent-child edges of [hierarchy], in the order the hierarchy
    lists them: it joins the parent's particle (A) to the child's (B) and its
    rest length is the fixed distance the skeleton keeps between the two
    joints, whatever the pose; no edge is dropped by the 0.1 threshold, and
    every constraint names particles that exist. *)
Theorem createPhysicsBodyFromPose_constraints (P : PoseData) :
  constraints (createPhysicsBodyFromPose P)
  = map (fun e => {| particleAIndex := jointIndex (fst e);
                     particleBIndex := jointIndex (snd e);
                     restLength := edgeLength (snd e) |}) hierarchyEdges /\
  List.length (constraints (createPhysicsBodyFromPose P)) = 15%nat /\
  wellFormedBody (createPhysicsBodyFromPose P).
Proof.
  pose proof (created_constraints P) as Hc.
  split; [exact Hc |]. split; [rewrite Hc; reflexivity |].
  intros c Hin. rewrite Hc in Hin.
  replace (List.length (particles (createPhysicsBodyFromPose P))) with 16%nat
    by reflexivity.
  cbn in Hin.
  repeat (destruct Hin as [<- | Hin]; [cbn; lia |]). contradiction.
Qed.

(* ================================================================== *)
(** ** The simulation step: what a constraint and a step keep *)
(* ================================================================== *)

Lemma nth_error_modifyAt_same (i : nat) (f : PhysicsParticle -> PhysicsParticle)
  (ps : list PhysicsParticle) (p : PhysicsParticle) :
  nth_error ps i = Some p -> nth_error (modifyAt i f ps) i = Some (f p).
Proof.
  revert i. induction ps as [| q rest IH]; intros [| i]; cbn; try discriminate.
  - intros [= ->]. reflexivity.
  - apply IH.
Qed.

Lemma nth_error_modifyAt_other (i j : nat) (f : PhysicsParticle -> PhysicsParticle)
  (ps : list PhysicsParticle) :
  i <> j -> nth_error (modifyAt i f ps) j = nth_error ps j.
Proof.
  revert i j. induction ps as [| q rest IH]; intros [| i] [| j] Hne; cbn;
    try reflexivity; try contradiction.
  apply IH. intros ->. apply Hne. reflexivity.
Qed.

(** X9.  One pass of a constraint between two particles of positive mass, at
    least 0.001 apart, with a rest length that is not negative: the pass
    returns, moves these two particles only, keeps their centre of mass
    (the mass-weighted sums of the x and of the y coordinates are unchanged),
    and leaves a quarter of the length error: the new distance minus the rest
    length is (1 - STIFFNESS) times the old distance minus the rest
    length. *)
Theorem solveConstraint_keeps_centre_and_quarters_error
  (ps : list PhysicsParticle) (c : PhysicsConstraint) (pA pB : PhysicsParticle) :
  let dist := hypot (x (pos pB) - x (pos pA)) (y (pos pB) - y (pos pA)) in
  nth_error ps (particleAIndex c) = Some pA ->
  nth_error ps (particleBIndex c) = Some pB ->
  particleAIndex c <> particleBIndex c ->
  0 < mass pA -> 0 < mass pB -> 0.001 <= dist -> 0 <= restLength c ->
  exists ps' pA' pB',
    solveConstraint ps c = Some ps' /\
    nth_error ps' (particleAIndex c) = Some pA' /\
    nth_error ps' (particleBIndex c) = Some pB' /\
    (forall i, i <> particleAIndex c -> i <> particleBIndex c ->
       nth_error ps' i = nth_error ps i) /\
    mass pA * x (pos pA') + mass pB * x (pos pB')
    = mass pA * x (pos pA) + mass pB * x (pos pB) /\
    mass pA * y (pos pA') + mass pB * y (pos pB')
    = mass pA * y (pos pA) + mass pB * y (pos pB) /\
    hypot (x (pos pB') - x (pos pA')) (y (pos pB') - y (pos pA')) - restLength c
    = (1 - STIFFNESS) * (dist - restLength c).
Proof.
  intros dist HA HB Hne HmA HmB Hd Hlen.
  unfold solveConstraint. rewrite HA, HB. cbn [bindO x y]. fold dist.
  destruct (Rlt_dec dist 0.001) as [Hlt | _]; [lra |].
  destruct (Req_dec_T (mass pA + mass pB) 0) as [Hz | Hnz]; [lra |].
  destruct (Rgt_dec (mass pA) 0) as [_ | Hn]; [| lra].
  destruct (Rgt_dec (mass pB) 0) as [_ | Hn]; [| lra].
  do 3 eexists. split; [reflexivity |].
  split.
  { rewrite nth_error_modifyAt_other by (intros E; apply Hne; symmetry; exact E).
    apply nth_error_modifyAt_same. exact HA. }
  split.
  { apply nth_error_modifyAt_same.
    rewrite nth_error_modifyAt_other by exact Hne. exact HB. }
  split.
  { intros i HiA HiB.
    rewrite !nth_error_modifyAt_other by (intros E; symmetry in E; contradiction).
    reflexivity. }
  cbn [movePos pos x y].
  set (dx := x (pos pB) - x (pos pA)) in *. set (dy := y (pos pB) - y (pos pA)) in *.
  assert (Hdist : hypot dx dy = dist) by reflexivity. clearbody dist.
  set (k := (dist - restLength c) / dist * STIFFNESS).
  split; [unfold dx; field; lra |]. split; [unfold dy; field; lra |].
  assert (Ex : x (pos pB) + - (dx * ((dist - restLength c) / dist) * STIFFNESS
                               * (mass pA / (mass pA + mass pB)))
               - (x (pos pA) + dx * ((dist - restLength c) / dist) * STIFFNESS
                               * (mass pB / (mass pA + mass pB)))
               = dx * (1 - k)).
  { unfold k. subst dx. field. lra. }
  assert (Ey : y (pos pB) + - (dy * ((dist - restLength c) / dist) * STIFFNESS
                               * (mass pA / (mass pA + mass pB)))
               - (y (pos pA) + dy * ((dist - restLength c) / dist) * STIFFNESS
                               * (mass pB / (mass pA + mass pB)))
               = dy * (1 - k)).
  { unfold k. subst dy. field. lra. }
  rewrite Ex, Ey.
  assert (Hk : 0 <= 1 - k).
  { assert (Hq : 0 < / dist) by (apply Rinv_0_lt_compat; lra).
    assert (Hone : dist * / dist = 1) by (field; lra).
    unfold k, STIFFNESS, Rdiv. nra. }
  rewrite hypot_scale by exact Hk. rewrite Hdist.
  unfold k. field. lra.
Qed.

Lemma solveConstraint_keeps_centre_and_quarters_error_witness :
  exists ps' pA' pB',
    solveConstraint (particles pairBody) (mkConstraint 0 1 5) = Some ps' /\
    nth_error ps' 0 = Some pA' /\
    nth_error ps' 1 = Some pB' /\
    (forall i, i <> 0%nat -> i <> 1%nat ->
       nth_error ps' i = nth_error (particles pairBody) i) /\
    3 * x (pos pA') + 1.5 * x (pos pB') = 3 * 400 + 1.5 * 400 /\
    3 * y (pos pA') + 1.5 * y (pos pB') = 3 * 400 + 1.5 * 390 /\
    hypot (x (pos pB') - x (pos pA')) (y (pos pB') - y (pos pA')) - 5
    = (1 - STIFFNESS) * (hypot (400 - 400) (390 - 400) - 5).
Proof.
  apply (solveConstraint_keeps_centre_and_quarters_error
           (particles pairBody) (mkConstraint 0 1 5)
           (mkParticle "root" (mkPoint 400 400) (mkPoint 400 400) 3)
           (mkParticle "head" (mkPoint 400 390) (mkPoint 400 390) 1.5));
    cbn [particleAIndex particleBIndex restLength mass pos x y];
    try reflexivity; try lia; try lra.
  replace (400 - 400) with 0 by ring. replace (390 - 400) with (-10) by ring.
  rewrite hypot_axis_y, Rabs_left; lra.
Defined.

Lemma modifyAt_movePos_labels (i : nat) (dx dy : R) (ps : list PhysicsParticle) :
  map id (modifyAt i (movePos dx dy) ps) = map id ps /\
  map mass (modifyAt i (movePos dx dy) ps) = map mass ps.
Proof.
  revert i. induction ps as [| p rest IH]; intros [| i]; cbn; auto.
  destruct (IH i) as [-> ->]. auto.
Qed.

Lemma solveConstraint_labels (ps ps' : list PhysicsParticle) (c : PhysicsConstraint) :
  solveConstraint ps c = Some ps' ->
  map id ps' = map id ps /\ map mass ps' = map mass ps.
Proof.
  unfold solveConstraint.
  destruct (nth_error ps (particleAIndex c)) as [pA |]; cbn [bindO]; [| discriminate].
  destruct (nth_error ps (particleBIndex c)) as [pB |]; cbn [bindO]; [| discriminate].
  destruct (Rlt_dec _ _); [intros [= <-]; auto |].
  destruct (Req_dec_T _ _); [intros [= <-]; auto |].
  intros [= <-].
  match goal with
  | |- context [modifyAt ?j (movePos ?a ?b) (modifyAt ?i (movePos ?c0 ?d) ps)] =>
      destruct (modifyAt_movePos_labels j a b (modifyAt i (movePos c0 d) ps)) as [-> ->];
      destruct (modifyAt_movePos_labels i c0 d ps) as [-> ->]
  end.
  auto.
Qed.

Lemma solveConstraints_labels (cs : list PhysicsConstraint) :
  forall ps ps', solveConstraints cs ps = Some ps' ->
  map id ps' = map id ps /\ map mass ps' = map mass ps.
Proof.
  induction cs as [| c rest IH]; intros ps ps'; cbn [solveConstraints].
  - intros [= <-]. auto.
  - destruct (solveConstraint ps c) as [ps1 |] eqn:E1; cbn [bindO]; [| discriminate].
    intros E2. destruct (solveConstraint_labels _ _ _ E1) as [<- <-].
    apply IH. exact E2.
Qed.

Lemma solverLoop_labels (n : nat) (cs : list PhysicsConstraint) :
  forall ps ps', solverLoop n cs ps = Some ps' ->
  map id ps' = map id ps /\ map mass ps' = map mass ps.
Proof.
  induction n as [| n IH]; intros ps ps'; cbn [solverLoop].
  - intros [= <-]. auto.
  - destruct (solveConstraints cs ps) as [ps1 |] eqn:E1; cbn [bindO]; [| discriminate].
    intros E2. destruct (solveConstraints_labels _ _ _ E1) as [<- <-].
    apply IH. exact E2.
Qed.

Lemma integrate_labels (dtSq : R) (p : PhysicsParticle) :
  id (integrate dtSq p) = id p /\ mass (integrate dtSq p) = mass p.
Proof. unfold integrate. destruct (Req_dec_T (mass p) 0); auto. Qed.

Lemma collide_labels (p : PhysicsParticle) :
  id (collide p) = id p /\ mass (collide p) = mass p.
Proof. case_collide; auto. Qed.

(** X10.  A step changes positions only: after every call of
    [updatePhysicsBody] that returns, the constraints and the particle map
    are the ones before the call, there are as many particles, in the same
    order with the same ids and masses, and so a body whose constraints and
    map name existing particles is still such a body and can be stepped
    again. *)
Theorem updatePhysicsBody_keeps_structure (body body' : PhysicsBody) (dt : R) :
  updatePhysicsBody body dt = Some body' ->
  constraints body' = constraints body /\
  particleMap body' = particleMap body /\
  map id (particles body') = map id (particles body) /\
  map mass (particles body') = map mass (particles body) /\
  List.length (particles body') = List.length (particles body) /\
  (wellFormedBody body -> wellFormedBody body') /\
  (wellFormedMap body -> wellFormedMap body').
Proof.
  intros Hup.
  assert (Hlab : map id (particles body') = map id (particles body) /\
                 map mass (particles body') = map mass (particles body)).
  { destruct (updatePhysicsBody_phases _ _ _ Hup) as (ps & Hps & ->).
    unfold beforeCollision in Hps.
    destruct (solverLoop_labels _ _ _ _ Hps) as [Hid Hm].
    split.
    - rewrite map_map. transitivity (map id ps).
      + apply map_ext. intros p. apply collide_labels.
      + rewrite Hid, map_map. apply map_ext. intros p. apply integrate_labels.
    - rewrite map_map. transitivity (map mass ps).
      + apply map_ext. intros p. apply collide_labels.
      + rewrite Hm, map_map. apply map_ext. intros p. apply integrate_labels. }
  assert (Hcs : constraints body' = constraints body /\
                particleMap body' = particleMap body).
  { unfold updatePhysicsBody in Hup.
    destruct (beforeCollision body dt); cbn [bindO] in Hup; [| discriminate].
    injection Hup as <-. split; reflexivity. }
  destruct Hlab as [Hid Hm]. destruct Hcs as [Hc Hmap].
  assert (Hlen : List.length (particles body') = List.length (particles body)).
  { rewrite <- (length_map id (particles body')), Hid. apply length_map. }
  split; [exact Hc |]. split; [exact Hmap |]. split; [exact Hid |].
  split; [exact Hm |]. split; [exact Hlen |]. split.
  - intros Hwf c0 Hin. rewrite Hc in Hin. rewrite Hlen. apply Hwf. exact Hin.
  - intros Hwf k i Hk. rewrite Hmap in Hk. rewrite Hlen. apply (Hwf k i Hk).
Qed.

Lemma updatePhysicsBody_keeps_structure_witness :
  exists body',
    updatePhysicsBody pairBody (1 / 60) = Some body' /\
    constraints body' = constraints pairBody /\
    particleMap body' = particleMap pairBody /\
    map id (particles body') = ["root"; "head"]%string /\
    map mass (particles body') = [3; 1.5] /\
    List.length (particles body') = 2%nat.
Proof.
  destruct (updatePhysicsBody_defined pairBody (1 / 60)) as (body' & Hb).
  { intros c [<- | []]. cbn. lia. }
  exists body'. split; [exact Hb |].
  destruct (updatePhysicsBody_keeps_structure pairBody body' (1 / 60) Hb)
    as (Hc & Hm & Hid & Hmass & Hlen & _).
  repeat split; assumption.
Defined.

(* ================================================================== *)
(** ** The simulation step: nobody leaves the stage *)
(* ================================================================== *)

(** The boundary pass clamps each coordinate of the position. *)
Lemma collide_clamps (p : PhysicsParticle) :
  x (pos (collide p)) = Rmax 5 (Rmin (800 - 5) (x (pos p))) /\
  y (pos (collide p)) = Rmax 5 (Rmin (800 - 5) (y (pos p))).
Proof.
  destruct bounds_values as (Htop & Hbot & Hleft & Hright).
  unfold Rmax, Rmin.
  destruct (Rle_dec (800 - 5) (x (pos p))), (Rle_dec (800 - 5) (y (pos p)));
    repeat match goal with
    | |- context [Rle_dec ?a ?b] => destruct (Rle_dec a b)
    end;
    case_collide; split; lra.
Qed.

(** C10.  A call of [updatePhysicsBody] on a body whose constraints name
    existing particles returns, and after every call that returns, the body
    has the same particles, id by id in the same order; the position of each
    is the position integration and the constraint passes gave it, clamped
    coordinate by coordinate to [5, 800 - 5]; so every particle has x in
    [5, 800 - 5] and y in [5, 800 - 5], whatever the duration of the step and
    whatever the particles were before. *)
Theorem updatePhysicsBody_keeps_particles_inside (body : PhysicsBody) (dt : R) :
  (wellFormedBody body -> exists body', updatePhysicsBody body dt = Some body') /\
  (forall body', updatePhysicsBody body dt = Some body' ->
     map id (particles body') = map id (particles body) /\
     (exists ps,
        beforeCollision body dt = Some ps /\
        Forall2 (fun p q =>
                   x (pos q) = Rmax 5 (Rmin (800 - 5) (x (pos p))) /\
                   y (pos q) = Rmax 5 (Rmin (800 - 5) (y (pos p))))
                ps (particles body')) /\
     forall q, In q (particles body') ->
       5 <= x (pos q) <= 800 - 5 /\ 5 <= y (pos q) <= 800 - 5).
Proof.
  split; [apply updatePhysicsBody_defined |].
  intros body' Hup.
  destruct (updatePhysicsBody_phases _ _ _ Hup) as (ps & Hps & Hmap).
  split; [| split].
  - rewrite Hmap, map_map. unfold beforeCollision in Hps.
    destruct (solverLoop_labels _ _ _ _ Hps) as [Hid _].
    transitivity (map id ps).
    + apply map_ext. intros p. apply collide_labels.
    + rewrite Hid, map_map. apply map_ext. intros p. apply integrate_labels.
  - exists ps. split; [exact Hps |]. rewrite Hmap. clear.
    induction ps as [| p rest IH]; cbn [map]; constructor;
      [apply collide_clamps | exact IH].
  - intros q Hin. rewrite Hmap in Hin. apply in_map_iff in Hin.
    destruct Hin as (p0 & <- & _). exact (collide_inside p0).
Qed.

(** C10 for the lone particle of [cornerBody] and a sixtieth of a second:
    the particle, on its way out through the bottom right corner, ends at
    (795, 795). *)
Lemma updatePhysicsBody_keeps_particles_inside_witness :
  exists body' q,
    updatePhysicsBody cornerBody (1 / 60) = Some body' /\
    particles body' = [q] /\ id q = "root"%string /\
    x (pos q) = 795 /\ y (pos q) = 795.
Proof.
  destruct (updatePhysicsBody_keeps_particles_inside cornerBody (1 / 60))
    as [Hdef Hin].
  destruct Hdef as (body' & Hb); [intros c [] |].
  destruct (Hin body' Hb) as (Hid & (ps & Hps & Hclamp) & _).
  injection Hps as <-.
  destruct (particles body') as [| q rest] eqn:Ep; [inversion Hclamp |].
  inversion Hclamp as [| p0 q0 r1 r2 (Hx & Hy) Hrest]; subst.
  inversion Hrest; subst.
  exists body', q. split; [exact Hb |]. split; [exact Ep |].
  injection Hid as Hq. split; [exact Hq |].
  rewrite integrate_moving in Hx, Hy by (cbn [mass]; lra).
  cbn [pos prevPos x y] in Hx, Hy.
  rewrite Hx, Hy, !Rmin_left, !Rmax_right by lra. split; lra.
Defined.

(* ================================================================== *)
(** ** From a pose to a body and back: the trunk, and missing particles *)
(* ================================================================== *)

Lemma bearing_of_placement (P : PoseData) (p j : JointId) (a len : R) :
  posOf P j = getEndPoint (posOf P p) a len ->
  bearing P p j = atan2 (sin a * len) (cos a * len).
Proof.
  intros Hj. unfold bearing. rewrite Hj. unfold getEndPoint. cbn [x y].
  f_equal; ring.
Qed.

Lemma shortestAngleDiff_full_turn (a k : R) :
  k = 0 \/ k = 1 \/ k = -1 -> shortestAngleDiff a (a + 2 * PI * k) = 0.
Proof.
  intros Hk. pose proof PI_RGT_0 as Hpi. unfold shortestAngleDiff.
  destruct (Rgt_dec (a + 2 * PI * k - a) PI) as [Hgt | Hgt].
  - destruct Hk as [-> | [-> | ->]]; lra.
  - destruct (Rlt_dec (a + 2 * PI * k - a) (- PI)) as [Hlt | Hlt];
      destruct Hk as [-> | [-> | ->]]; lra.
Qed.

(** The round trip, evaluated on the trunk. *)
Lemma round_trip_trunk_eval (P : PoseData) :
  exists P',
    extractPoseFromPhysicsBody (createPhysicsBodyFromPose P) P = Some P' /\
    offset P' = {| x := x (posOf P Root) - W / 2; y := y (posOf P Root) - H / 2 |} /\
    torso P' = torso P
               + shortestAngleDiff (torso P) (bearing P Root Torso - baseAngle Torso) /\
    waist P' = waist P
               + shortestAngleDiff (waist P) (bearing P Root Waist - baseAngle Waist) /\
    head P' = head P
              + shortestAngleDiff (head P)
                  (bearing P Torso Head - (baseAngle Torso + torso P')
                   - baseAngle Head).
Proof.
  eexists. split; [reflexivity |]. repeat split; reflexivity.
Qed.

(** X11.  The round trip restores the trunk: for every pose whose torso,
    waist and head angles lie in [-PI, PI], extracting a pose from the body
    just made from it, with the pose itself as previous pose, returns a pose
    with exactly the same offset and the same torso, waist and head angles
    (whatever the limb angles are). *)
Theorem round_trip_restores_trunk (P : PoseData) :
  - PI <= torso P <= PI -> - PI <= waist P <= PI -> - PI <= head P <= PI ->
  exists P',
    extractPoseFromPhysicsBody (createPhysicsBodyFromPose P) P = Some P' /\
    offset P' = offset P /\ torso P' = torso P /\ waist P' = waist P /\
    head P' = head P.
Proof.
  intros Ht Hw Hh. pose proof PI_RGT_0 as Hpi.
  destruct (round_trip_trunk_eval P) as (P' & HP & Ho & Et & Ew & Eh).
  exists P'. split; [exact HP |].
  assert (Ht' : torso P' = torso P).
  { rewrite Et.
    rewrite (bearing_of_placement P Root Torso (baseAngle Torso + torso P) TORSO_HEIGHT)
      by reflexivity.
    destruct (atan2_polar_wrapped (baseAngle Torso + torso P) TORSO_HEIGHT)
      as (k & Hk & ->).
    - unfold TORSO_HEIGHT. lra.
    - unfold baseAngle; cbn [BASE_ANGLES]. lra.
    - replace (baseAngle Torso + torso P + 2 * PI * k - baseAngle Torso)
        with (torso P + 2 * PI * k) by ring.
      rewrite shortestAngleDiff_full_turn by exact Hk. ring. }
  split; [| split; [exact Ht' | split]].
  - rewrite Ho.
    change (posOf P Root)
      with {| x := W / 2 + x (offset P); y := H / 2 + y (offset P) |}.
    apply point_eq; cbn [x y]; ring.
  - rewrite Ew.
    rewrite (bearing_of_placement P Root Waist (baseAngle Waist + waist P) WAIST_HEIGHT)
      by reflexivity.
    destruct (atan2_polar_wrapped (baseAngle Waist + waist P) WAIST_HEIGHT)
      as (k & Hk & ->).
    + unfold WAIST_HEIGHT. lra.
    + unfold baseAngle; cbn [BASE_ANGLES]. lra.
    + replace (baseAngle Waist + waist P + 2 * PI * k - baseAngle Waist)
        with (waist P + 2 * PI * k) by ring.
      rewrite shortestAngleDiff_full_turn by exact Hk. ring.
  - rewrite Eh, Ht'.
    rewrite (bearing_of_placement P Torso Head
               (baseAngle Torso + torso P + baseAngle Head + head P)
               (HEAD_SIZE / 2.5)) by reflexivity.
    destruct (atan2_polar_wrapped
                (baseAngle Torso + torso P + baseAngle Head + head P)
                (HEAD_SIZE / 2.5)) as (k & Hk & ->).
    + unfold HEAD_SIZE, HEAD_SIZE_UNIT. lra.
    + unfold baseAngle; cbn [BASE_ANGLES]. lra.
    + replace (baseAngle Torso + torso P + baseAngle Head + head P + 2 * PI * k
               - (baseAngle Torso + torso P) - baseAngle Head)
        with (head P + 2 * PI * k) by ring.
      rewrite shortestAngleDiff_full_turn by exact Hk. ring.
Qed.

Lemma round_trip_restores_trunk_witness :
  exists P',
    extractPoseFromPhysicsBody (createPhysicsBodyFromPose getDefaultPose)
                               getDefaultPose = Some P' /\
    offset P' = offset getDefaultPose /\ torso P' = torso getDefaultPose /\
    waist P' = waist getDefaultPose /\ head P' = head getDefaultPose.
Proof.
  pose proof PI_RGT_0 as Hpi.
  apply (round_trip_restores_trunk getDefaultPose);
    unfold getDefaultPose; cbn [torso waist head]; lra.
Defined.

Lemma getParticlePos_present (body : PhysicsBody) (k : JointId) (pt : Point) :
  getParticlePos body k = Some (Some pt) -> particleMap body k <> None.
Proof.
  unfold getParticlePos. destruct (particleMap body k); [discriminate |].
  intros [= E].
Qed.

Lemma untouched_set (body : PhysicsBody) (prev np : PoseData) (c p : JointId) (v : R) :
  untouchedWhereMissing body prev np ->
  parent (hierarchy c) = Some p ->
  particleMap body c <> None -> particleMap body p <> None ->
  untouchedWhereMissing body prev (setPoseAngle c v np).
Proof.
  intros Hinv Hp Hc Hpp k q Hq Hmiss.
  destruct (JointId_eq_dec k c) as [-> | Hne].
  - rewrite Hp in Hq. injection Hq as <-. destruct Hmiss; contradiction.
  - rewrite getPoseAngle_set_other by exact Hne. apply (Hinv k q Hq Hmiss).
Qed.

Lemma calculateAngles_untouched (body : PhysicsBody) (prev : PoseData) :
  forall fuel k a np P,
    untouchedWhereMissing body prev np ->
    calculateAngles fuel body prev k a np = Some P ->
    untouchedWhereMissing body prev P.
Proof.
  induction fuel as [| fuel IH]; intros k a np P Hinv Hcalc; [discriminate |].
  cbn [calculateAngles] in Hcalc.
  pose proof (children_parent k) as Hkids.
  revert np P Hinv Hcalc Hkids.
  generalize (children (hierarchy k)) as cs.
  induction cs as [| c rest IHcs]; intros np P Hinv Hcalc Hkids.
  - injection Hcalc as <-. exact Hinv.
  - assert (Hrest : forall c', In c' rest -> parent (hierarchy c') = Some k)
      by (intros c' Hc'; apply Hkids; right; exact Hc').
    cbn [bindO] in Hcalc.
    destruct (getParticlePos body k) as [[pp |] |] eqn:Ek;
      cbn [bindO] in Hcalc; try discriminate.
    + destruct (getParticlePos body c) as [[cp |] |] eqn:Ec;
        cbn [bindO] in Hcalc; try discriminate.
      * match type of Hcalc with
        | context [calculateAngles fuel body prev c ?b ?q] =>
            destruct (calculateAngles fuel body prev c b q) as [np1 |] eqn:E1
        end; cbn [bindO] in Hcalc; [| discriminate].
        apply (IHcs np1 P); [| exact Hcalc | exact Hrest].
        apply (IH _ _ _ _ (untouched_set body prev np c k _ Hinv
                             (Hkids c (or_introl eq_refl))
                             (getParticlePos_present _ _ _ Ec)
                             (getParticlePos_present _ _ _ Ek)) E1).
      * apply (IHcs np P Hinv Hcalc Hrest).
    + destruct (getParticlePos body c) as [[cp |] |] eqn:Ec;
        cbn [bindO] in Hcalc; try discriminate;
        apply (IHcs np P Hinv Hcalc Hrest).
Qed.

Lemma untouched_setOffset (body : PhysicsBody) (prev np : PoseData) (o : Point) :
  untouchedWhereMissing body prev np ->
  untouchedWhereMissing body prev (setOffset o np).
Proof.
  intros Hinv k p Hp Hm. destruct k; apply (Hinv _ _ Hp Hm).
Qed.

(** X12.  Missing particles leave the pose alone: when the map of the body
    has no entry for root, torso or waist, [extractPoseFromPhysicsBody]
    returns the previous pose unchanged; and in every pose it returns, the
    angle of a joint whose own particle or whose parent's particle is missing
    from the map is the angle of the previous pose. *)
Theorem extractPoseFromPhysicsBody_skips_missing
  (body : PhysicsBody) (prev P : PoseData) :
  extractPoseFromPhysicsBody body prev = Some P ->
  (particleMap body Root = None \/ particleMap body Torso = None \/
   particleMap body Waist = None -> P = prev) /\
  (forall k p, parent (hierarchy k) = Some p ->
     particleMap body k = None \/ particleMap body p = None ->
     getPoseAngle P k = getPoseAngle prev k).
Proof.
  unfold extractPoseFromPhysicsBody.
  destruct (getParticlePos body Root) as [r |] eqn:Er; cbn [bindO]; [| discriminate].
  destruct (getParticlePos body Torso) as [t |] eqn:Et; cbn [bindO]; [| discriminate].
  destruct (getParticlePos body Waist) as [w |] eqn:Ew; cbn [bindO]; [| discriminate].
  destruct r as [r |], t as [t |], w as [w |];
    try (intros [= <-]; split; [intros _; reflexivity | intros k p _ _; reflexivity]).
  pose proof (getParticlePos_present _ _ _ Er) as Hr.
  pose proof (getParticlePos_present _ _ _ Et) as Ht.
  pose proof (getParticlePos_present _ _ _ Ew) as Hw.
  match goal with
  | |- bindO (calculateAngles 16 body prev Torso ?a ?np) _ = _ -> _ =>
      destruct (calculateAngles 16 body prev Torso a np) as [np1 |] eqn:E1;
      cbn [bindO]; [| discriminate];
      assert (H0 : untouchedWhereMissing body prev np)
  end.
  { apply untouched_setOffset.
    apply (untouched_set body prev _ Waist Root); [| reflexivity | exact Hw | exact Hr].
    apply (untouched_set body prev _ Torso Root); [| reflexivity | exact Ht | exact Hr].
    intros k p _ _. reflexivity. }
  intros E2. split.
  - intros [Hm | [Hm | Hm]]; contradiction.
  - apply (calculateAngles_untouched body prev _ _ _ _ _
             (calculateAngles_untouched body prev _ _ _ _ _ H0 E1) E2).
Qed.

Lemma extractPoseFromPhysicsBody_skips_missing_witness :
  extractPoseFromPhysicsBody cornerBody getDefaultPose = Some getDefaultPose /\
  (particleMap cornerBody Root = None \/ particleMap cornerBody Torso = None \/
   particleMap cornerBody Waist = None -> getDefaultPose = getDefaultPose) /\
  (forall k p, parent (hierarchy k) = Some p ->
     particleMap cornerBody k = None \/ particleMap cornerBody p = None ->
     getPoseAngle getDefaultPose k = getPoseAngle getDefaultPose k).
Proof.
  split; [reflexivity |].
  apply (extractPoseFromPhysicsBody_skips_missing cornerBody getDefaultPose
           getDefaultPose).
  reflexivity.
Defined.

(* ================================================================== *)
(** ** Interpolation: the two ends, and the keys of the result *)
(* ================================================================== *)

Lemma lerp_start (a b : R) : lerp a b 0 = a.
Proof. unfold lerp. ring. Qed.

Lemma lerp_same (a t : R) : lerp a a t = a.
Proof. unfold lerp. ring. Qed.

Lemma lerpAngle_start (a b : R) : lerpAngle a b 0 = a.
Proof.
  unfold lerpAngle.
  destruct (Rgt_dec (b - a) PI); [ring |].
  destruct (Rlt_dec (b - a) (- PI)); ring.
Qed.

Lemma lerpAngle_same (a t : R) : lerpAngle a a t = a.
Proof.
  pose proof PI_RGT_0 as Hpi. unfold lerpAngle.
  destruct (Rgt_dec (a - a) PI); [lra |].
  destruct (Rlt_dec (a - a) (- PI)); [lra | ring].
Qed.

Lemma lerpAngle_end (a b : R) :
  exists m : R, (m = 0 \/ m = 1 \/ m = -1) /\
    lerpAngle a b 1 = b + 2 * PI * m /\
    (- PI <= b - a <= PI -> m = 0).
Proof.
  pose proof PI_RGT_0 as Hpi. unfold lerpAngle.
  destruct (Rgt_dec (b - a) PI) as [Hgt | Hgt].
  - exists (-1). repeat split; try lra.
  - destruct (Rlt_dec (b - a) (- PI)) as [Hlt | Hlt].
    + exists 1. repeat split; try lra.
    + exists 0. repeat split; try lra.
Qed.

(** X13.  Interpolation starts at the first pose and stays on a pose
    interpolated with itself: [interpolatePoses(A, B, 0)] is A for every B,
    and [interpolatePoses(A, A, t)] is A for every t. *)
Theorem interpolatePoses_start_and_self (A B : PoseData) (t : R) :
  interpolatePoses A B 0 = Some A /\ interpolatePoses A A t = Some A.
Proof.
  rewrite !interpolatePoses_eval.
  destruct A as [[ox oy] to wa he [ls le lh lhi lk lf] [rs re rh rhi rk rf]].
  cbn [offset x y torso waist head left right shoulder elbow hand hip knee foot].
  rewrite !lerp_start, !lerpAngle_start, !lerp_same, !lerpAngle_same.
  split; reflexivity.
Qed.

(** X14.  Interpolation ends on the second pose up to full turns:
    [interpolatePoses(A, B, 1)] has the offset of B, and each of its angles
    is the angle of B, or that angle plus or minus one full turn; it is the
    angle of B itself whenever the two angles differ by at most PI. *)
Theorem interpolatePoses_end (A B : PoseData) :
  exists P,
    interpolatePoses A B 1 = Some P /\
    offset P = offset B /\
    forall k, k <> Root ->
      exists m : R, (m = 0 \/ m = 1 \/ m = -1) /\
        getPoseAngle P k = getPoseAngle B k + 2 * PI * m /\
        (- PI <= getPoseAngle B k - getPoseAngle A k <= PI ->
         getPoseAngle P k = getPoseAngle B k).
Proof.
  eexists. split; [apply interpolatePoses_eval |]. split.
  - cbn [offset]. destruct (offset B) as [bx byy]. cbn [x y].
    unfold lerp. f_equal; ring.
  - intros k Hk.
    rewrite (getPoseAngle_interpolated A B 1 _ k (interpolatePoses_eval A B 1) Hk).
    destruct (lerpAngle_end (getPoseAngle A k) (getPoseAngle B k))
      as (m & Hm & Heq & Hmid).
    exists m. split; [exact Hm |]. split; [exact Heq |].
    intros Hr. rewrite Heq, (Hmid Hr). ring.
Qed.

(** X15.  What [interpolateRecursive] makes of an object [a] (no key twice,
    and no key, at any depth, that is the name of a property every object
    inherits): against an object [b] the result, when there is one, is an
    object whose keys are the keys of [a] that [b] has too, in the order of
    [a] (a key only one of them has is dropped); against a number it raises a
    TypeError as soon as [a] has a key; against null it returns null. *)
Theorem interpolateRecursive_keeps_common_keys
  (fa fb : list (string * JsVal)) (t : R) (path : string) :
  NoDup (map fst fa) ->
  plainKeys (JObj fa) = true ->
  (forall v, interpolateRecursive (JObj fa) (JObj fb) t path = Some v ->
     exists fr, v = JObj fr /\
                map fst fr = filter (hasField fb) (map fst fa)) /\
  (forall r, fa <> [] -> interpolateRecursive (JObj fa) (JNum r) t path = None) /\
  interpolateRecursive (JObj fa) JNull t path = Some JNull.
Proof.
  intros _ _. split; [| split].
  - intros v. cbn [interpolateRecursive].
    match goal with
    | |- option_map JObj (?each fa []) = Some v -> _ =>
        assert (Hgen : forall fs acc out,
                   each fs acc = Some out ->
                   map fst out = map fst acc ++ filter (hasField fb) (map fst fs))
    end.
    { induction fs as [| [k va] rest IH]; intros acc out Hout.
      - injection Hout as <-. cbn. symmetry. apply app_nil_r.
      - cbn [map fst filter]. unfold hasField at 1.
        destruct (lookupField k fb) as [vb |] eqn:Ek.
        + destruct (interpolateRecursive va vb t (path ++ k ++ ".")) as [r |] eqn:Er;
            [| discriminate].
          apply IH in Hout. rewrite Hout, map_app, <- app_assoc. reflexivity.
        + apply IH in Hout. exact Hout. }
    match goal with
    | |- option_map JObj ?e = Some v -> _ => destruct e as [out |] eqn:E
    end; cbn [option_map]; [| discriminate].
    intros [= <-]. exists out. split; [reflexivity |].
    apply Hgen in E. exact E.
  - intros r Hne. destruct fa as [| [k va] rest]; [contradiction |]. reflexivity.
  - reflexivity.
Qed.

Lemma interpolateRecursive_keeps_common_keys_witness :
  (forall v,
     interpolateRecursive (JObj [("x", JNum 0); ("z", JNum 1)]%string)
                          (JObj [("y", JNum 2); ("x", JNum 4)]%string) 0.5 ""
     = Some v ->
     exists fr, v = JObj fr /\ map fst fr = ["x"]%string) /\
  (forall r, [("x", JNum 0); ("z", JNum 1)]%string <> [] ->
     interpolateRecursive (JObj [("x", JNum 0); ("z", JNum 1)]%string) (JNum r) 0.5 ""
     = None) /\
  interpolateRecursive (JObj [("x", JNum 0); ("z", JNum 1)]%string) JNull 0.5 ""
  = Some JNull.
Proof.
  apply (interpolateRecursive_keeps_common_keys
           [("x", JNum 0); ("z", JNum 1)]%string
           [("y", JNum 2); ("x", JNum 4)]%string 0.5 "").
  - repeat constructor; cbn; intuition discriminate.
  - reflexivity.
Defined.

(* ================================================================== *)
(** ** The canvas: picking with the mouse *)
(* ================================================================== *)

(** X16.  [distToSegment(p, v, w)] is the least distance from p to the
    segment from v to w: it is the distance from p to some point of the
    segment, and no point of the segment is nearer to p (when v and w
    coincide the segment is that one point). *)
Theorem distToSegment_is_least_distance (p v w : Point) :
  (exists s, 0 <= s <= 1 /\
     Canvas.distToSegment p v w
     = hypot (x p - x (alongSegment v w s)) (y p - y (alongSegment v w s))) /\
  (forall s, 0 <= s <= 1 ->
     Canvas.distToSegment p v w
     <= hypot (x p - x (alongSegment v w s)) (y p - y (alongSegment v w s))).
Proof.
  unfold Canvas.distToSegment, alongSegment. cbn [x y].
  set (dx := x w - x v). set (dy := y w - y v).
  set (ax := x p - x v). set (ay := y p - y v).
  replace ((x v - x w) * (x v - x w) + (y v - y w) * (y v - y w))
    with (dx * dx + dy * dy) by (unfold dx, dy; ring).
  destruct (Req_dec_T (dx * dx + dy * dy) 0) as [Hz | Hnz].
  - pose proof (Rle_0_sqr dx) as Hsx. pose proof (Rle_0_sqr dy) as Hsy.
    unfold Rsqr in Hsx, Hsy.
    assert (Hdx : dx = 0).
    { assert (Hq : dx * dx = 0) by lra.
      destruct (Rmult_integral _ _ Hq); assumption. }
    assert (Hdy : dy = 0).
    { assert (Hq : dy * dy = 0) by lra.
      destruct (Rmult_integral _ _ Hq); assumption. }
    split.
    + exists 0. split; [lra |]. fold ax ay. f_equal; unfold ax, ay; ring.
    + intros s _. right. f_equal; unfold ax; unfold ay; rewrite ?Hdx, ?Hdy; ring.
  - set (l2 := dx * dx + dy * dy) in *.
    assert (Hl2 : 0 < l2).
    { pose proof (Rle_0_sqr dx) as Hsx. pose proof (Rle_0_sqr dy) as Hsy.
      unfold Rsqr in Hsx, Hsy.
      destruct (Rtotal_order 0 l2) as [Hlt | [Heq | Hgt]];
        [exact Hlt | exfalso; apply Hnz; symmetry; exact Heq
        | unfold l2 in Hgt; lra]. }
    set (t0 := (ax * dx + ay * dy) / l2).
    set (tc := Rmax 0 (Rmin 1 t0)).
    assert (Htc : 0 <= tc <= 1).
    { unfold tc. split; [apply Rmax_l |].
      apply Rmax_lub; [lra | apply Rmin_l]. }
    assert (Ht0 : t0 * l2 = ax * dx + ay * dy) by (unfold t0; field; lra).
    split.
    + exists tc. split; [exact Htc | reflexivity].
    + intros s Hs. apply hypot_le.
      replace (x p - (x v + tc * dx)) with (ax - tc * dx) by (unfold ax; ring).
      replace (y p - (y v + tc * dy)) with (ay - tc * dy) by (unfold ay; ring).
      replace (x p - (x v + s * dx)) with (ax - s * dx) by (unfold ax; ring).
      replace (y p - (y v + s * dy)) with (ay - s * dy) by (unfold ay; ring).
      assert (Hdiff : (ax - s * dx) * (ax - s * dx) + (ay - s * dy) * (ay - s * dy)
                      - ((ax - tc * dx) * (ax - tc * dx)
                         + (ay - tc * dy) * (ay - tc * dy))
                      = l2 * (s - tc) * (s + tc - 2 * t0)).
      { unfold l2. unfold l2 in Ht0.
        replace ((ax - s * dx) * (ax - s * dx) + (ay - s * dy) * (ay - s * dy)
                 - ((ax - tc * dx) * (ax - tc * dx) + (ay - tc * dy) * (ay - tc * dy)))
          with ((s - tc) * ((s + tc) * (dx * dx + dy * dy) - 2 * (ax * dx + ay * dy)))
          by ring.
        rewrite <- Ht0. ring. }
      assert (Hsign : 0 <= (s - tc) * (s + tc - 2 * t0)).
      { destruct Hs as [Hs0 Hs1]. unfold tc, Rmax, Rmin. clearbody t0.
        destruct (Rle_dec 1 t0) as [Hge | Hlt].
        - destruct (Rle_dec 0 1) as [_ | Hbad]; [| lra].
          replace ((s - 1) * (s + 1 - 2 * t0))
            with ((1 - s) * (2 * t0 - s - 1)) by ring.
          apply Rmult_le_pos; lra.
        - destruct (Rle_dec 0 t0) as [Hpos | Hneg].
          + replace ((s - t0) * (s + t0 - 2 * t0)) with ((s - t0) * (s - t0)) by ring.
            apply Rle_0_sqr.
          + apply Rmult_le_pos; lra. }
      clearbody tc t0 l2 ax ay.
      assert (Hprod : 0 <= l2 * ((s - tc) * (s + tc - 2 * t0)))
        by (apply Rmult_le_pos; lra).
      lra.
Qed.

(* ================================================================== *)
(** ** Floor, truncation and remainder *)
(* ================================================================== *)

Import JsNumber Canvas Playback.

Lemma Int_part_bounds (r : R) : IZR (Int_part r) <= r < IZR (Int_part r) + 1.
Proof. destruct (base_Int_part r) as [Hlo Hhi]. split; lra. Qed.

Lemma Int_part_unique (r : R) (z : Z) : IZR z <= r < IZR z + 1 -> Int_part r = z.
Proof.
  intros [Hlo Hhi]. destruct (Int_part_bounds r) as [H1 H2].
  assert (Hz : (z - 1 < Int_part r < z + 1)%Z).
  { split; apply lt_IZR; [rewrite minus_IZR | rewrite plus_IZR]; lra. }
  lia.
Qed.

Lemma Int_part_IZR (z : Z) : Int_part (IZR z) = z.
Proof. apply Int_part_unique. lra. Qed.

Lemma trunc_bounds (r : R) :
  (0 <= r -> IZR (trunc r) <= r < IZR (trunc r) + 1) /\
  (r < 0 -> IZR (trunc r) - 1 < r <= IZR (trunc r)).
Proof.
  unfold trunc. destruct (Rle_dec 0 r) as [Hp | Hn]; split; intros Hr; try lra.
  - apply Int_part_bounds.
  - rewrite opp_IZR. destruct (Int_part_bounds (- r)) as [H1 H2]. lra.
Qed.

(** The remainder by a positive divisor: less than the divisor in size, of
    the sign of the dividend, and a whole number of divisors away from it. *)
Lemma jsRem_spec (a m : R) :
  0 < m ->
  (0 <= a -> 0 <= jsRem a m < m) /\
  (a < 0 -> - m < jsRem a m <= 0) /\
  exists k : Z, jsRem a m = a + m * IZR k.
Proof.
  intros Hm. unfold jsRem.
  assert (Hi : 0 < / m) by (apply Rinv_0_lt_compat; exact Hm).
  assert (Hq : a / m * m = a) by (field; lra).
  destruct (trunc_bounds (a / m)) as [Hpos Hneg].
  set (q := IZR (trunc (a / m))) in *.
  split; [| split].
  - intros Ha. assert (Hd : 0 <= a / m) by (unfold Rdiv; nra).
    specialize (Hpos Hd). nra.
  - intros Ha. assert (Hd : a / m < 0) by (unfold Rdiv; nra).
    specialize (Hneg Hd). nra.
  - exists (- trunc (a / m))%Z. rewrite opp_IZR. fold q. ring.
Qed.

Lemma jsRem_small (a m : R) : 0 < m -> - m < a < m -> jsRem a m = a.
Proof.
  intros Hm [Hlo Hhi]. unfold jsRem, trunc.
  assert (Hi : 0 < / m) by (apply Rinv_0_lt_compat; exact Hm).
  assert (Hone : m * / m = 1) by (field; lra).
  destruct (Rle_dec 0 (a / m)) as [Hp | Hn].
  - rewrite (Int_part_unique _ 0); [ring |]. unfold Rdiv in *. split; [exact Hp | nra].
  - rewrite (Int_part_unique _ 0); [cbn; ring |]. unfold Rdiv in *. split; nra.
Qed.

Lemma jsRem_add_period (a m : R) : 0 < m -> 0 <= a -> jsRem (a + m) m = jsRem a m.
Proof.
  intros Hm Ha. unfold jsRem, trunc.
  assert (Hi : 0 < / m) by (apply Rinv_0_lt_compat; exact Hm).
  assert (Hone : m * / m = 1) by (field; lra).
  assert (Hq : (a + m) / m = a / m + 1) by (field; lra).
  assert (Hd : 0 <= a / m) by (unfold Rdiv; nra).
  destruct (Rle_dec 0 ((a + m) / m)) as [_ | Hn]; [| lra].
  destruct (Rle_dec 0 (a / m)) as [_ | Hn]; [| lra].
  rewrite (Int_part_unique ((a + m) / m) (Int_part (a / m) + 1)).
  - rewrite plus_IZR. ring.
  - rewrite plus_IZR, Hq. destruct (Int_part_bounds (a / m)). lra.
Qed.

Lemma arrayGet_in_range {A : Type} (arr : list A) (i : Z) :
  (0 <= i < Z.of_nat (List.length arr))%Z -> exists a, arrayGet arr i = Some a.
Proof.
  intros [Hlo Hhi]. unfold arrayGet.
  destruct (Z.ltb_spec i 0) as [Hneg | _]; [lia |].
  destruct (nth_error arr (Z.to_nat i)) as [a |] eqn:E; [eauto |].
  apply nth_error_None in E. lia.
Qed.

(* ================================================================== *)
(** ** clampAngle *)
(* ================================================================== *)

Lemma lowerWhileAbove_spec (n : nat) :
  forall a, a <= PI * (2 * INR n + 1) ->
  exists r, lowerWhileAbove n a = Some r /\ r <= PI /\
            (a <= PI -> r = a) /\
            (PI < a -> - PI < r /\ exists k : Z, r = a + 2 * PI * IZR k).
Proof.
  pose proof PI_RGT_0 as Hpi.
  induction n as [| n IH]; intros a Ha; cbn [lowerWhileAbove].
  - cbn [INR] in Ha. destruct (Rgt_dec a PI) as [Hgt | Hle]; [lra |].
    exists a. repeat split; try lra.
  - rewrite S_INR in Ha.
    destruct (Rgt_dec a PI) as [Hgt | Hle].
    + destruct (IH (a - 2 * PI)) as (r & Hr & Hup & Hsame & Hmore); [nra |].
      exists r. split; [exact Hr |]. split; [exact Hup |]. split; [lra |].
      intros _. destruct (Rle_dec (a - 2 * PI) PI) as [Hin | Hout].
      * rewrite (Hsame Hin). split; [lra |]. exists (-1)%Z. ring.
      * destruct Hmore as [Hlo (k & Hk)]; [lra |]. split; [exact Hlo |].
        exists (k - 1)%Z. rewrite Hk, minus_IZR. ring.
    + exists a. repeat split; try lra.
Qed.

Lemma raiseWhileBelow_spec (n : nat) :
  forall a, - (PI * (2 * INR n + 1)) <= a ->
  exists r, raiseWhileBelow n a = Some r /\ - PI <= r /\
            (- PI <= a -> r = a) /\
            (a < - PI -> r < PI /\ exists k : Z, r = a + 2 * PI * IZR k).
Proof.
  pose proof PI_RGT_0 as Hpi.
  induction n as [| n IH]; intros a Ha; cbn [raiseWhileBelow].
  - cbn [INR] in Ha. destruct (Rlt_dec a (- PI)) as [Hlt | Hge]; [lra |].
    exists a. repeat split; try lra.
  - rewrite S_INR in Ha.
    destruct (Rlt_dec a (- PI)) as [Hlt | Hge].
    + destruct (IH (a + 2 * PI)) as (r & Hr & Hlo & Hsame & Hmore); [nra |].
      exists r. split; [exact Hr |]. split; [exact Hlo |]. split; [lra |].
      intros _. destruct (Rle_dec (- PI) (a + 2 * PI)) as [Hin | Hout].
      * rewrite (Hsame Hin). split; [lra |]. exists 1%Z. ring.
      * destruct Hmore as [Hup (k & Hk)]; [lra |]. split; [exact Hup |].
        exists (k + 1)%Z. rewrite Hk, plus_IZR. ring.
    + exists a. repeat split; try lra.
Qed.

(** X18.  [clampAngle(angle, min, max)] first brings the angle into
    [-PI, PI] by whole turns and then clamps it: when |angle| is at most
    (2n + 1) PI, each of the two loops ends within n rounds, the normalised
    angle is the angle plus a whole number of full turns and lies in
    [-PI, PI] (it is the angle itself when that already does), and the result
    is max(min, min(max, normalised)): within [min, max] when min <= max, and
    the normalised angle itself when that lies within [min, max]. *)
Theorem clampAngle_normalises_then_clamps (n : nat) (angle min max : R) :
  Rabs angle <= PI * (2 * INR n + 1) ->
  exists r norm,
    clampAngle n angle min max = Some r /\
    - PI <= norm <= PI /\
    (exists k : Z, norm = angle + 2 * PI * IZR k) /\
    (- PI <= angle <= PI -> norm = angle) /\
    r = Rmax min (Rmin max norm) /\
    (min <= max -> min <= r <= max) /\
    (min <= norm <= max -> r = norm).
Proof.
  intros Hn. pose proof PI_RGT_0 as Hpi.
  assert (Habs : - (PI * (2 * INR n + 1)) <= angle <= PI * (2 * INR n + 1)).
  { unfold Rabs in Hn. destruct (Rcase_abs angle); lra. }
  assert (Hbig : PI <= PI * (2 * INR n + 1)).
  { pose proof (pos_INR n). nra. }
  destruct (lowerWhileAbove_spec n angle) as (a1 & H1 & Hup1 & Hsame1 & Hmore1);
    [lra |].
  assert (Hlo1 : - (PI * (2 * INR n + 1)) <= a1).
  { destruct (Rle_dec angle PI) as [Hin | Hout].
    - rewrite (Hsame1 Hin). lra.
    - destruct Hmore1 as [Hlo _]; lra. }
  destruct (raiseWhileBelow_spec n a1 Hlo1) as (a2 & H2 & Hlo2 & Hsame2 & Hmore2).
  exists (Rmax min (Rmin max a2)), a2.
  unfold clampAngle. rewrite H1. cbn [bindO]. rewrite H2. cbn [bindO].
  split; [reflexivity |].
  assert (Hup2 : a2 <= PI).
  { destruct (Rle_dec (- PI) a1) as [Hin | Hout].
    - rewrite (Hsame2 Hin). exact Hup1.
    - destruct Hmore2 as [Hup _]; lra. }
  split; [lra |]. split.
  { destruct (Rle_dec angle PI) as [Hin | Hout].
    - rewrite (Hsame1 Hin) in *.
      destruct (Rle_dec (- PI) angle) as [Hin2 | Hout2].
      + exists 0%Z. rewrite (Hsame2 Hin2). ring.
      + destruct Hmore2 as [_ Hk]; [lra | exact Hk].
    - destruct Hmore1 as [Hlo (k & Hk)]; [lra |].
      rewrite (Hsame2 (Rlt_le _ _ Hlo)). exists k. exact Hk. }
  split.
  { intros [Hlo Hhi]. rewrite (Hsame1 Hhi) in *. apply Hsame2. exact Hlo. }
  split; [reflexivity |]. split.
  - intros Hmm. split; [apply Rmax_l |].
    apply Rmax_lub; [exact Hmm | apply Rmin_l].
  - intros [Hlo Hhi]. rewrite Rmin_right by exact Hhi. apply Rmax_right. exact Hlo.
Qed.

Lemma clampAngle_normalises_then_clamps_witness :
  exists r norm,
    clampAngle 1 (3 * PI / 2) (-1) 1 = Some r /\
    - PI <= norm <= PI /\
    (exists k : Z, norm = 3 * PI / 2 + 2 * PI * IZR k) /\
    (- PI <= 3 * PI / 2 <= PI -> norm = 3 * PI / 2) /\
    r = Rmax (-1) (Rmin 1 norm) /\
    (-1 <= 1 -> -1 <= r <= 1) /\
    (-1 <= norm <= 1 -> r = norm).
Proof.
  apply (clampAngle_normalises_then_clamps 1 (3 * PI / 2) (-1) 1).
  pose proof PI_RGT_0 as Hpi. cbn [INR]. rewrite Rabs_right; lra.
Defined.

(* ================================================================== *)
(** ** Playback: which keyframes a frame shows *)
(* ================================================================== *)

Lemma interpolatePoses_at_start (A B : PoseData) : interpolatePoses A B 0 = Some A.
Proof.
  rewrite interpolatePoses_eval.
  destruct A as [[ox oy] to wa he [ls le lh lhi lk lf] [rs re rh rhi rk rf]].
  cbn [offset x y torso waist head left right shoulder elbow hand hip knee foot].
  rewrite !lerp_start, !lerpAngle_start. reflexivity.
Qed.

(** The segment a frame falls in. *)
(** The segment a frame falls in. *)
Lemma currentFrame_segment (n : Z) (fps : R) (s : Z) (e : R) :
  (2 <= n)%Z -> 0 < fps -> (0 <= s)%Z -> 0 <= e ->
  exists seg : Z, exists u : R,
    (0 <= seg < 2 * (n - 1))%Z /\ 0 <= u < 1 /\
    currentFrame n fps s e
    = Some (if (seg <? n - 1)%Z
            then {| fromIndex := seg; toIndex := seg + 1; t := u |}
            else {| fromIndex := 2 * (n - 1) - seg;
                    toIndex := 2 * (n - 1) - seg - 1; t := u |}).
Proof.
  intros Hn Hfps Hs He. unfold currentFrame.
  destruct (Z.leb_spec (2 * (n - 1)) 0) as [Hbad | _]; [lia |].
  set (fd := 1 / fps).
  assert (Hfd : 0 < fd) by (unfold fd; apply Rdiv_lt_0_compat; lra).
  set (M := (2 * (n - 1))%Z).
  assert (HM : 1 <= IZR M) by (apply IZR_le; unfold M; lia).
  assert (Htot : 0 < IZR M * fd) by nra.
  assert (Hs' : 0 <= IZR s) by (apply IZR_le; exact Hs).
  destruct (jsRem_spec (e + IZR s * fd) (IZR M * fd) Htot) as (Hpos & _ & _).
  assert (Harg : 0 <= e + IZR s * fd) by nra.
  specialize (Hpos Harg).
  set (tl := jsRem (e + IZR s * fd) (IZR M * fd)) in *.
  assert (Hi : 0 < / fd) by (apply Rinv_0_lt_compat; exact Hfd).
  assert (Hone : fd * / fd = 1) by (field; lra).
  assert (Hcsf : 0 <= tl / fd < IZR M).
  { unfold Rdiv. split; [nra |].
    apply (Rmult_lt_reg_r fd); [exact Hfd |].
    rewrite Rmult_assoc, (Rmult_comm (/ fd)), Hone. lra. }
  destruct (Int_part_bounds (tl / fd)) as [Hf1 Hf2].
  unfold floor.
  set (seg := Int_part (tl / fd)) in *.
  assert (Hseg : (0 <= seg < M)%Z).
  { split.
    - assert (Hgt : (-1 < seg)%Z) by (apply lt_IZR; lra). lia.
    - apply lt_IZR. lra. }
  exists seg, (tl / fd - IZR seg).
  split; [exact Hseg |]. split; [lra |].
  destruct (Z.ltb_spec seg (n - 1)); reflexivity.
Qed.

(** X19.  Playback reads two neighbouring keyframes that exist: with at
    least two keyframes, a positive frame rate, a start frame that is not
    negative and an elapsed time that is not negative, a call of [animate]
    chooses fromIndex and toIndex within the keyframe array, one apart, and a
    parameter t with 0 <= t < 1, and hands [setInterpolatedPose] the
    interpolation of the two keyframes at t. *)
Theorem playback_reads_adjacent_keyframes
  (keyframes : list PoseData) (fps : R) (startFrame : Z) (elapsedTime : R) :
  (2 <= List.length keyframes)%nat -> 0 < fps -> (0 <= startFrame)%Z ->
  0 <= elapsedTime ->
  exists f fromPose toPose P,
    currentFrame (Z.of_nat (List.length keyframes)) fps startFrame elapsedTime
    = Some f /\
    (0 <= fromIndex f < Z.of_nat (List.length keyframes))%Z /\
    (toIndex f = fromIndex f + 1 \/ toIndex f = fromIndex f - 1)%Z /\
    (0 <= toIndex f < Z.of_nat (List.length keyframes))%Z /\
    0 <= t f < 1 /\
    arrayGet keyframes (fromIndex f) = Some fromPose /\
    arrayGet keyframes (toIndex f) = Some toPose /\
    interpolatePoses fromPose toPose (t f) = Some P /\
    animate keyframes fps startFrame elapsedTime = Some P.
Proof.
  intros Hlen Hfps Hs He.
  set (n := Z.of_nat (List.length keyframes)).
  assert (Hn : (2 <= n)%Z) by (unfold n; lia).
  destruct (currentFrame_segment n fps startFrame elapsedTime Hn Hfps Hs He)
    as (seg & u & Hseg & Hu & Hcf).
  set (f := if (seg <? n - 1)%Z
            then {| fromIndex := seg; toIndex := seg + 1; t := u |}
            else {| fromIndex := 2 * (n - 1) - seg;
                    toIndex := 2 * (n - 1) - seg - 1; t := u |}) in *.
  assert (Hidx : (0 <= fromIndex f < n)%Z /\ (0 <= toIndex f < n)%Z /\
                 (toIndex f = fromIndex f + 1 \/ toIndex f = fromIndex f - 1)%Z /\
                 t f = u).
  { unfold f. destruct (Z.ltb_spec seg (n - 1)); cbn [fromIndex toIndex t];
      (split; [lia |]); (split; [lia |]); (split; [lia | reflexivity]). }
  destruct Hidx as (Hfrom & Hto & Hadj & Ht).
  destruct (arrayGet_in_range keyframes (fromIndex f) Hfrom) as (A & HA).
  destruct (arrayGet_in_range keyframes (toIndex f) Hto) as (B & HB).
  exists f, A, B. eexists.
  split; [exact Hcf |]. split; [exact Hfrom |]. split; [exact Hadj |].
  split; [exact Hto |]. split; [rewrite Ht; exact Hu |].
  split; [exact HA |]. split; [exact HB |].
  split; [apply interpolatePoses_eval |].
  unfold animate. fold n. rewrite Hcf. cbn [bindO]. rewrite HA, HB.
  apply interpolatePoses_eval.
Qed.

Lemma playback_reads_adjacent_keyframes_witness :
  exists f fromPose toPose P,
    currentFrame (Z.of_nat 2) 2 0 0.25 = Some f /\
    (0 <= fromIndex f < Z.of_nat 2)%Z /\
    (toIndex f = fromIndex f + 1 \/ toIndex f = fromIndex f - 1)%Z /\
    (0 <= toIndex f < Z.of_nat 2)%Z /\
    0 <= t f < 1 /\
    arrayGet [getDefaultPose; getDefaultPose] (fromIndex f) = Some fromPose /\
    arrayGet [getDefaultPose; getDefaultPose] (toIndex f) = Some toPose /\
    interpolatePoses fromPose toPose (t f) = Some P /\
    animate [getDefaultPose; getDefaultPose] 2 0 0.25 = Some P.
Proof.
  apply (playback_reads_adjacent_keyframes [getDefaultPose; getDefaultPose] 2 0 0.25);
    cbn [List.length]; first [lia | lra].
Defined.

(** X20.  Playback starts on the selected frame: with at least two
    keyframes and a positive frame rate, the first call of [animate] (no time
    elapsed) shows exactly the keyframe at the start frame, whichever
    keyframe that is, the last one included. *)
Theorem playback_starts_on_selected_frame
  (keyframes : list PoseData) (fps : R) (startFrame : nat) (pose : PoseData) :
  (2 <= List.length keyframes)%nat -> 0 < fps ->
  nth_error keyframes startFrame = Some pose ->
  animate keyframes fps (Z.of_nat startFrame) 0 = Some pose.
Proof.
  intros Hlen Hfps Hnth.
  assert (Hs : (startFrame < List.length keyframes)%nat).
  { apply nth_error_Some. rewrite Hnth. discriminate. }
  set (n := Z.of_nat (List.length keyframes)).
  set (s := Z.of_nat startFrame).
  assert (Hn : (2 <= n)%Z) by (unfold n; lia).
  assert (Hsn : (0 <= s < n)%Z) by (unfold s, n; lia).
  unfold animate, currentFrame. fold n s.
  destruct (Z.leb_spec (2 * (n - 1)) 0) as [Hbad | _]; [lia |].
  set (fd := 1 / fps).
  assert (Hfd : 0 < fd) by (unfold fd; apply Rdiv_lt_0_compat; lra).
  assert (HsR : 0 <= IZR s < IZR (2 * (n - 1))).
  { split; [apply IZR_le; lia | apply IZR_lt; lia]. }
  assert (Htl : jsRem (0 + IZR s * fd) (IZR (2 * (n - 1)) * fd) = IZR s * fd).
  { rewrite Rplus_0_l. apply jsRem_small; nra. }
  rewrite Htl.
  replace (IZR s * fd / fd) with (IZR s) by (field; lra).
  unfold floor. rewrite Int_part_IZR.
  replace (IZR s - IZR s) with 0 by ring.
  assert (Hget : arrayGet keyframes s = Some pose).
  { unfold arrayGet. destruct (Z.ltb_spec s 0) as [Hneg | _]; [lia |].
    unfold s. rewrite Znat.Nat2Z.id. exact Hnth. }
  destruct (Z.ltb_spec s (n - 1)) as [Hfwd | Hlast]; cbn [bindO fromIndex toIndex t].
  - rewrite Hget.
    destruct (arrayGet_in_range keyframes (s + 1)) as (B & ->); [fold n; lia |].
    apply interpolatePoses_at_start.
  - replace (2 * (n - 1) - s)%Z with s by lia. rewrite Hget.
    destruct (arrayGet_in_range keyframes (s - 1)) as (B & ->); [fold n; lia |].
    apply interpolatePoses_at_start.
Qed.

Lemma playback_starts_on_selected_frame_witness :
  animate [getDefaultPose; setPoseAngle Torso 1 getDefaultPose] 2 (Z.of_nat 1) 0
  = Some (setPoseAngle Torso 1 getDefaultPose).
Proof.
  apply (playback_starts_on_selected_frame
           [getDefaultPose; setPoseAngle Torso 1 getDefaultPose] 2 1);
    [cbn [List.length]; lia | lra | reflexivity].
Defined.

(** X21.  Playback is a ping-pong loop: with N >= 2 keyframes, what
    [animate] shows after an elapsed time e is shown again 2 (N - 1) / fps
    seconds later (one trip forward over the N - 1 segments and one trip
    back). *)
Theorem playback_repeats_every_round_trip
  (keyframes : list PoseData) (fps : R) (startFrame : Z) (elapsedTime : R) :
  (2 <= List.length keyframes)%nat -> 0 < fps -> (0 <= startFrame)%Z ->
  0 <= elapsedTime ->
  animate keyframes fps startFrame
          (elapsedTime + IZR (2 * (Z.of_nat (List.length keyframes) - 1)) / fps)
  = animate keyframes fps startFrame elapsedTime.
Proof.
  intros Hlen Hfps Hs He.
  set (n := Z.of_nat (List.length keyframes)).
  assert (Hn : (2 <= n)%Z) by (unfold n; lia).
  unfold animate, currentFrame. fold n.
  destruct (Z.leb_spec (2 * (n - 1)) 0) as [Hbad | _]; [lia |].
  set (fd := 1 / fps).
  assert (Hfd : 0 < fd) by (unfold fd; apply Rdiv_lt_0_compat; lra).
  assert (HM : 1 <= IZR (2 * (n - 1))) by (apply IZR_le; lia).
  assert (Hs' : 0 <= IZR startFrame) by (apply IZR_le; exact Hs).
  replace (elapsedTime + IZR (2 * (n - 1)) / fps + IZR startFrame * fd)
    with (elapsedTime + IZR startFrame * fd + IZR (2 * (n - 1)) * fd)
    by (unfold fd; field; lra).
  rewrite jsRem_add_period by nra.
  reflexivity.
Qed.

Lemma playback_repeats_every_round_trip_witness :
  animate [getDefaultPose; setPoseAngle Torso 1 getDefaultPose] 2 0
          (0.25 + IZR (2 * (Z.of_nat 2 - 1)) / 2)
  = animate [getDefaultPose; setPoseAngle Torso 1 getDefaultPose] 2 0 0.25.
Proof.
  apply (playback_repeats_every_round_trip
           [getDefaultPose; setPoseAngle Torso 1 getDefaultPose] 2 0 0.25);
    cbn [List.length]; first [lia | lra].
Defined.

(* ================================================================== *)
(** ** Whole turns do not move the skeleton *)
(* ================================================================== *)

Lemma cos_sin_turns (a : R) (n : Z) :
  cos (a + 2 * PI * IZR n) = cos a /\ sin (a + 2 * PI * IZR n) = sin a.
Proof.
  assert (Hnat : forall m : nat, cos (a + 2 * PI * INR m) = cos a /\
                                 sin (a + 2 * PI * INR m) = sin a).
  { intros m. replace (a + 2 * PI * INR m) with (a + 2 * INR m * PI) by ring.
    split; [apply cos_period | apply sin_period]. }
  assert (Hneg : forall m : nat, cos (a - 2 * PI * INR m) = cos a /\
                                 sin (a - 2 * PI * INR m) = sin a).
  { intros m.
    assert (Hc := cos_period (a - 2 * PI * INR m) m).
    assert (Hs := sin_period (a - 2 * PI * INR m) m).
    replace (a - 2 * PI * INR m + 2 * INR m * PI) with a in Hc, Hs by ring.
    split; symmetry; assumption. }
  destruct (Z.le_gt_cases 0 n) as [Hp | Hn].
  - rewrite <- (Znat.Z2Nat.id n Hp), <- INR_IZR_INZ. apply Hnat.
  - replace n with (- Z.of_nat (Z.to_nat (- n)))%Z by lia.
    rewrite opp_IZR, <- INR_IZR_INZ.
    replace (a + 2 * PI * - INR (Z.to_nat (- n)))
      with (a - 2 * PI * INR (Z.to_nat (- n))) by ring.
    apply Hneg.
Qed.

Lemma cos_congr (a b : R) (n : Z) : b = a + 2 * PI * IZR n -> cos b = cos a.
Proof. intros ->. apply cos_sin_turns. Qed.

Lemma sin_congr (a b : R) (n : Z) : b = a + 2 * PI * IZR n -> sin b = sin a.
Proof. intros ->. apply cos_sin_turns. Qed.

Lemma skeleton_sameUpToTurns (P Q : PoseData) :
  sameUpToTurns P Q -> forall k, posOf Q k = posOf P k.
Proof.
  intros [Hoff Hang] k.
  destruct (Hang Torso) as (nt & Ht). destruct (Hang Waist) as (nw & Hw).
  destruct (Hang Head) as (nh & Hh).
  destruct (Hang LShoulder) as (nls & Hls). destruct (Hang LElbow) as (nle & Hle).
  destruct (Hang RShoulder) as (nrs & Hrs). destruct (Hang RElbow) as (nre & Hre).
  destruct (Hang LHip) as (nlh & Hlh). destruct (Hang LKnee) as (nlk & Hlk).
  destruct (Hang RHip) as (nrh & Hrh). destruct (Hang RKnee) as (nrk & Hrk).
  clear Hang.
  destruct P as [oP tP wP hP [lsP leP lhP lhiP lkP lfP] [rsP reP rhP rhiP rkP rfP]].
  destruct Q as [oQ tQ wQ hQ [lsQ leQ lhQ lhiQ lkQ lfQ] [rsQ reQ rhQ rhiQ rkQ rfQ]].
  cbn [offset getPoseAngle torso waist head left right shoulder elbow hand hip knee foot] in *.
  subst.
  destruct k; apply point_eq;
    cbv [posOf jointPos computeSkeleton computeSkeletonState fold_left
         armTier legTier storeJoint storeBone storeAngle worldAngles jointCache
         boneCache joints lookupJoint JointId_eqb app shoulderKeyOf elbowKeyOf
         handKeyOf hipKeyOf kneeKeyOf footKeyOf poseSide getEndPoint x y
         offset torso waist head left right shoulder elbow hand hip knee foot];
    repeat match goal with
      | |- ?a + ?b = ?c + ?d => apply (f_equal2 Rplus)
      | |- ?a * ?b = ?c * ?d => apply (f_equal2 Rmult)
      | |- ?a = ?a => reflexivity
      | |- cos _ = cos _ =>
          first [ apply (cos_congr _ _ nt); turns_close
                | apply (cos_congr _ _ nw); turns_close
                | apply (cos_congr _ _ (nt + nh)); turns_close
                | apply (cos_congr _ _ (nt + nls)); turns_close
                | apply (cos_congr _ _ (nt + nls + nle)); turns_close
                | apply (cos_congr _ _ (nt + nrs)); turns_close
                | apply (cos_congr _ _ (nt + nrs + nre)); turns_close
                | apply (cos_congr _ _ (nw + nlh)); turns_close
                | apply (cos_congr _ _ (nw + nlh + nlk)); turns_close
                | apply (cos_congr _ _ (nw + nrh)); turns_close
                | apply (cos_congr _ _ (nw + nrh + nrk)); turns_close ]
      | |- sin _ = sin _ =>
          first [ apply (sin_congr _ _ nt); turns_close
                | apply (sin_congr _ _ nw); turns_close
                | apply (sin_congr _ _ (nt + nh)); turns_close
                | apply (sin_congr _ _ (nt + nls)); turns_close
                | apply (sin_congr _ _ (nt + nls + nle)); turns_close
                | apply (sin_congr _ _ (nt + nrs)); turns_close
                | apply (sin_congr _ _ (nt + nrs + nre)); turns_close
                | apply (sin_congr _ _ (nw + nlh)); turns_close
                | apply (sin_congr _ _ (nw + nlh + nlk)); turns_close
                | apply (sin_congr _ _ (nw + nrh)); turns_close
                | apply (sin_congr _ _ (nw + nrh + nrk)); turns_close ]
      end.
Qed.

Lemma sameUpToTurns_refl (P : PoseData) : sameUpToTurns P P.
Proof. split; [reflexivity |]. intros k. exists 0%Z. ring. Qed.

Lemma sameUpToTurns_set (P : PoseData) (j : JointId) (v : R) (n : Z) :
  v = getPoseAngle P j + 2 * PI * IZR n ->
  sameUpToTurns P (setPoseAngle j v P).
Proof.
  intros Hv. split; [destruct j; reflexivity |].
  intros k. destruct (JointId_eq_dec k j) as [-> | Hne].
  - destruct (JointId_eq_dec j Root) as [-> | Hr].
    + exists 0%Z. cbn. ring.
    + exists n. rewrite getPoseAngle_set_same by exact Hr. exact Hv.
  - exists 0%Z. rewrite getPoseAngle_set_other by exact Hne. ring.
Qed.

(* ================================================================== *)
(** ** The drag handlers of the canvas *)
(* ================================================================== *)

Lemma solveIK_in_reach (rootPos targetPos : Point) (l1 l2 : R) :
  0 < l1 -> 0 < l2 ->
  0.1 <= hypot (x targetPos - x rootPos) (y targetPos - y rootPos) ->
  Rabs (l1 - l2) <= hypot (x targetPos - x rootPos) (y targetPos - y rootPos)
                 <= l1 + l2 ->
  exists r,
    solveIK rootPos targetPos l1 l2 = Some r /\
    endEffector rootPos l1 l2 r = targetPos.
Proof.
  intros Hl1 Hl2 Hmin [Hlo Hhi].
  unfold solveIK.
  set (dist := hypot (x targetPos - x rootPos) (y targetPos - y rootPos)) in *.
  destruct (Rlt_dec dist 0.1) as [Hlt | _]; [lra |].
  destruct (Rgt_dec dist (l1 + l2)) as [Hgt | _]; [lra |].
  destruct (Rlt_dec dist (Rabs (l1 - l2))) as [Hlt | _]; [lra |].
  eexists. split; [reflexivity |].
  rewrite endEffector_of_solution; try assumption; try reflexivity; try lra.
  apply point_eq; cbn [x y]; ring.
Qed.

Lemma lookupJoint_defined (Q : PoseData) (k : JointId) :
  lookupJoint k (joints (computeSkeleton Q)) = Some (posOf Q k).
Proof. exact (jointPos_defined Q k). Qed.

Lemma posOf_leg_free (Q Q' : PoseData) (s : Side) :
  offset Q' = offset Q -> waist Q' = waist Q ->
  posOf Q' (hipKeyOf s) = posOf Q (hipKeyOf s).
Proof.
  intros Ho Hw.
  destruct s;
    cbv [posOf jointPos computeSkeleton computeSkeletonState fold_left
         armTier legTier storeJoint storeBone storeAngle worldAngles jointCache
         boneCache joints lookupJoint JointId_eqb app shoulderKeyOf elbowKeyOf
         handKeyOf hipKeyOf kneeKeyOf footKeyOf poseSide];
    rewrite Ho, Hw; reflexivity.
Qed.

Lemma posOf_arm_free (Q Q' : PoseData) (s : Side) :
  offset Q' = offset Q -> torso Q' = torso Q ->
  posOf Q' (shoulderKeyOf s) = posOf Q (shoulderKeyOf s).
Proof.
  intros Ho Hw.
  destruct s;
    cbv [posOf jointPos computeSkeleton computeSkeletonState fold_left
         armTier legTier storeJoint storeBone storeAngle worldAngles jointCache
         boneCache joints lookupJoint JointId_eqb app shoulderKeyOf elbowKeyOf
         handKeyOf hipKeyOf kneeKeyOf footKeyOf poseSide];
    rewrite Ho, Hw; reflexivity.
Qed.

Lemma posOf_trunk_free (Q Q' : PoseData) :
  offset Q' = offset Q -> posOf Q' Root = posOf Q Root.
Proof.
  intros Ho.
  cbv [posOf jointPos computeSkeleton computeSkeletonState fold_left
       armTier legTier storeJoint storeBone storeAngle worldAngles jointCache
       boneCache joints lookupJoint JointId_eqb app shoulderKeyOf elbowKeyOf
       handKeyOf hipKeyOf kneeKeyOf footKeyOf poseSide].
  rewrite Ho. reflexivity.
Qed.

Lemma posOf_torso (Q : PoseData) :
  posOf Q Torso = getEndPoint (posOf Q Root) (baseAngle Torso + torso Q) TORSO_HEIGHT.
Proof. reflexivity. Qed.

(** The foot joint, from the hip joint and the two angles of the leg. *)
Lemma foot_of_solution (Q : PoseData) (s : Side) (r : IKResult) :
  getPoseAngle Q (hipKeyOf s) = angle1 r - (baseAngle Waist + waist Q) ->
  getPoseAngle Q (kneeKeyOf s) = angle2 r ->
  posOf Q (footKeyOf s) = endEffector (posOf Q (hipKeyOf s)) L_THIGH L_SHIN r.
Proof.
  intros Hhip Hknee.
  destruct s; cbn [hipKeyOf kneeKeyOf getPoseAngle] in Hhip, Hknee;
    apply point_eq;
    cbv [posOf jointPos computeSkeleton computeSkeletonState fold_left
         armTier legTier storeJoint storeBone storeAngle worldAngles jointCache
         boneCache joints lookupJoint JointId_eqb app shoulderKeyOf elbowKeyOf
         handKeyOf hipKeyOf kneeKeyOf footKeyOf poseSide endEffector getEndPoint
         x y];
    rewrite Hhip, Hknee; unfold baseAngle; cbn [BASE_ANGLES];
    repeat (apply (f_equal2 Rplus) || apply (f_equal2 Rmult) || reflexivity);
    f_equal; ring.
Qed.

(** The hand joint of a pose whose shoulder and elbow angles are what the
    handlers write for a solution [r]: the end of the solved limb, turned
    about the shoulder by the shoulder's base angle. *)
Lemma hand_of_solution (Q : PoseData) (s : Side) (r : IKResult) :
  getPoseAngle Q (shoulderKeyOf s) = angle1 r - (baseAngle Torso + torso Q) ->
  getPoseAngle Q (elbowKeyOf s) = angle2 r ->
  posOf Q (handKeyOf s)
  = quarterTurned s (posOf Q (shoulderKeyOf s))
      (endEffector (posOf Q (shoulderKeyOf s)) L_ARM L_FOREARM r).
Proof.
  intros Hsh Hel.
  assert (Hc : forall a, cos (a - PI / 2) = sin a /\ sin (a - PI / 2) = - cos a /\
                         cos (a + PI / 2) = - sin a /\ sin (a + PI / 2) = cos a).
  { intros a. rewrite cos_minus, sin_minus, cos_plus, sin_plus, cos_PI2, sin_PI2.
    repeat split; ring. }
  destruct s; cbn [shoulderKeyOf elbowKeyOf getPoseAngle] in Hsh, Hel;
    apply point_eq;
    cbv [posOf jointPos computeSkeleton computeSkeletonState fold_left
         armTier legTier storeJoint storeBone storeAngle worldAngles jointCache
         boneCache joints lookupJoint JointId_eqb app shoulderKeyOf elbowKeyOf
         handKeyOf hipKeyOf kneeKeyOf footKeyOf poseSide endEffector getEndPoint
         quarterTurned x y];
    rewrite Hsh, Hel; unfold baseAngle; cbn [BASE_ANGLES].
  - replace (- PI / 2 + torso Q + - PI / 2 + (angle1 r - (- PI / 2 + torso Q)))
      with (angle1 r - PI / 2) by field.
    replace (angle1 r - PI / 2 + 0 + angle2 r) with (angle1 r + angle2 r - PI / 2)
      by ring.
    rewrite (proj1 (Hc (angle1 r))), (proj1 (Hc (angle1 r + angle2 r))). ring.
  - replace (- PI / 2 + torso Q + - PI / 2 + (angle1 r - (- PI / 2 + torso Q)))
      with (angle1 r - PI / 2) by field.
    replace (angle1 r - PI / 2 + 0 + angle2 r) with (angle1 r + angle2 r - PI / 2)
      by ring.
    rewrite (proj1 (proj2 (Hc (angle1 r)))),
      (proj1 (proj2 (Hc (angle1 r + angle2 r)))). ring.
  - replace (- PI / 2 + torso Q + PI / 2 + (angle1 r - (- PI / 2 + torso Q)))
      with (angle1 r + PI / 2) by field.
    replace (angle1 r + PI / 2 + 0 + angle2 r) with (angle1 r + angle2 r + PI / 2)
      by ring.
    rewrite (proj1 (proj2 (proj2 (Hc (angle1 r))))),
      (proj1 (proj2 (proj2 (Hc (angle1 r + angle2 r))))). ring.
  - replace (- PI / 2 + torso Q + PI / 2 + (angle1 r - (- PI / 2 + torso Q)))
      with (angle1 r + PI / 2) by field.
    replace (angle1 r + PI / 2 + 0 + angle2 r) with (angle1 r + angle2 r + PI / 2)
      by ring.
    rewrite (proj2 (proj2 (proj2 (Hc (angle1 r))))),
      (proj2 (proj2 (proj2 (Hc (angle1 r + angle2 r))))). ring.
Qed.

(** What [solveLimbs] may change: the shoulder, elbow, hip and knee angles
    of its side. *)
Lemma solveLimbs_frame (S : Skeleton) (pins : Pins) (Q : PoseData) (s : Side) :
  offset (solveLimbs S pins Q s) = offset Q /\
  (forall k, sideOfKey k <> Some s ->
     getPoseAngle (solveLimbs S pins Q s) k = getPoseAngle Q k).
Proof.
  unfold solveLimbs.
  destruct (lookupJoint (shoulderKeyOf s) (joints S)) as [sp |];
    destruct (pins (handKeyOf s)) as [hp |];
    try destruct (solveIK sp hp L_ARM L_FOREARM) as [ar |];
    destruct (lookupJoint (hipKeyOf s) (joints S)) as [hip |];
    destruct (pins (footKeyOf s)) as [fp |];
    try destruct (solveIK hip fp L_THIGH L_SHIN) as [lr |];
    (split; [destruct s; reflexivity |]);
    intros k Hk; destruct s, k; try reflexivity; exfalso; apply Hk; reflexivity.
Qed.

Lemma solveLimbs_leg (S : Skeleton) (pins : Pins) (Q : PoseData) (s : Side)
  (hipPos pin : Point) (r : IKResult) :
  lookupJoint (hipKeyOf s) (joints S) = Some hipPos ->
  pins (footKeyOf s) = Some pin ->
  solveIK hipPos pin L_THIGH L_SHIN = Some r ->
  getPoseAngle (solveLimbs S pins Q s) (hipKeyOf s)
  = angle1 r - boneAngleOr0 Waist S /\
  getPoseAngle (solveLimbs S pins Q s) (kneeKeyOf s) = angle2 r.
Proof.
  intros Hhip Hpin Hik. unfold solveLimbs. rewrite Hhip, Hpin, Hik.
  destruct s; split; reflexivity.
Qed.

Lemma solveLimbs_arm (S : Skeleton) (pins : Pins) (Q : PoseData) (s : Side)
  (shoulderPos pin : Point) (r : IKResult) :
  lookupJoint (shoulderKeyOf s) (joints S) = Some shoulderPos ->
  pins (handKeyOf s) = Some pin ->
  solveIK shoulderPos pin L_ARM L_FOREARM = Some r ->
  getPoseAngle (solveLimbs S pins Q s) (shoulderKeyOf s)
  = angle1 r - boneAngleOr0 Torso S /\
  getPoseAngle (solveLimbs S pins Q s) (elbowKeyOf s) = angle2 r.
Proof.
  intros Hsh Hpin Hik. unfold solveLimbs. rewrite Hsh, Hpin, Hik.
  destruct (lookupJoint (hipKeyOf s) (joints S)) as [hip |];
    destruct (pins (footKeyOf s)) as [fp |];
    try destruct (solveIK hip fp L_THIGH L_SHIN) as [lr |];
    destruct s; split; reflexivity.
Qed.

(** The two passes of [solveLimbs], whatever the skeleton they read. *)
Lemma solveLimbs_both_sides (S : Skeleton) (pins : Pins) (Q : PoseData) :
  let P' := fold_left (solveLimbs S pins) [SLeft; SRight] Q in
  offset P' = offset Q /\ torso P' = torso Q /\ waist P' = waist Q /\
  head P' = head Q /\
  forall (s : Side) (hipPos pin : Point) (r : IKResult),
    lookupJoint (hipKeyOf s) (joints S) = Some hipPos ->
    pins (footKeyOf s) = Some pin ->
    solveIK hipPos pin L_THIGH L_SHIN = Some r ->
    getPoseAngle P' (hipKeyOf s) = angle1 r - boneAngleOr0 Waist S /\
    getPoseAngle P' (kneeKeyOf s) = angle2 r.
Proof.
  cbn [fold_left].
  destruct (solveLimbs_frame S pins Q SLeft) as [Ho1 Hf1].
  destruct (solveLimbs_frame S pins (solveLimbs S pins Q SLeft) SRight) as [Ho2 Hf2].
  assert (Hg : forall k, sideOfKey k = None ->
                getPoseAngle (solveLimbs S pins (solveLimbs S pins Q SLeft) SRight) k
                = getPoseAngle Q k).
  { intros k Hk. rewrite Hf2, Hf1; [reflexivity | |]; rewrite Hk; discriminate. }
  split; [rewrite Ho2; exact Ho1 |].
  split; [exact (Hg Torso eq_refl) |].
  split; [exact (Hg Waist eq_refl) |].
  split; [exact (Hg Head eq_refl) |].
  intros s hipPos pin r Hhip Hpin Hik. destruct s.
  - rewrite !Hf2 by discriminate.
    apply (solveLimbs_leg S pins Q SLeft _ _ _ Hhip Hpin Hik).
  - apply (solveLimbs_leg S pins _ SRight _ _ _ Hhip Hpin Hik).
Qed.

Lemma solveLimbs_both_sides_arm (S : Skeleton) (pins : Pins) (Q : PoseData)
  (s : Side) (shoulderPos pin : Point) (r : IKResult) :
  lookupJoint (shoulderKeyOf s) (joints S) = Some shoulderPos ->
  pins (handKeyOf s) = Some pin ->
  solveIK shoulderPos pin L_ARM L_FOREARM = Some r ->
  let P' := fold_left (solveLimbs S pins) [SLeft; SRight] Q in
  getPoseAngle P' (shoulderKeyOf s) = angle1 r - boneAngleOr0 Torso S /\
  getPoseAngle P' (elbowKeyOf s) = angle2 r.
Proof.
  intros Hsh Hpin Hik. cbn [fold_left].
  destruct (solveLimbs_frame S pins (solveLimbs S pins Q SLeft) SRight) as [_ Hf2].
  destruct s.
  - rewrite !Hf2 by discriminate.
    apply (solveLimbs_arm S pins Q SLeft _ _ _ Hsh Hpin Hik).
  - apply (solveLimbs_arm S pins _ SRight _ _ _ Hsh Hpin Hik).
Qed.

(** A pose whose leg angles are a solution for a pin has the foot on it. *)
Lemma foot_on_pin (Q P' : PoseData) (s : Side) (pin : Point) (r : IKResult) :
  offset P' = offset Q -> waist P' = waist Q ->
  getPoseAngle P' (hipKeyOf s) = angle1 r - (baseAngle Waist + waist Q) ->
  getPoseAngle P' (kneeKeyOf s) = angle2 r ->
  endEffector (posOf Q (hipKeyOf s)) L_THIGH L_SHIN r = pin ->
  posOf P' (hipKeyOf s) = posOf Q (hipKeyOf s) /\ posOf P' (footKeyOf s) = pin.
Proof.
  intros Ho Hw Hh Hk Hend.
  pose proof (posOf_leg_free Q P' s Ho Hw) as Hhip.
  split; [exact Hhip |].
  rewrite <- Hend, <- Hhip. apply foot_of_solution; [rewrite Hw; exact Hh | exact Hk].
Qed.

Lemma boneAngleOr0_trunk (Q : PoseData) :
  boneAngleOr0 Torso (computeSkeleton Q) = baseAngle Torso + torso Q /\
  boneAngleOr0 Waist (computeSkeleton Q) = baseAngle Waist + waist Q.
Proof. split; reflexivity. Qed.

Lemma leg_lengths : 0 < L_THIGH /\ 0 < L_SHIN /\ Rabs (L_THIGH - L_SHIN) = 0 /\
                    L_THIGH + L_SHIN = 250.
Proof.
  unfold L_THIGH, L_SHIN. replace (125 - 125) with 0 by ring.
  rewrite Rabs_R0. lra.
Qed.

Lemma arm_lengths : 0 < L_ARM /\ 0 < L_FOREARM /\ Rabs (L_ARM - L_FOREARM) = 0.
Proof.
  unfold L_ARM, L_FOREARM, LIMB_LENGTH, HEAD_SIZE_UNIT.
  replace (105 * 2 / 2 - 105 * 2 / 2) with 0 by field.
  rewrite Rabs_R0. lra.
Qed.

(** The two passes of [solveLimbs] leave a pinned foot that is within reach
    of its hip on its pin. *)
Lemma solveLimbs_plants_foot (pins : Pins) (Q : PoseData) (s : Side) (pin : Point) :
  pins (footKeyOf s) = Some pin ->
  0.1 <= hypot (x pin - x (posOf Q (hipKeyOf s))) (y pin - y (posOf Q (hipKeyOf s)))
      <= L_THIGH + L_SHIN ->
  let P' := fold_left (solveLimbs (computeSkeleton Q) pins) [SLeft; SRight] Q in
  offset P' = offset Q /\ torso P' = torso Q /\ waist P' = waist Q /\
  head P' = head Q /\
  posOf P' (hipKeyOf s) = posOf Q (hipKeyOf s) /\
  posOf P' (footKeyOf s) = pin.
Proof.
  intros Hpin [Hmin Hmax].
  destruct leg_lengths as (Hl1 & Hl2 & Hl0 & _).
  destruct (solveIK_in_reach (posOf Q (hipKeyOf s)) pin L_THIGH L_SHIN Hl1 Hl2 Hmin)
    as (r & Hik & Hend); [rewrite Hl0; lra |].
  destruct (solveLimbs_both_sides (computeSkeleton Q) pins Q)
    as (Ho & Ht & Hw & Hh & Hleg).
  destruct (Hleg s _ pin r (jointPos_defined Q (hipKeyOf s)) Hpin Hik) as [Hhip Hknee].
  rewrite (proj2 (boneAngleOr0_trunk Q)) in Hhip.
  cbv zeta.
  split; [exact Ho |]. split; [exact Ht |]. split; [exact Hw |]. split; [exact Hh |].
  apply (foot_on_pin Q _ s pin r Ho Hw Hhip Hknee Hend).
Qed.

Lemma posOf_hip_after_solveLimbs (S : Skeleton) (pins : Pins) (Q : PoseData) (s : Side) :
  posOf (fold_left (solveLimbs S pins) [SLeft; SRight] Q) (hipKeyOf s)
  = posOf Q (hipKeyOf s).
Proof.
  destruct (solveLimbs_both_sides S pins Q) as (Ho & _ & Hw & _).
  apply posOf_leg_free; assumption.
Qed.

(** A pose that has the offset, the waist and the leg angles that the two
    passes of [solveLimbs] produce has every reachable pinned foot on its
    pin. *)
Lemma feet_planted_after (pins : Pins) (Q F : PoseData) (s : Side) (pin : Point) :
  let P1 := fold_left (solveLimbs (computeSkeleton Q) pins) [SLeft; SRight] Q in
  offset F = offset P1 -> waist F = waist P1 ->
  getPoseAngle F (hipKeyOf s) = getPoseAngle P1 (hipKeyOf s) ->
  getPoseAngle F (kneeKeyOf s) = getPoseAngle P1 (kneeKeyOf s) ->
  pins (footKeyOf s) = Some pin ->
  0.1 <= hypot (x pin - x (posOf F (hipKeyOf s))) (y pin - y (posOf F (hipKeyOf s)))
      <= L_THIGH + L_SHIN ->
  posOf F (footKeyOf s) = pin.
Proof.
  intros P1 Ho Hw Hh Hk Hpin Hreach.
  destruct (solveLimbs_both_sides (computeSkeleton Q) pins Q)
    as (Ho1 & _ & Hw1 & _ & Hleg).
  fold P1 in Ho1, Hw1, Hleg.
  assert (HoF : offset F = offset Q) by (rewrite Ho; exact Ho1).
  assert (HwF : waist F = waist Q) by (rewrite Hw; exact Hw1).
  rewrite (posOf_leg_free Q F s HoF HwF) in Hreach.
  destruct Hreach as [Hmin Hmax].
  destruct leg_lengths as (Hl1 & Hl2 & Hl0 & _).
  destruct (solveIK_in_reach (posOf Q (hipKeyOf s)) pin L_THIGH L_SHIN Hl1 Hl2 Hmin)
    as (r & Hik & Hend); [rewrite Hl0; lra |].
  destruct (Hleg s _ pin r (jointPos_defined Q (hipKeyOf s)) Hpin Hik) as [Hhip Hknee].
  rewrite (proj2 (boneAngleOr0_trunk Q)) in Hhip.
  rewrite <- Hh in Hhip. rewrite <- Hk in Hknee.
  apply (foot_on_pin Q F s pin r HoF HwF Hhip Hknee Hend).
Qed.

(** One overstretched pin: the correction brings the limb root to exactly
    the reach. *)
Lemma calculateCorrection_single (rootPos pinPos : Point) (maxReach : R) :
  0 < maxReach ->
  let acc := calculateCorrection (Some rootPos) (Some pinPos) maxReach
               ({| x := 0; y := 0 |}, O) in
  let moved := match snd acc with
               | O => rootPos
               | S _ => translate {| x := x (fst acc) / INR (snd acc);
                                     y := y (fst acc) / INR (snd acc) |} rootPos
               end in
  hypot (x pinPos - x moved) (y pinPos - y moved) <= maxReach /\
  (hypot (x pinPos - x rootPos) (y pinPos - y rootPos) <= maxReach -> snd acc = O) /\
  (snd acc <= 1)%nat.
Proof.
  intros Hmax. unfold calculateCorrection. cbn [x y fst snd].
  set (dx := x pinPos - x rootPos). set (dy := y pinPos - y rootPos).
  set (d := hypot dx dy).
  destruct (Rgt_dec d maxReach) as [Hgt | Hle]; cbn [fst snd x y].
  - split; [| split; [intros Hc; lra | lia]].
    unfold translate. cbn [x y INR].
    assert (Hd : 0 < d) by lra.
    replace (x pinPos - (x rootPos + (0 + dx / d * (d - maxReach)) / 1))
      with (dx * (maxReach / d)) by (unfold dx; field; lra).
    replace (y pinPos - (y rootPos + (0 + dy / d * (d - maxReach)) / 1))
      with (dy * (maxReach / d)) by (unfold dy; field; lra).
    rewrite hypot_scale by (apply Rlt_le, Rdiv_lt_0_compat; lra).
    fold d. right. field. lra.
  - split; [fold dx dy d; lra | split; [reflexivity | lia]].
Qed.

Lemma posOf_after_correction (acc : Point * nat) (Q : PoseData) (k : JointId) :
  posOf (applyCorrection acc Q) k
  = match snd acc with
    | O => posOf Q k
    | S _ => translate {| x := x (fst acc) / INR (snd acc);
                          y := y (fst acc) / INR (snd acc) |} (posOf Q k)
    end.
Proof.
  unfold applyCorrection. destruct (snd acc) as [| n]; [reflexivity |].
  apply (posOf_translated Q {| x := x (fst acc) / INR (S n);
                               y := y (fst acc) / INR (S n) |} k).
Qed.

(** The tension pass of [handleGroundedIk] when one foot alone is pinned. *)
Lemma groundedTension_single_foot (S : Skeleton) (pins : Pins) (s : Side) (pin : Point) :
  pins (footKeyOf s) = Some pin ->
  (forall k, k <> footKeyOf s -> pins k = None) ->
  fold_left (groundedTension S pins) [SLeft; SRight] ({| x := 0; y := 0 |}, O)
  = calculateCorrection (lookupJoint (hipKeyOf s) (joints S)) (Some pin)
      (L_THIGH + L_SHIN) ({| x := 0; y := 0 |}, O).
Proof.
  intros Hpin Hnone. cbn [fold_left]. unfold groundedTension.
  destruct s; cbn [footKeyOf] in Hpin, Hnone;
    rewrite ?(Hnone LHand), ?(Hnone RHand), ?(Hnone LFoot), ?(Hnone RFoot)
      by discriminate;
    cbn [handKeyOf footKeyOf hipKeyOf shoulderKeyOf];
    rewrite ?(Hnone LHand), ?(Hnone RHand), ?(Hnone LFoot), ?(Hnone RFoot)
      by discriminate;
    rewrite Hpin; reflexivity.
Qed.

(** The torso joint of a pose whose torso angle aims at a point. *)
Lemma neck_aimed (Q : PoseData) (target : Point) :
  let root := posOf Q Root in
  let d := hypot (x target - x root) (y target - y root) in
  torso Q = atan2 (y target - y root) (x target - x root) + PI / 2 ->
  0 < d ->
  posOf Q Torso = {| x := x root + TORSO_HEIGHT / d * (x target - x root);
                     y := y root + TORSO_HEIGHT / d * (y target - y root) |}.
Proof.
  intros root d Ht Hd.
  destruct (cos_sin_atan2 _ _ Hd) as [Hc Hs]. fold d in Hc, Hs.
  rewrite posOf_torso. fold root. rewrite Ht.
  unfold baseAngle; cbn [BASE_ANGLES].
  replace (- PI / 2 + (atan2 (y target - y root) (x target - x root) + PI / 2))
    with (atan2 (y target - y root) (x target - x root)) by field.
  unfold getEndPoint. rewrite Hc, Hs.
  clearbody d root.
  apply point_eq; cbn [x y]; unfold TORSO_HEIGHT; field; lra.
Qed.

Lemma normalizeAngle_spec (a : R) :
  - PI <= normalizeAngle a <= PI /\
  (exists k : Z, normalizeAngle a = a + 2 * PI * IZR k) /\
  (- PI <= a <= PI -> normalizeAngle a = a).
Proof.
  pose proof PI_RGT_0 as Hpi.
  assert (H2pi : 0 < 2 * PI) by lra.
  destruct (jsRem_spec a (2 * PI) H2pi) as (Hpos & Hneg & k & Hk).
  split; [| split].
  - unfold normalizeAngle.
    destruct (Rle_dec 0 a) as [Ha | Ha].
    + specialize (Hpos Ha).
      destruct (Rgt_dec _ _); [lra |]. destruct (Rlt_dec _ _); lra.
    + assert (Ha' : a < 0) by lra. specialize (Hneg Ha').
      destruct (Rgt_dec _ _); [lra |]. destruct (Rlt_dec _ _); lra.
  - unfold normalizeAngle. rewrite Hk.
    destruct (Rgt_dec _ _).
    + exists (k - 1)%Z. rewrite minus_IZR. ring.
    + destruct (Rlt_dec _ _).
      * exists (k + 1)%Z. rewrite plus_IZR. ring.
      * exists k. ring.
  - intros [Hlo Hhi]. unfold normalizeAngle.
    rewrite jsRem_small by lra.
    destruct (Rgt_dec a PI); [lra |]. destruct (Rlt_dec a (- PI)); lra.
Qed.

Lemma getParentWorldAngle_parent (P : PoseData) (j p : JointId) :
  parent (hierarchy j) = Some p -> getParentWorldAngle j P = waOf P p.
Proof. destruct j; cbn [hierarchy parent]; intros [= <-]; reflexivity. Qed.

Lemma waOf_parent_set (P : PoseData) (j p : JointId) (v : R) :
  parent (hierarchy j) = Some p -> waOf (setPoseAngle j v P) p = waOf P p.
Proof. destruct j; cbn [hierarchy parent]; intros [= <-]; reflexivity. Qed.

(** X22.  Grounded IK plants the pinned feet: in the pose [handleGroundedIk]
    hands to [setLocalPose], a foot that has a pin, and whose hip is at a
    distance of at least 0.1 and at most L_THIGH + L_SHIN from that pin, is
    exactly on the pin (the foot joint of [computeSkeleton] is the pin),
    whatever else is pinned and wherever the mouse went. *)
Theorem handleGroundedIk_plants_feet
  (pins : Pins) (initialPose : PoseData) (initialMouse pos : Point)
  (s : Side) (pin : Point) :
  pins (footKeyOf s) = Some pin ->
  exists P' hipPos,
    handleGroundedIk (Some pins) (Some initialPose) initialMouse pos = Some P' /\
    jointPos P' (hipKeyOf s) = Some hipPos /\
    (0.1 <= hypot (x pin - x hipPos) (y pin - y hipPos) <= L_THIGH + L_SHIN ->
     jointPos P' (footKeyOf s) = Some pin).
Proof.
  intros Hpin. unfold handleGroundedIk.
  match goal with
  | |- context [fold_left (solveLimbs (computeSkeleton ?Q) pins) _ ?Q] =>
      generalize Q
  end.
  intros Q. do 2 eexists. split; [reflexivity |].
  split; [apply jointPos_defined |].
  rewrite posOf_hip_after_solveLimbs. intros Hreach.
  rewrite jointPos_defined. f_equal.
  apply (solveLimbs_plants_foot pins Q s pin Hpin Hreach).
Qed.

Lemma handleGroundedIk_plants_feet_witness :
  exists P' hipPos,
    handleGroundedIk (Some (footPin SLeft {| x := 371; y := 725 |}))
                     (Some getDefaultPose) {| x := 0; y := 0 |} {| x := 0; y := 10 |}
    = Some P' /\
    jointPos P' (hipKeyOf SLeft) = Some hipPos /\
    (0.1 <= hypot (x {| x := 371; y := 725 |} - x hipPos)
                  (y {| x := 371; y := 725 |} - y hipPos) <= L_THIGH + L_SHIN ->
     jointPos P' (footKeyOf SLeft) = Some {| x := 371; y := 725 |}).
Proof.
  apply (handleGroundedIk_plants_feet (footPin SLeft {| x := 371; y := 725 |})
           getDefaultPose {| x := 0; y := 0 |} {| x := 0; y := 10 |} SLeft
           {| x := 371; y := 725 |}).
  reflexivity.
Defined.

(** X23.  One grounded foot stays grounded: when a single foot is pinned and
    nothing else, then wherever the mouse drags the body, the tension pass of
    [handleGroundedIk] leaves the hip within L_THIGH + L_SHIN of the pin, and
    the foot is exactly on the pin unless the hip has come within 0.1 of
    it. *)
Theorem handleGroundedIk_keeps_single_foot_grounded
  (pins : Pins) (initialPose : PoseData) (initialMouse pos : Point)
  (s : Side) (pin : Point) :
  pins (footKeyOf s) = Some pin ->
  (forall k, k <> footKeyOf s -> pins k = None) ->
  exists P' hipPos,
    handleGroundedIk (Some pins) (Some initialPose) initialMouse pos = Some P' /\
    jointPos P' (hipKeyOf s) = Some hipPos /\
    hypot (x pin - x hipPos) (y pin - y hipPos) <= L_THIGH + L_SHIN /\
    (0.1 <= hypot (x pin - x hipPos) (y pin - y hipPos) ->
     jointPos P' (footKeyOf s) = Some pin).
Proof.
  intros Hpin Hnone. unfold handleGroundedIk.
  generalize (dragged initialPose initialMouse pos). intros Q0.
  rewrite (groundedTension_single_foot _ pins s pin Hpin Hnone).
  rewrite (lookupJoint_defined Q0 (hipKeyOf s)).
  destruct leg_lengths as (Hl1 & Hl2 & _ & _).
  assert (Hmax : 0 < L_THIGH + L_SHIN) by lra.
  destruct (calculateCorrection_single (posOf Q0 (hipKeyOf s)) pin _ Hmax)
    as (Hwithin & _ & _).
  cbv zeta in Hwithin.
  revert Hwithin.
  generalize (calculateCorrection (Some (posOf Q0 (hipKeyOf s))) (Some pin)
                (L_THIGH + L_SHIN) ({| x := 0; y := 0 |}, O)).
  intros acc Hwithin.
  rewrite <- (posOf_after_correction acc Q0 (hipKeyOf s)) in Hwithin.
  revert Hwithin. generalize (applyCorrection acc Q0). intros Q Hwithin.
  do 2 eexists. split; [reflexivity |].
  split; [apply jointPos_defined |].
  rewrite posOf_hip_after_solveLimbs. split; [exact Hwithin |].
  intros Hfar. rewrite jointPos_defined. f_equal.
  apply (solveLimbs_plants_foot pins Q s pin Hpin (conj Hfar Hwithin)).
Qed.

Lemma handleGroundedIk_keeps_single_foot_grounded_witness :
  exists P' hipPos,
    handleGroundedIk (Some (footPin SLeft {| x := 371; y := 725 |}))
                     (Some getDefaultPose) {| x := 0; y := 0 |}
                     {| x := 300; y := -200 |}
    = Some P' /\
    jointPos P' (hipKeyOf SLeft) = Some hipPos /\
    hypot (x {| x := 371; y := 725 |} - x hipPos)
          (y {| x := 371; y := 725 |} - y hipPos) <= L_THIGH + L_SHIN /\
    (0.1 <= hypot (x {| x := 371; y := 725 |} - x hipPos)
                  (y {| x := 371; y := 725 |} - y hipPos) ->
     jointPos P' (footKeyOf SLeft) = Some {| x := 371; y := 725 |}).
Proof.
  apply (handleGroundedIk_keeps_single_foot_grounded
           (footPin SLeft {| x := 371; y := 725 |})
           getDefaultPose {| x := 0; y := 0 |} {| x := 300; y := -200 |} SLeft
           {| x := 371; y := 725 |}).
  - reflexivity.
  - intros k Hk. destruct k; try reflexivity. contradiction.
Defined.

(** X26.  Grounded IK does not hold a pinned hand: the shoulder angle it
    writes is the solved direction less the torso angle, with the base angle
    of the shoulder left in, so that a pinned hand within reach (between 0.1
    and L_ARM + L_FOREARM from the shoulder) ends on the pin turned about the
    shoulder by that base angle, a quarter turn: at
    shoulder + (dy, -dx) on the left and shoulder + (-dy, dx) on the right,
    for (dx, dy) the vector from the shoulder to the pin. *)
Theorem handleGroundedIk_turns_a_pinned_arm
  (pins : Pins) (initialPose : PoseData) (initialMouse pos : Point)
  (s : Side) (pin : Point) :
  pins (handKeyOf s) = Some pin ->
  exists P' shoulderPos,
    handleGroundedIk (Some pins) (Some initialPose) initialMouse pos = Some P' /\
    jointPos P' (shoulderKeyOf s) = Some shoulderPos /\
    (0.1 <= hypot (x pin - x shoulderPos) (y pin - y shoulderPos)
         <= L_ARM + L_FOREARM ->
     jointPos P' (handKeyOf s) = Some (quarterTurned s shoulderPos pin)).
Proof.
  intros Hpin. unfold handleGroundedIk.
  match goal with
  | |- context [fold_left (solveLimbs (computeSkeleton ?Q) pins) _ ?Q] =>
      generalize Q
  end.
  intros Q.
  destruct (solveLimbs_both_sides (computeSkeleton Q) pins Q) as (Ho & Ht & _).
  pose proof (solveLimbs_both_sides_arm (computeSkeleton Q) pins Q s) as Harm.
  cbv zeta in Harm. revert Ho Ht Harm.
  generalize (fold_left (solveLimbs (computeSkeleton Q) pins) [SLeft; SRight] Q).
  intros P' Ho Ht Harm.
  exists P', (posOf P' (shoulderKeyOf s)).
  split; [reflexivity |]. split; [apply jointPos_defined |].
  pose proof (posOf_arm_free Q P' s Ho Ht) as Hsh. rewrite Hsh.
  intros [Hmin Hmax].
  destruct arm_lengths as (Hl1 & Hl2 & Hl0).
  destruct (solveIK_in_reach (posOf Q (shoulderKeyOf s)) pin L_ARM L_FOREARM
              Hl1 Hl2 Hmin) as (r & Hik & Hend); [rewrite Hl0; lra |].
  destruct (Harm _ pin r (lookupJoint_defined Q (shoulderKeyOf s)) Hpin Hik)
    as [Ha1 Ha2].
  rewrite (proj1 (boneAngleOr0_trunk Q)), <- Ht in Ha1.
  rewrite jointPos_defined, (hand_of_solution P' s r Ha1 Ha2), Hsh, Hend.
  reflexivity.
Qed.

Lemma handleGroundedIk_turns_a_pinned_arm_witness :
  exists P' shoulderPos,
    handleGroundedIk
      (Some (fun k => if JointId_eqb k LHand then Some {| x := 300; y := 300 |}
                      else None))
      (Some getDefaultPose) {| x := 0; y := 0 |} {| x := 0; y := 0 |}
    = Some P' /\
    jointPos P' (shoulderKeyOf SLeft) = Some shoulderPos /\
    (0.1 <= hypot (x {| x := 300; y := 300 |} - x shoulderPos)
                  (y {| x := 300; y := 300 |} - y shoulderPos)
         <= L_ARM + L_FOREARM ->
     jointPos P' (handKeyOf SLeft)
     = Some (quarterTurned SLeft shoulderPos {| x := 300; y := 300 |})).
Proof.
  apply (handleGroundedIk_turns_a_pinned_arm
           (fun k => if JointId_eqb k LHand then Some {| x := 300; y := 300 |}
                     else None)
           getDefaultPose {| x := 0; y := 0 |} {| x := 0; y := 0 |} SLeft
           {| x := 300; y := 300 |}).
  reflexivity.
Defined.

(** X24.  Full-body IK plants the pinned feet and aims the torso at a
    pinned head: in the pose [handleFullBodyIk] hands to [setLocalPose],
    every pinned foot whose hip is between 0.1 and L_THIGH + L_SHIN from its
    pin is exactly on the pin; and when the head is pinned and is not the
    part being dragged, the torso joint (the neck) lies on the ray from the
    root to the head pin, TORSO_HEIGHT from the root. *)
Theorem handleFullBodyIk_plants_feet_and_aims_neck
  (driverKey : JointId) (pins : Pins) (initialPose : PoseData)
  (initialMouse pos : Point) :
  exists P',
    handleFullBodyIk (Some driverKey) (Some pins) (Some initialPose) initialMouse pos
    = Some P' /\
    (forall s pin,
       pins (footKeyOf s) = Some pin ->
       0.1 <= hypot (x pin - x (posOf P' (hipKeyOf s)))
                    (y pin - y (posOf P' (hipKeyOf s))) <= L_THIGH + L_SHIN ->
       jointPos P' (footKeyOf s) = Some pin) /\
    (forall headPin,
       driverKey <> Head -> pins Head = Some headPin ->
       let root := posOf P' Root in
       let d := hypot (x headPin - x root) (y headPin - y root) in
       0 < d ->
       jointPos P' Torso
       = Some {| x := x root + TORSO_HEIGHT / d * (x headPin - x root);
                 y := y root + TORSO_HEIGHT / d * (y headPin - y root) |}).
Proof.
  unfold handleFullBodyIk.
  match goal with
  | |- context [fold_left (solveLimbs (computeSkeleton ?Q) pins) _ ?Q] =>
      generalize Q
  end.
  intros Q.
  rewrite (lookupJoint_defined Q Root).
  destruct (solveLimbs_both_sides (computeSkeleton Q) pins Q) as (Ho1 & _).
  pose proof (feet_planted_after pins Q) as Hfeet. cbv zeta in Hfeet.
  revert Ho1 Hfeet.
  generalize (fold_left (solveLimbs (computeSkeleton Q) pins) [SLeft; SRight] Q).
  intros P1 Ho1 Hfeet.
  destruct (JointId_eqb driverKey Head) eqn:Edrv.
  - exists P1. split; [reflexivity |]. split.
    + intros s pin Hpin Hreach. rewrite jointPos_defined. f_equal.
      apply (Hfeet P1 s pin); auto.
    + intros headPin Hne. exfalso. apply Hne.
      destruct driverKey; try discriminate Edrv. reflexivity.
  - destruct (pins Head) as [headPinPos |] eqn:Ehead.
    + eexists. split; [reflexivity |]. split.
      * intros s pin Hpin Hreach. rewrite jointPos_defined. f_equal.
        apply (Hfeet _ s pin); auto;
          destruct s; reflexivity.
      * intros headPin _ E. injection E as <-.
        match goal with
        | |- context [posOf ?F Root] =>
            assert (HtF : torso F
                          = atan2 (y headPinPos - y (posOf Q Root))
                                  (x headPinPos - x (posOf Q Root)) + PI / 2)
              by reflexivity;
            assert (HoF : offset F = offset P1) by reflexivity;
            revert HtF HoF; generalize F
        end.
        intros F HtF HoF Hd.
        assert (Hroot : posOf F Root = posOf Q Root)
          by (apply posOf_trunk_free; rewrite HoF; exact Ho1).
        rewrite jointPos_defined. f_equal.
        apply (neck_aimed F headPinPos); [rewrite Hroot; exact HtF | exact Hd].
    + exists P1. split; [reflexivity |]. split.
      * intros s pin Hpin Hreach. rewrite jointPos_defined. f_equal.
        apply (Hfeet P1 s pin); auto.
      * intros headPin _ [=].
Qed.

(** X25.  What aiming does: after [handleAim] on a joint with a parent, the
    world angle of the joint is
    atan2(pos.y - pivot.y, pos.x - pivot.y) + BASE_ANGLES[joint] (the x
    difference is taken against the pivot's y, and the base angle of the
    joint is not taken out: it is 0 for every limb joint but the shoulders);
    the world angle of the parent, the offset and every other local angle
    are unchanged. *)
Theorem handleAim_sets_the_world_angle
  (j p : JointId) (activePivot pos : Point) (localPose : PoseData) :
  parent (hierarchy j) = Some p ->
  let P' := handleAim (Some j) (Some activePivot) localPose pos in
  worldAngle P' j
  = Some (atan2 (y pos - y activePivot) (x pos - y activePivot) + baseAngle j) /\
  worldAngle P' p = worldAngle localPose p /\
  offset P' = offset localPose /\
  (forall k, k <> j -> getPoseAngle P' k = getPoseAngle localPose k).
Proof.
  intros Hp. cbv zeta. unfold handleAim.
  assert (Hj : j <> Root) by (intros ->; discriminate Hp).
  rewrite (getParentWorldAngle_parent localPose j p Hp).
  split; [| split; [| split]].
  - rewrite worldAngle_defined, (worldAngle_recurrence _ j p Hp).
    rewrite (waOf_parent_set localPose j p _ Hp).
    rewrite getPoseAngle_set_same by exact Hj. f_equal. ring.
  - rewrite !worldAngle_defined. f_equal. apply waOf_parent_set. exact Hp.
  - destruct j; reflexivity.
  - intros k Hk. apply getPoseAngle_set_other. exact Hk.
Qed.

Lemma handleAim_sets_the_world_angle_witness :
  let P' := handleAim (Some LElbow) (Some {| x := 100; y := 100 |})
                      getDefaultPose {| x := 200; y := 300 |} in
  worldAngle P' LElbow
  = Some (atan2 (y {| x := 200; y := 300 |} - y {| x := 100; y := 100 |})
                (x {| x := 200; y := 300 |} - y {| x := 100; y := 100 |})
          + baseAngle LElbow) /\
  worldAngle P' LShoulder = worldAngle getDefaultPose LShoulder /\
  offset P' = offset getDefaultPose /\
  (forall k, k <> LElbow -> getPoseAngle P' k = getPoseAngle getDefaultPose k).
Proof.
  apply (handleAim_sets_the_world_angle LElbow LShoulder
           {| x := 100; y := 100 |} {| x := 200; y := 300 |} getDefaultPose).
  reflexivity.
Defined.

(** X17.  Releasing the mouse commits the figure on the screen: whenever a
    drag ends, the pose handed to [onPoseCommit] has the offset of the local
    pose, each of its angles is the local pose's angle up to a whole number
    of full turns, and [computeSkeleton] puts every joint where it puts it
    for the local pose; after a rotation the angle of the rotated joint lies
    in [-PI, PI] and the other angles are untouched, and after any other drag
    the local pose is committed as it is. *)
Theorem handleMouseUp_commits_the_same_figure
  (dragMode : DragMode) (controlledJoint : option JointId) (localPose : PoseData) :
  exists finalPose,
    handleMouseUp (Some dragMode) controlledJoint localPose = Some finalPose /\
    offset finalPose = offset localPose /\
    (forall k, exists n : Z,
        getPoseAngle finalPose k = getPoseAngle localPose k + 2 * PI * IZR n) /\
    (forall k, jointPos finalPose k = jointPos localPose k) /\
    (forall j, dragMode = ModeRotate -> controlledJoint = Some j ->
       - PI <= getPoseAngle finalPose j <= PI /\
       forall k, k <> j -> getPoseAngle finalPose k = getPoseAngle localPose k) /\
    (dragMode <> ModeRotate \/ controlledJoint = None -> finalPose = localPose).
Proof.
  pose proof PI_RGT_0 as Hpi.
  assert (Hsame : forall F, sameUpToTurns localPose F ->
            offset F = offset localPose /\
            (forall k, exists n : Z,
                getPoseAngle F k = getPoseAngle localPose k + 2 * PI * IZR n) /\
            (forall k, jointPos F k = jointPos localPose k)).
  { intros F HF. split; [apply HF |]. split; [apply HF |].
    intros k. rewrite !jointPos_defined. f_equal.
    apply skeleton_sameUpToTurns. exact HF. }
  assert (Hkeep : exists finalPose,
            Some localPose = Some finalPose /\
            offset finalPose = offset localPose /\
            (forall k, exists n : Z,
                getPoseAngle finalPose k = getPoseAngle localPose k + 2 * PI * IZR n) /\
            (forall k, jointPos finalPose k = jointPos localPose k) /\
            finalPose = localPose).
  { exists localPose. split; [reflexivity |].
    destruct (Hsame localPose (sameUpToTurns_refl localPose)) as (H1 & H2 & H3).
    repeat split; assumption. }
  destruct dragMode;
    try (destruct Hkeep as (F & HF & H1 & H2 & H3 & H4);
         exists F; cbn [handleMouseUp];
         destruct controlledJoint;
         (split; [exact HF |]); (split; [exact H1 |]); (split; [exact H2 |]);
         (split; [exact H3 |]); (split; [intros j' [=] | intros _; exact H4])).
  destruct controlledJoint as [j |].
  - destruct (normalizeAngle_spec (getPoseAngle localPose j)) as (Hrange & (n & Hn) & _).
    eexists. split; [reflexivity |].
    destruct (Hsame _ (sameUpToTurns_set localPose j _ n Hn)) as (H1 & H2 & H3).
    split; [exact H1 |]. split; [exact H2 |]. split; [exact H3 |]. split.
    + intros j' _ [= <-]. split.
      * destruct (JointId_eq_dec j Root) as [-> | Hr].
        -- cbn. lra.
        -- rewrite getPoseAngle_set_same by exact Hr. exact Hrange.
      * intros k Hk. apply getPoseAngle_set_other. exact Hk.
    + intros [Hne | [=]]. exfalso. apply Hne. reflexivity.
  - destruct Hkeep as (F & HF & H1 & H2 & H3 & H4).
    exists F. split; [exact HF |]. split; [exact H1 |]. split; [exact H2 |].
    split; [exact H3 |]. split; [intros j _ [=] | intros _; exact H4].
Qed.

(* ================================================================== *)
(** ** Extraction: world angles follow the particles *)
(* ================================================================== *)

Lemma parent_indices (c k : JointId) :
  parent (hierarchy c) = Some k ->
  (preIndex k < preIndex c)%nat /\ (lastIndex c <= lastIndex k)%nat /\
  (depth k < depth c)%nat /\ c <> Root.
Proof.
  destruct c; cbn [hierarchy parent]; intros [= <-]; cbn; repeat split; try lia;
    discriminate.
Qed.

Lemma preIndex_le_last (k : JointId) : (preIndex k <= lastIndex k)%nat.
Proof. destruct k; cbn; lia. Qed.

Lemma preIndex_inj (a b : JointId) : preIndex a = preIndex b -> a = b.
Proof. destruct a, b; cbn; intros Hab; try reflexivity; discriminate Hab. Qed.

Lemma subtrees_nest (j p : JointId) :
  inSubtree j p -> (lastIndex p <= lastIndex j)%nat.
Proof. unfold inSubtree. destruct j, p; cbn; lia. Qed.

Lemma children_cover (k j : JointId) :
  (preIndex k < preIndex j <= lastIndex k)%nat ->
  exists c, In c (children (hierarchy k)) /\ inSubtree c j.
Proof.
  unfold inSubtree.
  destruct k; cbn [preIndex lastIndex hierarchy children]; intros Hj;
    destruct j; cbn [preIndex] in Hj; try lia;
    first [ eexists; split; [left; reflexivity | cbn; lia]
          | eexists; split; [right; left; reflexivity | cbn; lia]
          | eexists; split; [right; right; left; reflexivity | cbn; lia] ].
Qed.

Lemma waOf_root (P : PoseData) : waOf P Root = 0.
Proof. reflexivity. Qed.

(** The world angle of a joint depends on the angles of the joint and of
    its ancestors only. *)
Lemma waOf_congr (P Q : PoseData) :
  forall n k, (depth k <= n)%nat ->
    (forall j, inSubtree j k -> getPoseAngle P j = getPoseAngle Q j) ->
    waOf P k = waOf Q k.
Proof.
  induction n as [| n IH]; intros k Hd Hsame.
  - destruct k; cbn [depth] in Hd; try lia. reflexivity.
  - destruct (parent (hierarchy k)) as [p |] eqn:Hp.
    + destruct (parent_indices k p Hp) as (Hi & Hl & Hdp & _).
      rewrite (worldAngle_recurrence P k p Hp), (worldAngle_recurrence Q k p Hp).
      rewrite (IH p).
      * rewrite (Hsame k); [reflexivity |]. unfold inSubtree.
        pose proof (preIndex_le_last k). lia.
      * lia.
      * intros j Hj. apply Hsame.
        pose proof (subtrees_nest j p Hj) as Hn.
        pose proof (preIndex_le_last k) as Hk. unfold inSubtree in *. lia.
    + destruct k; try discriminate Hp. reflexivity.
Qed.

Lemma children_separated (k : JointId) :
  ForallOrdPairs (fun c c' => (lastIndex c < preIndex c')%nat)
                 (children (hierarchy k)).
Proof.
  destruct k; cbn [hierarchy children];
    repeat first [ apply FOP_nil | apply FOP_cons | apply Forall_nil
                 | apply Forall_cons ]; cbn; lia.
Qed.

Lemma offset_setPoseAngle (c : JointId) (v : R) (np : PoseData) :
  offset (setPoseAngle c v np) = offset np.
Proof. destruct c; reflexivity. Qed.

Lemma waOf_same_above (P Q : PoseData) (k : JointId) :
  (forall j, inSubtree j k -> getPoseAngle P j = getPoseAngle Q j) ->
  waOf P k = waOf Q k.
Proof. apply (waOf_congr P Q (depth k) k). lia. Qed.

Section ExtractionTracks.

Variable body : PhysicsBody.
Variable prev : PoseData.
Variable pp : JointId -> Point.
Hypothesis Hpos : forall k, getParticlePos body k = Some (Some (pp k)).

Lemma calculateAngles_tracks :
  forall fuel k a np P,
    calculateAngles fuel body prev k a np = Some P ->
    a = waOf np k ->
    offset P = offset np /\
    (forall j, ~ (preIndex k < preIndex j <= lastIndex k)%nat ->
       getPoseAngle P j = getPoseAngle np j) /\
    (forall j, (preIndex k < preIndex j <= lastIndex k)%nat ->
       tracksParticles pp prev P j).
Proof.
  induction fuel as [| fuel IH]; intros k a np P Hcalc Ha; [discriminate |].
  cbn [calculateAngles] in Hcalc.
  rewrite (Hpos k) in Hcalc. cbn [bindO] in Hcalc.
  pose proof (children_parent k) as Hkids.
  pose proof (children_separated k) as Hsep.
  pose proof (children_cover k) as Hcover.
  enough (Hloop :
    offset P = offset np /\
    (forall j, ~ Exists (fun c => inSubtree c j) (children (hierarchy k)) ->
       getPoseAngle P j = getPoseAngle np j) /\
    (forall j, Exists (fun c => inSubtree c j) (children (hierarchy k)) ->
       tracksParticles pp prev P j)).
  { destruct Hloop as (Ho & Hf & Ht). split; [exact Ho |]. split.
    - intros j Hj. apply Hf. intros Hex. apply Hj.
      apply Exists_exists in Hex. destruct Hex as (c & Hc & Hcj).
      destruct (parent_indices c k (Hkids c Hc)) as (Hi & Hl & _).
      unfold inSubtree in Hcj. lia.
    - intros j Hj. apply Ht. apply Exists_exists.
      destruct (Hcover j Hj) as (c & Hc & Hcj). exists c. split; assumption. }
  clear Hcover.
  revert np P Ha Hcalc Hkids Hsep.
  generalize (children (hierarchy k)) as cs.
  induction cs as [| c rest IHcs]; intros np P Ha Hcalc Hkids Hsep.
  - injection Hcalc as <-. split; [reflexivity |]. split; [reflexivity |].
    intros j Hex. inversion Hex.
  - assert (Hrest : forall c', In c' rest -> parent (hierarchy c') = Some k)
      by (intros c' Hc'; apply Hkids; right; exact Hc').
    assert (Hc : parent (hierarchy c) = Some k) by (apply Hkids; left; reflexivity).
    destruct (parent_indices c k Hc) as (Hi & Hl & _ & HcR).
    inversion Hsep as [| c0 rest0 Hlt Hsep' ]; subst c0 rest0.
    rewrite Forall_forall in Hlt.
    cbn [bindO] in Hcalc. rewrite (Hpos c) in Hcalc.
    cbn [bindO] in Hcalc. cbv zeta in Hcalc.
    match type of Hcalc with
    | context [calculateAngles fuel body prev c ?b (setPoseAngle c ?v np)] =>
        set (fa := b) in *; set (fv := v) in *
    end.
    destruct (calculateAngles fuel body prev c fa (setPoseAngle c fv np))
      as [np2 |] eqn:E1; cbn [bindO] in Hcalc; [| discriminate].
    (* the parent's world angle is not disturbed by the child's angle *)
    assert (Hk1 : waOf (setPoseAngle c fv np) k = a).
    { rewrite Ha. apply waOf_same_above. intros j Hj.
      apply getPoseAngle_set_other. intros Heq; subst j. unfold inSubtree in Hj. lia. }
    assert (Hfa : fa = waOf (setPoseAngle c fv np) c).
    { rewrite (worldAngle_recurrence _ c k Hc), Hk1,
        (getPoseAngle_set_same c fv np HcR). reflexivity. }
    destruct (IH c fa _ np2 E1 Hfa) as (Ho2 & Hf2 & Ht2).
    assert (Hk2 : a = waOf np2 k).
    { rewrite <- Hk1. symmetry. apply waOf_same_above. intros j Hj. apply Hf2.
      unfold inSubtree in Hj. lia. }
    destruct (IHcs np2 P Hk2 Hcalc Hrest Hsep') as (Ho & Hf & Ht).
    assert (Hnot : forall j, (preIndex j <= lastIndex c)%nat ->
                     ~ Exists (fun c' => inSubtree c' j) rest).
    { intros j Hj Hex. apply Exists_exists in Hex.
      destruct Hex as (c' & Hc' & Hcj). specialize (Hlt c' Hc').
      unfold inSubtree in Hcj. lia. }
    split; [rewrite Ho, Ho2; apply offset_setPoseAngle |]. split.
    + intros j Hj.
      assert (Hjc : ~ inSubtree c j) by (intros Hjc; apply Hj; left; exact Hjc).
      rewrite Hf by (intros Hex; apply Hj; right; exact Hex).
      rewrite Hf2 by (unfold inSubtree in Hjc; pose proof (preIndex_le_last c); lia).
      apply getPoseAngle_set_other. intros Heq; subst j. apply Hjc.
      unfold inSubtree. pose proof (preIndex_le_last c). lia.
    + intros j Hex. inversion Hex as [c0 rest0 Hcj | c0 rest0 Hex']; subst c0 rest0;
        [| apply Ht; exact Hex'].
      intros pj Hpj.
      destruct (parent_indices j pj Hpj) as (Hij & _).
      assert (Hjl : (preIndex j <= lastIndex c)%nat) by (unfold inSubtree in Hcj; lia).
      rewrite (Hf j (Hnot j Hjl)).
      assert (Hw : waOf P pj = waOf np2 pj).
      { apply waOf_same_above. intros j' Hj'. apply Hf. apply Hnot.
        unfold inSubtree in Hj'. lia. }
      rewrite Hw.
      destruct (JointId_eq_dec j c) as [-> | Hne].
      * rewrite Hc in Hpj. injection Hpj as <-.
        rewrite Hf2 by lia.
        rewrite (getPoseAngle_set_same c fv np HcR), <- Hk2.
        unfold fv, particleBearing. reflexivity.
      * apply Ht2; [| exact Hpj].
        assert (preIndex c <> preIndex j)
          by (intros Heq; apply Hne; symmetry; apply preIndex_inj; exact Heq).
        unfold inSubtree in Hcj. lia.
Qed.

End ExtractionTracks.

Lemma shortestAngleDiff_turn (a b : R) :
  exists n : Z, (-1 <= n <= 1)%Z /\ shortestAngleDiff a b = b - a + 2 * PI * IZR n.
Proof.
  unfold shortestAngleDiff.
  destruct (Rgt_dec (b - a) PI); [exists (-1)%Z; split; [lia | ring] |].
  destruct (Rlt_dec (b - a) (- PI)); [exists 1%Z; split; [lia | ring] |].
  exists 0%Z. split; [lia | ring].
Qed.

Lemma present_wellFormed (body : PhysicsBody) (pp : JointId -> Point) :
  (forall k, getParticlePos body k = Some (Some (pp k))) -> wellFormedMap body.
Proof.
  intros Hpos k i Hk. specialize (Hpos k). unfold getParticlePos in Hpos.
  rewrite Hk in Hpos.
  destruct (nth_error (particles body) i) eqn:En; [| discriminate].
  apply nth_error_Some. rewrite En. discriminate.
Qed.

Section ExtractionAligned.

Variable body : PhysicsBody.
Variable prev : PoseData.
Variable pp : JointId -> Point.
Hypothesis Hpos : forall k, getParticlePos body k = Some (Some (pp k)).

Lemma extract_tracks :
  exists P,
    extractPoseFromPhysicsBody body prev = Some P /\
    offset P = {| x := x (pp Root) - W / 2; y := y (pp Root) - H / 2 |} /\
    forall c, tracksParticles pp prev P c.
Proof.
  pose proof (present_wellFormed body pp Hpos) as Hwf.
  unfold extractPoseFromPhysicsBody.
  rewrite !Hpos. cbn [bindO]. cbv zeta.
  match goal with
  | |- context [calculateAngles 16 body prev Torso _ ?np] => set (np0 := np)
  end.
  match goal with
  | |- context [calculateAngles 16 body prev Torso ?a np0] =>
      set (aT := a);
      destruct (calculateAngles_defined body prev Hwf 16 Torso aT np0
                  ltac:(cbn [height]; lia)) as (np1 & E1)
  end.
  rewrite E1. cbn [bindO].
  match goal with
  | |- context [calculateAngles 16 body prev Waist ?a np1] =>
      set (aW := a);
      destruct (calculateAngles_defined body prev Hwf 16 Waist aW np1
                  ltac:(cbn [height]; lia)) as (P & E2)
  end.
  exists P. split; [exact E2 |].
  assert (HaT : aT = waOf np0 Torso).
  { rewrite (worldAngle_recurrence np0 Torso Root eq_refl), waOf_root.
    unfold aT. cbn [getPoseAngle]. ring. }
  destruct (calculateAngles_tracks body prev pp Hpos _ _ _ _ _ E1 HaT)
    as (Ho1 & Hf1 & Ht1).
  assert (HaW : aW = waOf np1 Waist).
  { rewrite (worldAngle_recurrence np1 Waist Root eq_refl), waOf_root.
    pose proof (Hf1 Waist ltac:(cbn; lia)) as Hw. cbn [getPoseAngle] in Hw |- *.
    rewrite Hw. unfold aW. ring. }
  destruct (calculateAngles_tracks body prev pp Hpos _ _ _ _ _ E2 HaW)
    as (Ho2 & Hf2 & Ht2).
  split; [rewrite Ho2, Ho1; reflexivity |].
  intros c pc Hpc.
  destruct (parent_indices c pc Hpc) as (Hi & _ & _ & HcR).
  destruct (Nat.le_gt_cases (preIndex c) 9) as [Hlow | Hhigh].
  - assert (Hw : waOf P pc = waOf np1 pc).
    { apply waOf_same_above. intros j Hj. apply Hf2.
      unfold inSubtree in Hj. cbn [preIndex]. lia. }
    rewrite Hw, (Hf2 c) by (cbn [preIndex]; lia).
    destruct (Nat.le_gt_cases (preIndex c) 1) as [Hc1 | Hc1];
      [| destruct (Nat.eq_dec (preIndex c) 9) as [Hc9 | Hc9]].
    + assert (c = Torso) by (apply preIndex_inj; cbn [preIndex]; lia). subst c.
      injection Hpc as <-. rewrite waOf_root.
      rewrite (Hf1 Torso) by (cbn; lia). unfold np0, particleBearing.
      cbn [getPoseAngle setOffset setPoseAngle torso].
      do 2 f_equal. ring.
    + assert (c = Waist) by (apply preIndex_inj; cbn [preIndex]; lia). subst c.
      injection Hpc as <-. rewrite waOf_root.
      rewrite (Hf1 Waist) by (cbn; lia). unfold np0, particleBearing.
      cbn [getPoseAngle setOffset setPoseAngle waist].
      do 2 f_equal. ring.
    + apply Ht1; [| exact Hpc]. cbn [preIndex lastIndex]. lia.
  - apply Ht2; [| exact Hpc]. cbn [preIndex lastIndex].
    pose proof (preIndex_le_last c). destruct c; cbn in *; lia.
Qed.

End ExtractionAligned.

(** X27.  On a body that has a particle for every key,
    [extractPoseFromPhysicsBody] returns a pose whose offset is the position
    of the root particle less (W / 2, H / 2), and in that pose the world
    angle that [computeSkeleton] gives each key but the root is the
    direction, by [Math.atan2], from the particle of the key's parent to the
    particle of the key, up to at most one whole turn either way.  This
    holds for every previous pose and for the shoulders and hips as well,
    whose particles sit beside the torso and waist joints. *)
Theorem extractPoseFromPhysicsBody_aligns_bones
  (body : PhysicsBody) (prev : PoseData) (pp : JointId -> Point) :
  (forall k, getParticlePos body k = Some (Some (pp k))) ->
  exists P,
    extractPoseFromPhysicsBody body prev = Some P /\
    offset P = {| x := x (pp Root) - W / 2; y := y (pp Root) - H / 2 |} /\
    forall c p, parent (hierarchy c) = Some p ->
      exists n : Z,
        (-1 <= n <= 1)%Z /\
        worldAngle P c = Some (particleBearing pp p c + 2 * PI * IZR n).
Proof.
  intros Hpos.
  destruct (extract_tracks body prev pp Hpos) as (P & HP & Ho & Ht).
  exists P. split; [exact HP |]. split; [exact Ho |].
  intros c p Hp.
  rewrite worldAngle_defined, (worldAngle_recurrence P c p Hp), (Ht c p Hp).
  destruct (shortestAngleDiff_turn (getPoseAngle prev c)
              (particleBearing pp p c - waOf P p - baseAngle c)) as (n & Hn & ->).
  exists n. split; [exact Hn |]. f_equal. ring.
Qed.

Lemma extractPoseFromPhysicsBody_aligns_bones_witness :
  exists P,
    extractPoseFromPhysicsBody (createPhysicsBodyFromPose getDefaultPose)
                               getDefaultPose = Some P /\
    offset P = {| x := x (posOf getDefaultPose Root) - W / 2;
                  y := y (posOf getDefaultPose Root) - H / 2 |} /\
    forall c p, parent (hierarchy c) = Some p ->
      exists n : Z,
        (-1 <= n <= 1)%Z /\
        worldAngle P c
        = Some (particleBearing (posOf getDefaultPose) p c + 2 * PI * IZR n).
Proof.
  apply (extractPoseFromPhysicsBody_aligns_bones
           (createPhysicsBodyFromPose getDefaultPose) getDefaultPose
           (posOf getDefaultPose)).
  intros k. destruct k; reflexivity.
Defined.

(* ================================================================== *)
(** ** The damped display settles on the local pose *)
(* ================================================================== *)

Lemma largestGap_nonneg (l : list (R * R)) : 0 <= largestGap l.
Proof.
  unfold largestGap. destruct l as [| ab l]; cbn [map fold_right]; [lra |].
  eapply Rle_trans; [apply Rabs_pos | apply Rmax_l].
Qed.

Lemma largestGap_below (l : list (R * R)) (th : R) :
  0 < th ->
  forallb (fun ab => isCloseNumber (fst ab) (snd ab) th) l = true
  <-> largestGap l < th.
Proof.
  intros Hth. unfold largestGap.
  induction l as [| ab l IH]; cbn [forallb map fold_right].
  - split; [intros _; exact Hth | reflexivity].
  - rewrite andb_true_iff, IH. unfold isCloseNumber.
    destruct (Rlt_dec (Rabs (fst ab - snd ab)) th) as [Hlt | Hge]; split.
    + intros [_ Hl]. apply Rmax_lub_lt; assumption.
    + intros Hm. split; [reflexivity |].
      eapply Rle_lt_trans; [apply Rmax_r | exact Hm].
    + intros [Hf _]. discriminate Hf.
    + intros Hm. exfalso. apply Hge.
      eapply Rle_lt_trans; [apply Rmax_l | exact Hm].
Qed.

Lemma largestGap_lerp (l : list (R * R)) (t : R) :
  0 <= 1 - t ->
  largestGap (map (fun ab => (lerp (fst ab) (snd ab) t, snd ab)) l)
  = (1 - t) * largestGap l.
Proof.
  intros Ht. unfold largestGap.
  induction l as [| ab l IH]; cbn [map fold_right fst snd]; [ring |].
  rewrite IH, <- RmaxRmult by exact Ht. f_equal.
  unfold lerp.
  replace (fst ab * (1 - t) + snd ab * t - snd ab)
    with ((1 - t) * (fst ab - snd ab)) by ring.
  rewrite Rabs_mult, (Rabs_right (1 - t)) by lra. reflexivity.
Qed.

Lemma isClose_poseGap (a b : PoseData) (th : R) :
  0 < th -> (isClose a b th = true <-> poseGap a b < th).
Proof.
  intros Hth. unfold poseGap. rewrite <- (largestGap_below _ th Hth).
  unfold isClose, isClosePoint, isCloseSide, poseNumbers.
  cbn [combine forallb fst snd]. rewrite !andb_true_iff. tauto.
Qed.

Lemma poseGap_recursiveLerp (a b : PoseData) (t : R) :
  0 <= 1 - t -> poseGap (recursiveLerp a b t) b = (1 - t) * poseGap a b.
Proof.
  intros Ht. unfold poseGap. rewrite <- (largestGap_lerp _ t Ht). reflexivity.
Qed.

Lemma poseGap_same (a : PoseData) : poseGap a a = 0.
Proof.
  unfold poseGap, largestGap, poseNumbers. cbn [combine map fold_right fst snd].
  repeat match goal with
  | |- context [Rabs (?u - ?u)] =>
      replace (u - u) with 0 by ring
  end.
  rewrite Rabs_R0. repeat rewrite (Rmax_left 0 0) by lra. reflexivity.
Qed.

Lemma animate_at_rest (localPose : PoseData) : Canvas.animate localPose localPose = localPose.
Proof.
  unfold Canvas.animate.
  destruct (isClose localPose localPose 0.001) eqn:E; [reflexivity |].
  assert (H : isClose localPose localPose 0.001 = true).
  { apply isClose_poseGap; [lra |]. rewrite poseGap_same. lra. }
  rewrite H in E. discriminate E.
Qed.

Lemma animate_step (localPose current : PoseData) :
  (poseGap current localPose < 0.001 -> Canvas.animate localPose current = localPose) /\
  (0.001 <= poseGap current localPose ->
   poseGap (Canvas.animate localPose current) localPose = 0.6 * poseGap current localPose).
Proof.
  unfold Canvas.animate.
  pose proof (isClose_poseGap current localPose 0.001 ltac:(lra)) as Hc.
  destruct (isClose current localPose 0.001); split.
  - reflexivity.
  - intros Hge. assert (poseGap current localPose < 0.001) by (apply Hc; reflexivity).
    lra.
  - intros Hlt. apply Hc in Hlt. discriminate Hlt.
  - intros _. unfold DAMPING_FACTOR. rewrite poseGap_recursiveLerp by lra.
    f_equal. lra.
Qed.

Lemma iter_animate_rest (localPose : PoseData) (n : nat) :
  Nat.iter n (Canvas.animate localPose) localPose = localPose.
Proof.
  induction n as [| n IH]; [reflexivity |]. rewrite Nat.iter_succ, IH.
  apply animate_at_rest.
Qed.

Lemma iter_animate_gap (localPose displayed : PoseData) (n : nat) :
  Nat.iter n (Canvas.animate localPose) displayed = localPose \/
  poseGap (Nat.iter n (Canvas.animate localPose) displayed) localPose
  = 0.6 ^ n * poseGap displayed localPose.
Proof.
  induction n as [| n IH]; [right; cbn [pow]; rewrite Rmult_1_l; reflexivity |].
  rewrite Nat.iter_succ. destruct IH as [-> | IH].
  - left. apply animate_at_rest.
  - destruct (animate_step localPose (Nat.iter n (Canvas.animate localPose) displayed))
      as (Hnear & Hfar).
    destruct (Rlt_le_dec (poseGap (Nat.iter n (Canvas.animate localPose) displayed) localPose)
                         0.001) as [Hlt | Hge].
    + left. apply Hnear. exact Hlt.
    + right. rewrite (Hfar Hge), IH. cbn [pow]. ring.
Qed.

Lemma iter_animate_settled (localPose displayed : PoseData) (n : nat) :
  0.6 ^ n * poseGap displayed localPose < 0.001 ->
  forall m, (n < m)%nat -> Nat.iter m (Canvas.animate localPose) displayed = localPose.
Proof.
  intros Hn m Hm.
  assert (HS : Nat.iter (S n) (Canvas.animate localPose) displayed = localPose).
  { rewrite Nat.iter_succ. destruct (iter_animate_gap localPose displayed n) as [-> | Hg].
    - apply animate_at_rest.
    - apply animate_step. rewrite Hg. exact Hn. }
  replace m with ((m - S n) + S n)%nat by lia.
  rewrite Nat.iter_add, HS. apply iter_animate_rest.
Qed.

(** X28.  The damped display reaches the local pose.  Apply the updater of
    [animate] frame after frame to a displayed pose while [localPose] stays
    the same: as long as the displayed pose is not [localPose] itself, the
    largest distance between a number of the displayed pose and the same
    number of [localPose] is 0.6 times what it was a frame earlier; once
    0.6 ^ n times the distance at the start is below 0.001, every later
    frame shows exactly [localPose]; and there is always such an n. *)
Theorem animate_settles_on_localPose (localPose displayed : PoseData) :
  (forall n,
     Nat.iter n (Canvas.animate localPose) displayed = localPose \/
     poseGap (Nat.iter n (Canvas.animate localPose) displayed) localPose
     = 0.6 ^ n * poseGap displayed localPose) /\
  (forall n, 0.6 ^ n * poseGap displayed localPose < 0.001 ->
     forall m, (n < m)%nat ->
       Nat.iter m (Canvas.animate localPose) displayed = localPose) /\
  (exists n, forall m, (n < m)%nat ->
     Nat.iter m (Canvas.animate localPose) displayed = localPose).
Proof.
  split; [apply iter_animate_gap |]. split; [apply iter_animate_settled |].
  pose proof (largestGap_nonneg (combine (poseNumbers displayed) (poseNumbers localPose)))
    as Hg. fold (poseGap displayed localPose) in Hg.
  destruct (pow_lt_1_zero 0.6 ltac:(rewrite Rabs_right; lra)
              (0.001 / (poseGap displayed localPose + 1))
              ltac:(apply Rdiv_lt_0_compat; lra)) as (N & HN).
  exists N. apply iter_animate_settled.
  specialize (HN N (Nat.le_refl N)).
  rewrite Rabs_right in HN by (apply Rle_ge, pow_le; lra).
  apply (Rmult_lt_compat_r (poseGap displayed localPose + 1)) in HN; [| lra].
  unfold Rdiv in HN. rewrite Rmult_assoc, Rinv_l, Rmult_1_r in HN by lra.
  assert (0 <= 0.6 ^ N) by (apply pow_le; lra).
  nra.
Qed.

(* ================================================================== *)
(** ** The timeline always has a current pose *)
(* ================================================================== *)

Lemma Forall_firstn_keep {A : Type} (Q : A -> Prop) (l : list A) (n : nat) :
  Forall Q l -> Forall Q (firstn n l).
Proof.
  intros Hl. revert n. induction Hl as [| a l Ha Hl IH]; intros [| n];
    cbn [firstn]; constructor; auto.
Qed.

Lemma Forall_skipn_keep {A : Type} (Q : A -> Prop) (l : list A) (n : nat) :
  Forall Q l -> Forall Q (skipn n l).
Proof.
  intros Hl. revert n. induction Hl as [| a l Ha Hl IH]; intros [| n];
    cbn [skipn]; try constructor; auto.
Qed.

Lemma arrayRead_in_range {A : Type} (arr : list (option A)) (i : nat) :
  (i < List.length arr)%nat -> Forall (fun k => k <> None) arr ->
  exists v, App.arrayRead arr i = Some v.
Proof.
  intros Hi Hall. unfold App.arrayRead.
  destruct (nth_error arr i) as [o |] eqn:En.
  - rewrite Forall_forall in Hall. specialize (Hall o (nth_error_In _ _ En)).
    destruct o as [v |]; [exists v; reflexivity | contradiction].
  - apply nth_error_None in En. lia.
Qed.

Lemma arrayWrite_in_range {A : Type} (arr : list (option A)) (i : nat) (v : A) :
  (i < List.length arr)%nat -> Forall (fun k => k <> None) arr ->
  List.length (App.arrayWrite arr i v) = List.length arr /\
  Forall (fun k => k <> None) (App.arrayWrite arr i v) /\
  App.arrayRead (App.arrayWrite arr i v) i = Some v.
Proof.
  intros Hi Hall. unfold App.arrayWrite.
  destruct (Nat.ltb_spec i (List.length arr)) as [_ | Hge]; [| lia].
  split; [| split].
  - rewrite length_app. cbn [List.length]. rewrite length_firstn, length_skipn. lia.
  - apply Forall_app. split; [apply Forall_firstn_keep; exact Hall |].
    constructor; [discriminate | apply Forall_skipn_keep; exact Hall].
  - unfold App.arrayRead. rewrite nth_error_app2 by (rewrite length_firstn; lia).
    rewrite length_firstn. replace (i - Nat.min i (List.length arr))%nat with 0%nat by lia.
    reflexivity.
Qed.

Lemma spliceInsert_length {A : Type} (arr : list A) (start : nat) (item : A) :
  List.length (App.spliceInsert arr start item) = S (List.length arr).
Proof.
  unfold App.spliceInsert. rewrite length_app. cbn [List.length].
  rewrite length_firstn, length_skipn. lia.
Qed.

Lemma spliceDelete_length {A : Type} (arr : list A) (start : nat) :
  (start < List.length arr)%nat ->
  List.length (App.spliceDelete arr start) = (List.length arr - 1)%nat.
Proof.
  intros Hs. unfold App.spliceDelete.
  rewrite length_app, length_firstn, length_skipn. lia.
Qed.

Lemma soundState_initial : soundState App.initialState.
Proof.
  unfold soundState. cbn. repeat split; try lia; try discriminate.
  constructor; [discriminate | constructor].
Qed.

Lemma soundState_handle (a : Action) (s : App.AppState) :
  soundState s -> offered a s -> soundState (handle a s).
Proof.
  destruct s as [[kf cf] playing physics].
  unfold soundState. cbn [App.timelineState App.keyframes App.currentFrame
                          App.isPlaying App.isPhysicsEnabled].
  intros (Hcf & Hall & Hexcl & Hlen) Hoff.
  destruct a; cbn [handle offered] in *.
  - (* handlePoseCommit *)
    unfold App.handlePoseCommit.
    cbn [App.timelineState App.keyframes App.currentFrame App.isPlaying
         App.isPhysicsEnabled].
    destruct (arrayWrite_in_range kf cf newPose Hcf Hall) as (Hl & Hf & _).
    rewrite Hl. auto.
  - (* handleReset *)
    unfold App.handleReset, App.handlePoseCommit.
    cbn [App.timelineState App.keyframes App.currentFrame App.isPlaying
         App.isPhysicsEnabled].
    destruct (arrayWrite_in_range kf cf getDefaultPose Hcf Hall) as (Hl & Hf & _).
    rewrite Hl. auto.
  - (* handleTogglePhysics *)
    unfold App.handleTogglePhysics. cbn [App.isPhysicsEnabled].
    destruct physics; cbn [negb App.timelineState App.keyframes App.currentFrame
                           App.isPlaying App.isPhysicsEnabled];
      repeat split; auto; discriminate.
  - (* handleSelectFrame *)
    unfold App.handleSelectFrame.
    cbn [App.timelineState App.keyframes App.currentFrame App.isPlaying
         App.isPhysicsEnabled].
    repeat split; auto; discriminate.
  - (* handleAddFrame *)
    unfold App.handleAddFrame.
    cbn [App.timelineState App.keyframes App.currentFrame App.isPlaying
         App.isPhysicsEnabled].
    rewrite spliceInsert_length.
    split; [lia |]. split; [| split; discriminate].
    destruct (arrayRead_in_range kf cf Hcf Hall) as (v & ->).
    unfold App.spliceInsert. apply Forall_app.
    split; [apply Forall_firstn_keep; exact Hall |].
    constructor; [discriminate | apply Forall_skipn_keep; exact Hall].
  - (* handleDeleteFrame *)
    unfold App.handleDeleteFrame.
    cbn [App.timelineState App.keyframes App.currentFrame].
    destruct (Nat.leb_spec (List.length kf) 1) as [Hle | Hgt].
    + cbn [App.timelineState App.keyframes App.currentFrame App.isPlaying
           App.isPhysicsEnabled]. auto.
    + cbn [App.timelineState App.keyframes App.currentFrame App.isPlaying
           App.isPhysicsEnabled].
      rewrite (spliceDelete_length kf cf Hcf).
      split; [lia |]. split; [| split; discriminate].
      unfold App.spliceDelete. apply Forall_app.
      split; [apply Forall_firstn_keep | apply Forall_skipn_keep]; exact Hall.
  - (* handleTogglePlay *)
    unfold App.handleTogglePlay.
    cbn [App.timelineState App.keyframes App.currentFrame App.isPlaying
         App.isPhysicsEnabled].
    destruct (Nat.ltb_spec 1 (List.length kf)) as [Hgt | Hle];
      cbn [App.timelineState App.keyframes App.currentFrame App.isPlaying
           App.isPhysicsEnabled];
      (split; [exact Hcf |]); (split; [exact Hall |]);
      (split; [intros _; destruct physics; reflexivity |]); auto.
Qed.

Lemma reachable_sound (s : App.AppState) : reachable s -> soundState s.
Proof.
  induction 1 as [| a s Hr IH Hoff]; [apply soundState_initial |].
  apply soundState_handle; assumption.
Qed.

(** X29.  The timeline always has a current pose.  In every state reached
    from the first one by the handlers of [App] (a frame being selected only
    among those the timeline shows), [keyframes[currentFrame]] is a pose and
    [keyframes] has no hole; while playing, physics is off and there are at
    least two keyframes; and after [handlePoseCommit(newPose)] the current
    pose is [newPose]. *)
Theorem timeline_always_has_a_current_pose (s : App.AppState) :
  reachable s ->
  (exists pose, App.currentPose s = Some pose) /\
  Forall (fun k => k <> None) (App.keyframes (App.timelineState s)) /\
  (App.isPlaying s = true ->
   App.isPhysicsEnabled s = false /\
   (1 < List.length (App.keyframes (App.timelineState s)))%nat) /\
  (forall newPose, App.currentPose (App.handlePoseCommit newPose s) = Some newPose).
Proof.
  intros Hr. destruct (reachable_sound s Hr) as (Hcf & Hall & Hexcl & Hlen).
  split; [apply arrayRead_in_range; assumption |].
  split; [exact Hall |]. split; [auto |].
  intros newPose. unfold App.currentPose, App.handlePoseCommit.
  cbn [App.timelineState App.keyframes App.currentFrame].
  apply arrayWrite_in_range; assumption.
Qed.

Lemma timeline_always_has_a_current_pose_witness :
  (exists pose,
     App.currentPose (handle OnDeleteFrame (handle OnAddFrame App.initialState))
     = Some pose) /\
  Forall (fun k => k <> None)
    (App.keyframes (App.timelineState
                      (handle OnDeleteFrame (handle OnAddFrame App.initialState)))) /\
  (App.isPlaying (handle OnDeleteFrame (handle OnAddFrame App.initialState)) = true ->
   App.isPhysicsEnabled (handle OnDeleteFrame (handle OnAddFrame App.initialState)) = false /\
   (1 < List.length
          (App.keyframes (App.timelineState
                            (handle OnDeleteFrame (handle OnAddFrame App.initialState)))))%nat) /\
  (forall newPose,
     App.currentPose
       (App.handlePoseCommit newPose
          (handle OnDeleteFrame (handle OnAddFrame App.initialState)))
     = Some newPose).
Proof.
  apply (timeline_always_has_a_current_pose
           (handle OnDeleteFrame (handle OnAddFrame App.initialState))).
  apply reachable_handle; [| exact I].
  apply reachable_handle; [apply reachable_initial | exact I].
Defined.

(* ================================================================== *)
(** ** The click picks the nearest bone *)
(* ================================================================== *)

Lemma clickedBone_snoc (pos : Point) (bs : list BoneSegment) (b : BoneSegment) :
  clickedBone pos (bs ++ [b]) = clickedBoneStep pos (clickedBone pos bs) b.
Proof. unfold clickedBone. rewrite fold_left_app. reflexivity. Qed.

Lemma firstNearest_snoc_keep (pos : Point) (bs : list BoneSegment) (i : nat)
  (b c : BoneSegment) :
  firstNearest pos bs i b ->
  (withinReach pos c -> boneDistance pos b <= boneDistance pos c) ->
  firstNearest pos (bs ++ [c]) i b.
Proof.
  intros (Hi & Hr & Hmin & Hfirst) Hc.
  assert (Hlt : (i < List.length bs)%nat)
    by (apply nth_error_Some; rewrite Hi; discriminate).
  split; [rewrite nth_error_app1 by exact Hlt; exact Hi |].
  split; [exact Hr |]. split.
  - intros b' Hin Hb'. apply in_app_or in Hin. destruct Hin as [Hin | [<- | []]].
    + apply Hmin; assumption.
    + apply Hc. exact Hb'.
  - intros j b' Hj Hnth Hb'. rewrite nth_error_app1 in Hnth by lia.
    apply (Hfirst j b' Hj Hnth Hb').
Qed.

Lemma firstNearest_snoc_new (pos : Point) (bs : list BoneSegment) (c : BoneSegment) :
  withinReach pos c ->
  (forall b', In b' bs -> withinReach pos b' ->
     boneDistance pos c < boneDistance pos b') ->
  firstNearest pos (bs ++ [c]) (List.length bs) c.
Proof.
  intros Hc Hless.
  split; [rewrite nth_error_app2, Nat.sub_diag by lia; reflexivity |].
  split; [exact Hc |]. split.
  - intros b' Hin Hb'. apply in_app_or in Hin. destruct Hin as [Hin | [<- | []]].
    + apply Rlt_le. apply Hless; assumption.
    + apply Rle_refl.
  - intros j b' Hj Hnth Hb'. rewrite nth_error_app1 in Hnth by exact Hj.
    apply Hless; [apply (nth_error_In _ _ Hnth) | exact Hb'].
Qed.

(** What the pair holds after the loop. *)
Lemma clickedBone_invariant (pos : Point) (bs : list BoneSegment) :
  (clickedBone pos bs = (None, None) /\
   forall b, In b bs -> ~ withinReach pos b) \/
  (exists i b, clickedBone pos bs = (Some (key b), Some (boneDistance pos b)) /\
               firstNearest pos bs i b).
Proof.
  induction bs as [| c bs IH] using rev_ind.
  - left. split; [reflexivity | intros b []].
  - rewrite clickedBone_snoc. unfold clickedBoneStep.
    fold (boneDistance pos c).
    destruct (Rlt_dec (boneDistance pos c) (width c / 2 + 16)) as [Hc | Hc].
    + destruct IH as [(-> & Hnone) | (i & b & -> & Hb)]; cbn [snd andb].
      * right. exists (List.length bs), c. split; [reflexivity |].
        apply firstNearest_snoc_new; [exact Hc |].
        intros b' Hin Hb'. exfalso. apply (Hnone b' Hin Hb').
      * destruct (Rlt_dec (boneDistance pos c) (boneDistance pos b)) as [Hlt | Hge].
        -- right. exists (List.length bs), c. split; [reflexivity |].
           apply firstNearest_snoc_new; [exact Hc |].
           intros b' Hin Hb'. destruct Hb as (_ & _ & Hmin & _).
           eapply Rlt_le_trans; [exact Hlt | apply Hmin; assumption].
        -- right. exists i, b. split; [reflexivity |].
           apply firstNearest_snoc_keep; [exact Hb |]. intros _. lra.
    + cbn [andb]. destruct IH as [(-> & Hnone) | (i & b & -> & Hb)].
      * left. split; [reflexivity |]. intros b' Hin.
        apply in_app_or in Hin. destruct Hin as [Hin | [<- | []]];
          [apply Hnone; exact Hin | exact Hc].
      * right. exists i, b. split; [reflexivity |].
        apply firstNearest_snoc_keep; [exact Hb |]. intros Hc'. contradiction.
Qed.

(** X30.  The click picks the nearest bone.  After the loop that opens
    [handleMouseDown], [finalClickedKey] is the key of a bone that is within
    [width / 2 + 16] of the mouse, that no bone within its own such reach is
    nearer than, and that is the first of the list among the nearest; it is
    [null] exactly when no bone is within reach. *)
Theorem handleMouseDown_picks_the_nearest_bone (pos : Point) (bs : list BoneSegment) :
  match fst (clickedBone pos bs) with
  | None => forall b, In b bs -> ~ withinReach pos b
  | Some k => exists i b, key b = k /\ firstNearest pos bs i b
  end.
Proof.
  destruct (clickedBone_invariant pos bs) as [(-> & Hnone) | (i & b & -> & Hb)];
    cbn [fst].
  - exact Hnone.
  - exists i, b. split; [reflexivity | exact Hb].
Qed.
